(** * Tidy tree layout (van der Ploeg's non-layered algorithm), layout.hpp

    A shallow embedding of [src/layout.hpp] and the verification of its
    specification.

    The C++ code works on caller-owned nodes through raw pointers and
    mutates their fields in place.  The embedding keeps that shape:

    - a node pointer is a natural number, a nullable pointer an [option];
    - the store is a finite map from pointers to [Node] records;
    - every function of the header is a computation in a state-and-error
      monad over the store; dereferencing a null or dangling pointer and
      indexing a child vector out of range are errors of their own;
    - the store carries the trace of field accesses (newest first), a ghost
      component that no computation ever inspects;
    - [double] is idealised as an exact rational ([Q]); rounding, infinities
      and NaN are outside this model.  The theorems on values state the
      expressions of the source as they are written and their comparisons,
      which read the same in binary64; the one statement that rounding
      decides is made on [move_subtree64], the sums of [move_subtree] over
      binary64 numbers;
    - [int] indices are integers ([Z]); they stay within the child count,
      so no wrap-around arises;
    - the recursion of the two walks and the contour loop of [separate] are
      driven by a fuel argument, since on an arbitrary store (cyclic
      children, cyclic threads) they need not terminate. *)

From Stdlib Require Import Floats.SpecFloat.
From Stdlib Require Import QArith Qminmax Lqa Sorted.
From stdpp Require Import base option list gmap.

Set Default Proof Using "Type".
Local Open Scope Z_scope.

Module Layout.

(** ** Data model *)

Definition ptr := nat.

(** The node of the [TreeNode] concept, with the two accumulators [msel]
    and [mser] the code uses besides.  [mod_] is the field [mod]. *)
Record Node := mkNode {
  children : list ptr;
  parent : option ptr;
  x : Q; y : Q; w : Q; h : Q;
  prelim : Q; mod_ : Q; shift : Q; change : Q;
  tl : option ptr; tr : option ptr; el : option ptr; er : option ptr;
  msel : Q; mser : Q
}.

(** Names of the numeric and of the pointer fields. *)
Inductive qfield :=
  Fx | Fy | Fw | Fh | Fprelim | Fmod | Fshift | Fchange | Fmsel | Fmser.
Inductive pfield := Fparent | Ftl | Ftr | Fel | Fer.

Global Instance qfield_eq_dec : EqDecision qfield.
Proof. solve_decision. Defined.
Global Instance pfield_eq_dec : EqDecision pfield.
Proof. solve_decision. Defined.

Definition getq (f : qfield) (n : Node) : Q :=
  match f with
  | Fx => x n | Fy => y n | Fw => w n | Fh => h n
  | Fprelim => prelim n | Fmod => mod_ n | Fshift => shift n
  | Fchange => change n | Fmsel => msel n | Fmser => mser n
  end.

Definition getp (f : pfield) (n : Node) : option ptr :=
  match f with
  | Fparent => parent n | Ftl => tl n | Ftr => tr n | Fel => el n | Fer => er n
  end.

Definition setq (f : qfield) (v : Q) (n : Node) : Node :=
  let pick g := if decide (f = g) then v else getq g n in
  mkNode (children n) (parent n)
    (pick Fx) (pick Fy) (pick Fw) (pick Fh)
    (pick Fprelim) (pick Fmod) (pick Fshift) (pick Fchange)
    (tl n) (tr n) (el n) (er n) (pick Fmsel) (pick Fmser).

Definition setp (f : pfield) (v : option ptr) (n : Node) : Node :=
  let pick g := if decide (f = g) then v else getp g n in
  mkNode (children n) (pick Fparent)
    (x n) (y n) (w n) (h n) (prelim n) (mod_ n) (shift n) (change n)
    (pick Ftl) (pick Ftr) (pick Fel) (pick Fer) (msel n) (mser n).

(** One access to a field of a node. *)
Inductive event :=
| RdQ (n : ptr) (f : qfield)
| WrQ (n : ptr) (f : qfield)
| RdP (n : ptr) (f : pfield)
| WrP (n : ptr) (f : pfield)
| RdC (n : ptr).

Global Instance event_eq_dec : EqDecision event.
Proof. solve_decision. Defined.

Record state := mkState {
  heap : gmap ptr Node;
  trace : list event          (* newest access first *)
}.

Inductive error := NullDeref | OutOfBounds | OutOfFuel.

Global Instance error_eq_dec : EqDecision error.
Proof. solve_decision. Defined.

Inductive result (A : Type) :=
| Ok (a : A)
| Err (e : error).
Global Arguments Ok {A} a.
Global Arguments Err {A} e.

(** ** The monad *)

Definition M (A : Type) : Type := state → result (A * state).

Definition ret {A} (a : A) : M A := λ s, Ok (a, s).
Definition fail {A} (e : error) : M A := λ _, Err e.
Definition bind {A B} (m : M A) (k : A → M B) : M B :=
  λ s, match m s with
       | Ok (a, s') => k a s'
       | Err e => Err e
       end.

Notation "'do' x <- m ; k" := (bind m (λ x, k))
  (at level 10, x name, m at level 100, k at level 200,
   format "'[v' 'do'  x  <-  m ; '/' k ']'").
Notation "'do' ' p <- m ; k" := (bind m (λ v, match v with p => k end))
  (at level 10, p pattern, m at level 100, k at level 200).
Notation "m ;; k" := (bind m (λ _, k))
  (at level 100, k at level 200, right associativity).

(** ** Field accesses *)

(** [p->f] for a numeric field. *)
Definition loadq (f : qfield) (p : ptr) : M Q := λ s,
  match heap s !! p with
  | Some n => Ok (getq f n, mkState (heap s) (RdQ p f :: trace s))
  | None => Err NullDeref
  end.

(** [p->f = v] for a numeric field. *)
Definition storeq (f : qfield) (p : ptr) (v : Q) : M unit := λ s,
  match heap s !! p with
  | Some n => Ok (tt, mkState (<[p := setq f v n]> (heap s)) (WrQ p f :: trace s))
  | None => Err NullDeref
  end.

Definition loadp (f : pfield) (p : ptr) : M (option ptr) := λ s,
  match heap s !! p with
  | Some n => Ok (getp f n, mkState (heap s) (RdP p f :: trace s))
  | None => Err NullDeref
  end.

Definition storep (f : pfield) (p : ptr) (v : option ptr) : M unit := λ s,
  match heap s !! p with
  | Some n => Ok (tt, mkState (<[p := setp f v n]> (heap s)) (WrP p f :: trace s))
  | None => Err NullDeref
  end.

(** [p->children], the whole vector. *)
Definition kids (p : ptr) : M (list ptr) := λ s,
  match heap s !! p with
  | Some n => Ok (children n, mkState (heap s) (RdC p :: trace s))
  | None => Err NullDeref
  end.

(** Using a nullable pointer where the code dereferences it. *)
Definition deref (p : option ptr) : M ptr :=
  match p with
  | Some q => ret q
  | None => fail NullDeref
  end.

(** [p->children.size()] *)
Definition nchildren (p : ptr) : M Z :=
  do cs <- kids p; ret (Z.of_nat (length cs)).

(** [p->children[i]] *)
Definition child (p : ptr) (i : Z) : M ptr :=
  do cs <- kids p;
  if decide (0 ≤ i)
  then match cs !! Z.to_nat i with
       | Some c => ret c
       | None => fail OutOfBounds
       end
  else fail OutOfBounds.

(** Comparisons of [double]s. *)
Definition Qleb (a b : Q) : bool := Qle_bool a b.
Definition Qltb (a b : Q) : bool := negb (Qle_bool b a).

(** ** The ancestor-skip list *)

(** [struct IYL]; the chain through [nxt] is a list. *)
Record IYL := mkIYL { lowY : Q; index : Z }.

Definition V_SPACING : Q := 20.
Definition H_SPACING : Q := 20.

(** The loop of [updateIYL]: [while (oldHead && miny >= oldHead->lowY)]. *)
Fixpoint dropIYL (miny : Q) (oldHead : list IYL) : list IYL :=
  match oldHead with
  | e :: nxt => if Qleb (lowY e) miny then dropIYL miny nxt else oldHead
  | [] => []
  end.

Definition updateIYL (miny : Q) (i : Z) (oldHead : list IYL) : list IYL :=
  mkIYL miny i :: dropIYL miny oldHead.

(** ** The functions of [namespace details] *)

Definition bottom (t : ptr) : M Q :=
  do yv <- loadq Fy t; do hv <- loadq Fh t; ret (yv + hv)%Q.

Definition next_left_contour (t : ptr) : M (option ptr) :=
  do n <- nchildren t;
  if decide (n = 0) then loadp Ftl t
  else do c <- child t 0; ret (Some c).

Definition next_right_contour (t : ptr) : M (option ptr) :=
  do n <- nchildren t;
  if decide (n = 0) then loadp Ftr t
  else do n' <- nchildren t; do c <- child t (n' - 1); ret (Some c).

Definition set_extremes (t : ptr) : M unit :=
  do n <- nchildren t;
  if decide (n = 0) then
    storep Fel t (Some t);;
    storep Fer t (Some t);;
    storeq Fmser t 0%Q;;
    do v <- loadq Fmser t;
    storeq Fmsel t v
  else
    do c <- child t 0; do e <- loadp Fel c; storep Fel t e;;
    do c <- child t 0; do m <- loadq Fmsel c; storeq Fmsel t m;;
    do k <- nchildren t; do c <- child t (k - 1);
    do e <- loadp Fer c; storep Fer t e;;
    do k <- nchildren t; do c <- child t (k - 1);
    do m <- loadq Fmser c; storeq Fmser t m.

Definition position_root (t : ptr) : M unit :=
  do c0 <- child t 0; do p0 <- loadq Fprelim c0;
  do c0 <- child t 0; do m0 <- loadq Fmod c0;
  do k <- nchildren t; do cl <- child t (k - 1); do ml <- loadq Fmod cl;
  do k <- nchildren t; do cl <- child t (k - 1); do pl <- loadq Fprelim cl;
  do k <- nchildren t; do cl <- child t (k - 1); do wl <- loadq Fw cl;
  do wt <- loadq Fw t;
  storeq Fprelim t ((p0 + m0 + ml + pl + wl) / 2 - wt / 2)%Q.

Definition distribute_extra (t : ptr) (i si : Z) (dist : Q) : M unit :=
  if decide (si ≠ i - 1) then
    let nr : Q := inject_Z (i - si) in
    do c <- child t (si + 1);
    do v <- loadq Fshift c; storeq Fshift c (v + dist / nr)%Q;;
    do c <- child t i;
    do v <- loadq Fshift c; storeq Fshift c (v - dist / nr)%Q;;
    do c <- child t i;
    do v <- loadq Fchange c; storeq Fchange c (v - (dist - dist / nr))%Q
  else ret tt.

Definition move_subtree (t : ptr) (i si : Z) (dist : Q) : M unit :=
  do c <- child t i; do v <- loadq Fmod c; storeq Fmod c (v + dist)%Q;;
  do c <- child t i; do v <- loadq Fmsel c; storeq Fmsel c (v + dist)%Q;;
  do c <- child t i; do v <- loadq Fmser c; storeq Fmser c (v + dist)%Q;;
  distribute_extra t i si dist.

Definition set_left_thread (t : ptr) (i : Z) (cl : ptr) (modsumcl : Q)
  : M unit :=
  do c0 <- child t 0; do e <- loadp Fel c0; do li <- deref e;
  storep Ftl li (Some cl);;
  do cm <- loadq Fmod cl;
  do c0 <- child t 0; do m0 <- loadq Fmsel c0;
  let diff := ((modsumcl - cm) - m0)%Q in
  do v <- loadq Fmod li; storeq Fmod li (v + diff)%Q;;
  do v <- loadq Fprelim li; storeq Fprelim li (v - diff)%Q;;
  do c0 <- child t 0; do ci <- child t i;
  do e <- loadp Fel ci; storep Fel c0 e;;
  do c0 <- child t 0; do ci <- child t i;
  do m <- loadq Fmsel ci; storeq Fmsel c0 m.

Definition set_right_thread (t : ptr) (i : Z) (sr : ptr) (modsumsr : Q)
  : M unit :=
  do ci <- child t i; do e <- loadp Fer ci; do ri <- deref e;
  storep Ftr ri (Some sr);;
  do sm <- loadq Fmod sr;
  do ci <- child t i; do mi <- loadq Fmser ci;
  let diff := ((modsumsr - sm) - mi)%Q in
  do v <- loadq Fmod ri; storeq Fmod ri (v + diff)%Q;;
  do v <- loadq Fprelim ri; storeq Fprelim ri (v - diff)%Q;;
  do ci <- child t i; do cp <- child t (i - 1);
  do e <- loadp Fer cp; storep Fer ci e;;
  do ci <- child t i; do cp <- child t (i - 1);
  do m <- loadq Fmser cp; storeq Fmser ci m.

(** The inner loop of [separate]:
    [while (cursor && bottom(sr) > cursor->lowY) cursor = cursor->nxt.get();] *)
Fixpoint advance_cursor (sr : ptr) (cursor : list IYL) : M (list IYL) :=
  match cursor with
  | [] => ret []
  | e :: nxt =>
      do b <- bottom sr;
      if Qltb (lowY e) b then advance_cursor sr nxt else ret cursor
  end.

(** The variables the contour loop of [separate] carries. *)
Record sep_vars := mkSep {
  sv_sr : option ptr; sv_cl : option ptr;
  sv_mssr : Q; sv_mscl : Q;
  sv_cursor : list IYL
}.

(** One round of [while (sr && cl)], entered with both non-null. *)
Definition separate_body (t : ptr) (i : Z) (sr cl : ptr) (mssr mscl : Q)
    (cursor : list IYL) : M sep_vars :=
  do cursor <- advance_cursor sr cursor;
  do sp <- loadq Fprelim sr; do sw <- loadq Fw sr; do cp <- loadq Fprelim cl;
  let dist := ((mssr + sp + sw + H_SPACING) - (mscl + cp))%Q in
  do mscl <-
    (if Qltb 0 dist then
       let si := match cursor with e :: _ => index e | [] => i - 1 end in
       move_subtree t i si dist;; ret (mscl + dist)%Q
     else ret mscl);
  do sy <- bottom sr; do cy <- bottom cl;
  do '(sr', mssr) <-
    (if Qleb sy cy then
       do nx <- next_right_contour sr;
       match nx with
       | Some s' => do m <- loadq Fmod s'; ret (Some s', (mssr + m)%Q)
       | None => ret (None, mssr)
       end
     else ret (Some sr, mssr));
  do '(cl', mscl) <-
    (if Qleb cy sy then
       do nx <- next_left_contour cl;
       match nx with
       | Some c' => do m <- loadq Fmod c'; ret (Some c', (mscl + m)%Q)
       | None => ret (None, mscl)
       end
     else ret (Some cl, mscl));
  ret (mkSep sr' cl' mssr mscl cursor).

Fixpoint separate_loop (fuel : nat) (t : ptr) (i : Z) (v : sep_vars)
  : M sep_vars :=
  match sv_sr v, sv_cl v with
  | Some sr, Some cl =>
      match fuel with
      | O => fail OutOfFuel
      | S fuel' =>
          do v' <- separate_body t i sr cl (sv_mssr v) (sv_mscl v) (sv_cursor v);
          separate_loop fuel' t i v'
      end
  | _, _ => ret v
  end.

Definition separate (fuel : nat) (t : ptr) (i : Z) (ih : list IYL) : M unit :=
  do sr <- child t (i - 1); do mssr <- loadq Fmod sr;
  do cl <- child t i; do mscl <- loadq Fmod cl;
  do v <- separate_loop fuel t i (mkSep (Some sr) (Some cl) mssr mscl ih);
  match sv_sr v, sv_cl v with
  | None, Some cl => set_left_thread t i cl (sv_mscl v)
  | Some sr, None => set_right_thread t i sr (sv_mssr v)
  | _, _ => ret tt
  end.

(** The body of [for (int i = 1; i < (int)t->children.size(); ++i)] in
    [firstwalk], over the indices still to come; [walk] is the recursive
    call.  No function writes a child vector, so the bound is the same at
    every test. *)
Fixpoint firstwalk_rest (walk : ptr → M unit) (fuel : nat) (t : ptr)
    (idx : list Z) (ih : list IYL) : M (list IYL) :=
  match idx with
  | [] => ret ih
  | i :: idx' =>
      do c <- child t i; walk c;;
      do c <- child t i; do minY <- bottom c;
      separate fuel t i ih;;
      firstwalk_rest walk fuel t idx' (updateIYL minY i ih)
  end.

Fixpoint firstwalk (fuel : nat) (t : ptr) : M unit :=
  match fuel with
  | O => fail OutOfFuel
  | S fuel' =>
      do p <- loadp Fparent t;
      match p with
      | Some pp =>
          do py <- loadq Fy pp; do ph <- loadq Fh pp;
          storeq Fy t (py + ph + V_SPACING)%Q
      | None => storeq Fy t 0%Q
      end;;
      do n <- nchildren t;
      if decide (n = 0) then set_extremes t
      else
        do c <- child t 0; firstwalk fuel' c;;
        do c <- child t 0; do b <- bottom c;
        do n <- nchildren t;
        firstwalk_rest (firstwalk fuel') fuel' t (seqZ 1 (n - 1))
          (updateIYL b 0 []);;
        position_root t;;
        set_extremes t
  end.

(** The loop of [add_child_spacing], over the indices still to come. *)
Fixpoint add_child_spacing_loop (t : ptr) (idx : list Z) (d modsumdelta : Q)
  : M unit :=
  match idx with
  | [] => ret tt
  | i :: idx' =>
      do c <- child t i; do sh <- loadq Fshift c;
      let d := (d + sh)%Q in
      do c <- child t i; do ch <- loadq Fchange c;
      let modsumdelta := (modsumdelta + (d + ch))%Q in
      do c <- child t i; do m <- loadq Fmod c;
      storeq Fmod c (m + modsumdelta)%Q;;
      add_child_spacing_loop t idx' d modsumdelta
  end.

Definition add_child_spacing (t : ptr) : M unit :=
  do n <- nchildren t;
  add_child_spacing_loop t (seqZ 0 n) 0%Q 0%Q.

(** [for (Node *c : t->children) walk(c);] *)
Fixpoint for_each (walk : ptr → M unit) (cs : list ptr) : M unit :=
  match cs with
  | [] => ret tt
  | c :: cs' => walk c;; for_each walk cs'
  end.

Fixpoint secondwalk (fuel : nat) (t : ptr) (modsum : Q) : M unit :=
  match fuel with
  | O => fail OutOfFuel
  | S fuel' =>
      do m <- loadq Fmod t;
      let modsum := (modsum + m)%Q in
      do p <- loadq Fprelim t;
      storeq Fx t (p + modsum)%Q;;
      add_child_spacing t;;
      do cs <- kids t;
      for_each (λ c, secondwalk fuel' c modsum) cs
  end.

(** ** The entry point *)

Definition layout (fuel : nat) (t : ptr) : M unit :=
  firstwalk fuel t;; secondwalk fuel t 0%Q.

(** ** A fresh run *)

(** The state a call of [layout] starts from: the caller's store, and no
    access made yet. *)
Definition init (σ : gmap ptr Node) : state := mkState σ [].

(** A node as the caller hands it over: the working fields at their
    neutral values, the outputs [x] and [y] at zero. *)
Definition fresh (self : ptr) (par : option ptr) (cs : list ptr) (wd ht : Q)
  : Node :=
  mkNode cs par 0 0 wd ht 0 0 0 0 None None (Some self) (Some self) 0 0.

(** ** The skip list: what [updateIYL] maintains *)

(** [lowY] grows strictly from the head on. *)
Definition increasing (l : list IYL) : Prop :=
  StronglySorted (λ a b, (lowY a < lowY b)%Q) l.

(** [lowY] falls strictly from the head on. *)
Definition decreasing (l : list IYL) : Prop :=
  StronglySorted (λ a b, (lowY b < lowY a)%Q) l.

(** The insertion as the specification words it: drop every head entry
    whose [lowY] is greater than or equal to the new value, then prepend. *)
Fixpoint spec_drop (miny : Q) (l : list IYL) : list IYL :=
  match l with
  | e :: nxt => if Qleb miny (lowY e) then spec_drop miny nxt else l
  | [] => []
  end.

Definition spec_insert (miny : Q) (i : Z) (l : list IYL) : list IYL :=
  mkIYL miny i :: spec_drop miny l.

(** ** Trees in the store *)

(** The shape of a tree of nodes: the pointer of the root and the subtrees
    of its children, from left to right. *)
#[local] Unset Elimination Schemes.
Inductive tree := Tr (root : ptr) (sub : list tree).
#[local] Set Elimination Schemes.

Definition root_of (T : tree) : ptr := match T with Tr r _ => r end.
Definition subtrees (T : tree) : list tree := match T with Tr _ sub => sub end.

Fixpoint nodes (T : tree) : list ptr :=
  match T with Tr r sub => r :: concat (map nodes sub) end.

Global Instance Q_eq_dec : EqDecision Q.
Proof. solve_decision. Defined.

(** The working fields at their neutral values
    (0, 0, 0, 0, self, self, 0, 0, none, none). *)
Definition neutral (self : ptr) (n : Node) : bool :=
  bool_decide (prelim n = 0%Q) && bool_decide (mod_ n = 0%Q) &&
  bool_decide (shift n = 0%Q) && bool_decide (change n = 0%Q) &&
  bool_decide (el n = Some self) && bool_decide (er n = Some self) &&
  bool_decide (msel n = 0%Q) && bool_decide (mser n = 0%Q) &&
  bool_decide (tl n = None) && bool_decide (tr n = None).

(** The store holds the tree [T] below the parent [par]: every node is
    there, its child vector lists the roots of its subtrees, its parent
    link points back, its box has non-negative sides and its working fields
    are neutral. *)
Fixpoint shaped (σ : gmap ptr Node) (par : option ptr) (T : tree) : bool :=
  match T with
  | Tr r sub =>
      match σ !! r with
      | Some n =>
          bool_decide (children n = map root_of sub) &&
          bool_decide (parent n = par) &&
          Qleb 0 (w n) && Qleb 0 (h n) && neutral r n &&
          forallb (shaped σ (Some r)) sub
      | None => false
      end
  end.

(** The precondition of [layout]: the nodes reachable from the root form
    the finite tree [T] (no node occurs twice), the root has no parent. *)
Definition tree_ok (σ : gmap ptr Node) (T : tree) : bool :=
  shaped σ None T && bool_decide (NoDup (nodes T)).

(** ** What a trace tells *)

(** How often the numeric field [f] of node [n] was written. *)
Fixpoint nwr (f : qfield) (n : ptr) (tr : list event) : nat :=
  match tr with
  | [] => O
  | e :: tr' => ((if decide (e = WrQ n f) then 1 else 0) + nwr f n tr')%nat
  end.

(** No output field is read before the run has written it. *)
Fixpoint rsafe (tr : list event) : Prop :=
  match tr with
  | [] => True
  | e :: tr' =>
      match e with
      | RdQ n Fx => (0 < nwr Fx n tr')%nat
      | RdQ n Fy => (0 < nwr Fy n tr')%nat
      | _ => True
      end ∧ rsafe tr'
  end.

(** An access that writes no output field and reads [y] only of nodes
    in [Y], and never [x]. *)
Definition calm (Y : ptr → Prop) (e : event) : Prop :=
  match e with
  | WrQ _ Fx | WrQ _ Fy | RdQ _ Fx => False
  | RdQ n Fy => Y n
  | _ => True
  end.

(** [ext f Y W tr tr']: the trace [tr'] continues [tr]; in the continuation
    the output field [f] is written once for each entry of [W] (newest
    first), no other output is written, and [y] is read only of nodes in
    [Y] or, for [f = Fy], of nodes written before in the continuation. *)
Inductive ext (f : qfield) (Y : ptr → Prop)
  : list ptr → list event → list event → Prop :=
| ext_refl tr : ext f Y [] tr tr
| ext_calm W tr tr' e :
    ext f Y W tr tr' → calm (λ n, Y n ∨ (f = Fy ∧ n ∈ W)) e →
    ext f Y W tr (e :: tr')
| ext_write W tr tr' n :
    ext f Y W tr tr' → ext f Y (n :: W) tr (WrQ n f :: tr').

(** ** The skeleton of a store *)

(** The numeric fields that steer the control flow of the first walk. *)
Definition is_geom (f : qfield) : bool :=
  match f with Fy | Fw | Fh => true | _ => false end.

(** A node with the other numeric fields blanked. *)
Definition norm (n : Node) : Node :=
  mkNode (children n) (parent n) 0 (y n) (w n) (h n) 0 0 0 0
    (tl n) (tr n) (el n) (er n) 0 0.

Definition skel (σ : gmap ptr Node) : gmap ptr Node := norm <$> σ.

(** Total correctness over the skeleton and the trace: from every state
    with skeleton [κ] and trace [tr], [m] returns, with a result, a
    skeleton and a trace that satisfy [Φ]. *)
Definition awp {A} (m : M A) (Φ : A → gmap ptr Node → list event → Prop)
    (κ : gmap ptr Node) (tr : list event) : Prop :=
  ∀ s, skel (heap s) = κ → trace s = tr →
    ∃ a s', m s = Ok (a, s') ∧ Φ a (skel (heap s')) (trace s').

(** ** Contours in a skeleton *)

(** [bottom], [next_left_contour] and [next_right_contour] as functions of
    the node read. *)
Definition bot (n : Node) : Q := (y n + h n)%Q.

Definition nextl (n : Node) : option ptr :=
  match children n with [] => tl n | c :: _ => Some c end.

Definition nextr (n : Node) : option ptr :=
  match children n with [] => tr n | _ :: _ => last (children n) end.

Definition botof (κ : gmap ptr Node) (p : ptr) : Q :=
  match κ !! p with Some n => bot n | None => 0%Q end.

(** [chain κ next S p l]: starting at [p], following [next] visits exactly
    the nodes [l] and then stops; every node visited is in [S] and lies
    strictly lower than the one before. *)
Fixpoint chain (κ : gmap ptr Node) (next : Node → option ptr)
    (S : ptr → Prop) (p : ptr) (l : list ptr) : Prop :=
  S p ∧ ∃ n, κ !! p = Some n ∧
    match l with
    | [] => next n = None
    | q :: l' =>
        next n = Some q ∧ (botof κ p < botof κ q)%Q ∧ chain κ next S q l'
    end.

(** The children from [c0] to [ck] of one parent are placed: the left
    contour of the group starts at [c0] and ends at [c0->el], its right
    contour starts at [ck] and ends at [ck->er], and both ends are equally
    low. *)
Definition forest (κ : gmap ptr Node) (S : ptr → Prop) (c0 ck : ptr) : Prop :=
  ∃ Ll Lr n0 nk,
    κ !! c0 = Some n0 ∧ κ !! ck = Some nk ∧
    chain κ nextl S c0 Ll ∧ el n0 = Some (List.last Ll c0) ∧
    chain κ nextr S ck Lr ∧ er nk = Some (List.last Lr ck) ∧
    (botof κ (List.last Ll c0) == botof κ (List.last Lr ck))%Q.

(** The structure the walks rely on, below the parent [par]. *)
#[local] Unset Elimination Schemes.
Inductive tree_at (κ : gmap ptr Node) : option ptr → tree → Prop :=
| tree_at_node par r sub n :
    κ !! r = Some n → children n = map root_of sub → parent n = par →
    (0 <= h n)%Q → Forall (tree_at κ (Some r)) sub →
    tree_at κ par (Tr r sub).

(** No thread is set on a node of the list. *)
Definition unthreaded (κ : gmap ptr Node) (l : list ptr) : Prop :=
  ∀ p n, p ∈ l → κ !! p = Some n → tl n = None ∧ tr n = None.

(** The row of a node below the parent [par]. *)
Definition row_y (κ : gmap ptr Node) (par : option ptr) : Q :=
  match par with
  | Some p =>
      match κ !! p with
      | Some np => (y np + h np + V_SPACING)%Q
      | None => 0%Q
      end
  | None => 0%Q
  end.

Inductive rows (κ : gmap ptr Node) : option ptr → tree → Prop :=
| rows_node par r sub n :
    κ !! r = Some n → y n = row_y κ par → Forall (rows κ (Some r)) sub →
    rows κ par (Tr r sub).
#[local] Set Elimination Schemes.

(** No node appears or disappears, and the inputs of every node stay. *)
Definition same_frame (κ κ' : gmap ptr Node) : Prop :=
  ∀ p, match κ !! p, κ' !! p with
       | Some n, Some n' =>
           children n' = children n ∧ parent n' = parent n ∧
           w n' = w n ∧ h n' = h n
       | None, None => True
       | _, _ => False
       end.

(** What [firstwalk] leaves behind on the tree [T] below [par]. *)
Definition walked (κ κ' : gmap ptr Node) (par : option ptr) (T : tree)
  : Prop :=
  same_frame κ κ' ∧
  (∀ p, p ∉ nodes T → κ' !! p = κ !! p) ∧
  rows κ' par T ∧
  forest κ' (λ p, p ∈ nodes T) (root_of T) (root_of T).

(** The children of a node are nodes of the skeleton. *)
Definition kids_in (κ : gmap ptr Node) (n : Node) : Prop :=
  ∀ c, c ∈ children n → is_Some (κ !! c).

(** How the contour loop of [separate] ends, started at [sr] and [cl] with
    the contours [Ls] and [Lc] ahead: one of the two ran out while the
    other stands on a node strictly lower than the end of the first, or
    both ran out on equally low ends. *)
Definition sep_done (κ : gmap ptr Node) (Ss Sc : ptr → Prop) (sr cl : ptr)
    (Ls Lc : list ptr) (v : sep_vars) : Prop :=
  match sv_sr v, sv_cl v with
  | None, Some c =>
      ∃ Lc', chain κ nextl Sc c Lc' ∧ List.last Lc' c = List.last Lc cl ∧
             (botof κ (List.last Ls sr) < botof κ c)%Q
  | Some s, None =>
      ∃ Ls', chain κ nextr Ss s Ls' ∧ List.last Ls' s = List.last Ls sr ∧
             (botof κ (List.last Lc cl) < botof κ s)%Q
  | None, None =>
      (botof κ (List.last Ls sr) == botof κ (List.last Lc cl))%Q
  | Some _, Some _ => False
  end.

(** The skeleton after [set_left_thread]: the thread on [li], then the new
    left extreme on [c0]. *)
Definition thread_left (κ : gmap ptr Node) (li cl c0 ci : ptr)
  : gmap ptr Node :=
  match κ !! li with
  | Some nli =>
      let κ1 := <[li := setp Ftl (Some cl) nli]> κ in
      match κ1 !! c0, κ1 !! ci with
      | Some n0, Some nci => <[c0 := setp Fel (el nci) n0]> κ1
      | _, _ => κ1
      end
  | None => κ
  end.

(** The skeleton after [set_right_thread]. *)
Definition thread_right (κ : gmap ptr Node) (ri sr ci cp : ptr)
  : gmap ptr Node :=
  match κ !! ri with
  | Some nri =>
      let κ1 := <[ri := setp Ftr (Some sr) nri]> κ in
      match κ1 !! ci, κ1 !! cp with
      | Some nci, Some ncp => <[ci := setp Fer (er ncp) nci]> κ1
      | _, _ => κ1
      end
  | None => κ
  end.

(** The skeleton after [set_extremes]. *)
Definition with_extremes (κ : gmap ptr Node) (t : ptr) (l r : option ptr)
  : gmap ptr Node :=
  match κ !! t with
  | Some nt => <[t := setp Fer r (setp Fel l nt)]> κ
  | None => κ
  end.

(** [same_frame], and the rows stay as well. *)
Definition same_geom (κ κ' : gmap ptr Node) : Prop :=
  ∀ p, match κ !! p, κ' !! p with
       | Some n, Some n' =>
           children n' = children n ∧ parent n' = parent n ∧
           w n' = w n ∧ h n' = h n ∧ y n' = y n
       | None, None => True
       | _, _ => False
       end.

(** What the recursive call [walk] has to do on the tree [T] below [par],
    for the loop over the children to go through. *)
Definition walk_spec (walk : ptr → M unit) (par : option ptr) (T : tree)
  : Prop :=
  ∀ κ tr,
    tree_at κ par T → unthreaded κ (nodes T) →
    (∀ p, par = Some p → (p ∉ nodes T) ∧ is_Some (κ !! p)) →
    awp (walk (root_of T))
      (λ _ κ' tr',
         walked κ κ' par T ∧
         ∃ W, W ≡ₚ nodes T ∧ ext Fy (λ n, par = Some n) W tr tr') κ tr.

(** ** More fuel *)

(** [r'] is what [r] becomes with more fuel: a run that did not run out
    of fuel ends the same way. *)
Definition le_res {A} (r r' : result A) : Prop := r = Err OutOfFuel ∨ r = r'.

Definition le_M {A} (m m' : M A) : Prop := ∀ s, le_res (m s) (m' s).

(** ** A concrete tree *)

(** A root with three children: a tall leaf, and two low nodes with one
    leaf child each, the first of them wide.

<<
                 0 (10 x 10)
        /            |            \
   1 (10 x 100)  2 (10 x 10)  3 (10 x 10)
                     |             |
                 4 (100 x 10)  5 (10 x 10)
>> *)
Definition tilted : gmap ptr Node :=
  list_to_map
    [ (0, fresh 0 None [1; 2; 3] 10 10);
      (1, fresh 1 (Some 0) [] 10 100);
      (2, fresh 2 (Some 0) [4] 10 10);
      (3, fresh 3 (Some 0) [5] 10 10);
      (4, fresh 4 (Some 2) [] 100 10);
      (5, fresh 5 (Some 3) [] 10 10) ]%nat.

Definition tilted_tree : tree :=
  (Tr 0 [Tr 1 []; Tr 2 [Tr 4 []]; Tr 3 [Tr 5 []]])%nat.

(** ** Runs on a concrete state *)

(** Whatever [m] returns, the store it leaves is related by [R] to the one
    it started from. *)
Definition keeps {A} (R : gmap ptr Node → gmap ptr Node → Prop) (m : M A)
  : Prop :=
  ∀ s a s', m s = Ok (a, s') → R (heap s) (heap s').

(** Two stores have the same nodes, which differ at most in the numeric
    fields listed in [fs]. *)
Definition same_but (fs : list qfield) (σ σ' : gmap ptr Node) : Prop :=
  ∀ p, match σ !! p, σ' !! p with
       | Some n, Some n' =>
           children n' = children n ∧
           (∀ g, getp g n' = getp g n) ∧
           (∀ f, f ∉ fs → getq f n' = getq f n)
       | None, None => True
       | _, _ => False
       end.

Definition modof (σ : gmap ptr Node) (p : ptr) : Q :=
  match σ !! p with Some n => mod_ n | None => 0%Q end.

(** One call [move_subtree(t, i, si, dist)] with a strictly positive
    [dist], taking the store [σ] to [σ']: [dist] is added to the [mod],
    [msel] and [mser] of child [i], none of which has decreased. *)
Definition pos_move (t : ptr) (i si : Z) (dist : Q)
    (σ σ' : gmap ptr Node) : Prop :=
  ∃ tr sm nt c n n',
    (0 < dist)%Q ∧
    move_subtree t i si dist (mkState σ tr) = Ok (tt, sm) ∧ heap sm = σ' ∧
    σ !! t = Some nt ∧ children nt !! Z.to_nat i = Some c ∧
    σ !! c = Some n ∧ σ' !! c = Some n' ∧
    mod_ n' = (mod_ n + dist)%Q ∧ msel n' = (msel n + dist)%Q ∧
    mser n' = (mser n + dist)%Q ∧
    (mod_ n <= mod_ n')%Q ∧ (msel n <= msel n')%Q ∧ (mser n <= mser n')%Q.

(** The rounds of the contour loop of [separate], from the loop variables
    [v] and the store [σ] to the store [σ'].  Every round is one run of
    the loop body on the contour nodes [sr] and [cl]; it finds the
    distance [dist] of the source, and with [dist > 0] it changes the
    store by exactly one call [move_subtree(t, i, si, dist)], with
    [dist <= 0] not at all.  The loop ends when a contour runs out. *)
Inductive moves (t : ptr) (i : Z)
  : sep_vars → gmap ptr Node → gmap ptr Node → Prop :=
| moves_end v σ :
    sv_sr v = None ∨ sv_cl v = None → moves t i v σ σ
| moves_round v sr cl ns nc σ v1 σ1 σ' :
    sv_sr v = Some sr → sv_cl v = Some cl →
    σ !! sr = Some ns → σ !! cl = Some nc →
    (∃ tr s1,
       separate_body t i sr cl (sv_mssr v) (sv_mscl v) (sv_cursor v)
         (mkState σ tr) = Ok (v1, s1) ∧ heap s1 = σ1) →
    (let dist := ((sv_mssr v + prelim ns + w ns + H_SPACING)
                  - (sv_mscl v + prelim nc))%Q in
     let si := match sv_cursor v1 with e :: _ => index e | [] => i - 1 end in
     if Qltb 0 dist then pos_move t i si dist σ σ1 else σ1 = σ) →
    moves t i v1 σ1 σ' →
    moves t i v σ σ'.

(** ** [move_subtree] in binary64 *)

(** A [double] of the source: an IEEE 754 binary64 number (53 bits of
    precision, exponents below 1024), with the sum and the comparison of
    the Standard Library's specification of floating-point arithmetic;
    the sum rounds to nearest, ties to even. *)
Definition double : Set := spec_float.

Definition double_of_Z (z : Z) : double := binary_normalize 53 1024 z 0 false.

Definition dadd (a b : double) : double := SFadd 53 1024 a b.

Definition dltb (a b : double) : bool := SFltb a b.

(** The three fields [move_subtree] adds [dist] to, as the [double]s they
    are in the source. *)
Record Moved64 := mkMoved64 {
  mod64 : double; msel64 : double; mser64 : double
}.

(** [t->children[i]->mod += dist; t->children[i]->msel += dist;
    t->children[i]->mser += dist;] *)
Definition move_subtree64 (n : Moved64) (dist : double) : Moved64 :=
  mkMoved64 (dadd (mod64 n) dist) (dadd (msel64 n) dist)
    (dadd (mser64 n) dist).

(** What [add_child_spacing] adds to the [mod] of each child, from the
    [shift] and [change] of the children from left to right. *)
Fixpoint spacing (d modsumdelta : Q) (cs : list Node) : list Q :=
  match cs with
  | [] => []
  | c :: cs' =>
      let d := (d + shift c)%Q in
      let modsumdelta := (modsumdelta + (d + change c))%Q in
      modsumdelta :: spacing d modsumdelta cs'
  end.

(** The boxes of two nodes share a [y]-range, and their horizontal extents
    [[x, x + w]] overlap. *)
Definition share_rows (a b : Node) : bool :=
  Qltb (y a) (y b + h b) && Qltb (y b) (y a + h a).

Definition x_overlap (a b : Node) : bool :=
  Qltb (x a) (x b + w b) && Qltb (x b) (x a + w a).

(** The boxes of the nodes [p] and [q] of a store collide. *)
Definition nodes_collide (σ : gmap ptr Node) (p q : ptr) : bool :=
  match σ !! p, σ !! q with
  | Some a, Some b => share_rows a b && x_overlap a b
  | _, _ => false
  end.

(** The box of [q] begins less than [H_SPACING] to the right of the end of
    the box of [p]. *)
Definition too_close (σ : gmap ptr Node) (p q : ptr) : bool :=
  match σ !! p, σ !! q with
  | Some a, Some b => Qltb (x b) (x a + w a + H_SPACING)
  | _, _ => false
  end.

(** ** Independence of the store around the tree and of the old outputs *)

(** [m] touches only the nodes it finds: it does not change the set of
    nodes, and it runs the same way when the store holds more nodes. *)
Definition frames {A} (m : M A) : Prop :=
  ∀ σ1 σ2 tr a s1,
    m (mkState σ1 tr) = Ok (a, s1) →
    dom (heap s1) = dom σ1 ∧
    (σ1 ##ₘ σ2 →
     m (mkState (σ1 ∪ σ2) tr) = Ok (a, mkState (heap s1 ∪ σ2) (trace s1))).

(** The output field [f] of node [p] is known: it is no output at all, or
    the run has written it. *)
Definition known (tr : list event) (p : ptr) (f : qfield) : Prop :=
  match f with
  | Fx => (0 < nwr Fx p tr)%nat
  | Fy => (0 < nwr Fy p tr)%nat
  | _ => True
  end.

(** Two states alike up to the outputs not yet written. *)
Definition alike (s s' : state) : Prop :=
  trace s = trace s' ∧
  ∀ p, match heap s !! p, heap s' !! p with
       | Some n, Some n' =>
           children n = children n' ∧
           (∀ g, getp g n = getp g n') ∧
           (∀ f, known (trace s) p f → getq f n = getq f n')
       | None, None => True
       | _, _ => False
       end.

(** [m] does not depend on outputs it has not written: it only adds to
    the trace, and from alike states its runs that read no unwritten
    output return the same result in alike states. *)
Definition oblivious {A} (m : M A) : Prop :=
  (∀ s a s1, m s = Ok (a, s1) → trace s `suffix_of` trace s1) ∧
  (∀ s s' a s1,
     alike s s' → m s = Ok (a, s1) → rsafe (trace s1) →
     ∃ s1', m s' = Ok (a, s1') ∧ alike s1 s1').

(** A node with its working fields back at their neutral values, its
    structure, its box and its outputs kept. *)
Definition reset_node (self : ptr) (n : Node) : Node :=
  mkNode (children n) (parent n) (x n) (y n) (w n) (h n) 0 0 0 0
    None None (Some self) (Some self) 0 0.

(** The nodes listed in [l] reset, the others as they are. *)
Definition reset (l : list ptr) (σ : gmap ptr Node) : gmap ptr Node :=
  map_imap (λ p n, Some (if decide (p ∈ l) then reset_node p n else n)) σ.

(** The part of the store that holds the nodes listed in [l]. *)
Definition only (l : list ptr) (σ : gmap ptr Node) : gmap ptr Node :=
  filter (λ kv, kv.1 ∈ l) σ.

Definition others (l : list ptr) (σ : gmap ptr Node) : gmap ptr Node :=
  filter (λ kv, kv.1 ∉ l) σ.

(** ** Single fields of a store *)

(** The numeric field [f], the pointer field [g] and the child vector of
    the node at [p], when there is one. *)
Definition fq (σ : gmap ptr Node) (p : ptr) (f : qfield) : option Q :=
  getq f <$> σ !! p.

Definition fp (σ : gmap ptr Node) (p : ptr) (g : pfield)
  : option (option ptr) :=
  getp g <$> σ !! p.

Definition fk (σ : gmap ptr Node) (p : ptr) : option (list ptr) :=
  children <$> σ !! p.

(** Two stores have the same nodes with the same child vectors, and every
    node has kept the numeric fields listed in [qs] and the pointer fields
    listed in [ps]. *)
Definition same_fields (qs : list qfield) (ps : list pfield)
    (σ σ' : gmap ptr Node) : Prop :=
  ∀ p, match σ !! p, σ' !! p with
       | Some n, Some n' =>
           children n' = children n ∧
           (∀ g, g ∈ ps → getp g n' = getp g n) ∧
           (∀ f, f ∈ qs → getq f n' = getq f n)
       | None, None => True
       | _, _ => False
       end.

(** ** Where the second walk puts the nodes *)

(** Every node of the tree [T] has its [x] at its [prelim] plus the sum
    of the [mod] of the node itself and of its ancestors up to the root of
    [T], plus [modsum], the sum handed to the root. *)
#[local] Unset Elimination Schemes.
Inductive placed (σ : gmap ptr Node) : Q → tree → Prop :=
| placed_node modsum r sub n :
    σ !! r = Some n → (x n == prelim n + (modsum + mod_ n))%Q →
    Forall (placed σ (modsum + mod_ n)%Q) sub →
    placed σ modsum (Tr r sub).
#[local] Set Elimination Schemes.

(** What a walk that sets [x] has to do on the tree [T]: change no node
    outside [T], write the [x] of the root and nothing else of it, and
    leave all of [T] placed. *)
Definition places (walk : ptr → Q → M unit) (T : tree) : Prop :=
  ∀ par modsum s s' n,
    tree_at (heap s) par T → heap s !! root_of T = Some n →
    walk (root_of T) modsum s = Ok (tt, s') →
    (∀ p, p ∉ nodes T → heap s' !! p = heap s !! p) ∧
    heap s' !! root_of T = Some (setq Fx (prelim n + (modsum + mod_ n))%Q n) ∧
    placed (heap s') modsum T.

(** The state in which the first walk from [t] leaves the fresh store [σ]
    (the start state itself where the walk fails). *)
Definition after_firstwalk (fuel : nat) (t : ptr) (σ : gmap ptr Node)
  : state :=
  match firstwalk fuel t (init σ) with
  | Ok (_, s) => s
  | Err _ => init σ
  end.

(** * Properties *)

(** ** Comparisons *)

Lemma Qleb_le a b : Qleb a b = true ↔ (a <= b)%Q.
Proof. apply Qle_bool_iff. Qed.

Lemma Qleb_gt a b : Qleb a b = false ↔ (b < a)%Q.
Proof.
  unfold Qleb. split.
  - intros E. apply Qnot_le_lt. intros L. apply Qle_bool_iff in L. congruence.
  - intros L. destruct (Qle_bool a b) eqn:E; [|done].
    apply Qle_bool_iff in E. exfalso. eapply Qlt_not_le; eauto.
Qed.

Lemma Qltb_lt a b : Qltb a b = true ↔ (a < b)%Q.
Proof.
  unfold Qltb. rewrite negb_true_iff. apply Qleb_gt.
Qed.

Lemma Qltb_ge a b : Qltb a b = false ↔ (b <= a)%Q.
Proof.
  unfold Qltb. rewrite negb_false_iff. apply Qleb_le.
Qed.

(** ** The skip list *)

Lemma dropIYL_split miny l :
  ∃ pre, l = pre ++ dropIYL miny l ∧ Forall (λ e, (lowY e <= miny)%Q) pre.
Proof.
  induction l as [|e l IH]; simpl.
  - exists []. by split.
  - destruct (Qleb (lowY e) miny) eqn:E.
    + destruct IH as (pre & Hl & Hpre). exists (e :: pre). split.
      * simpl. by rewrite <- Hl.
      * constructor; [by apply Qleb_le | done].
    + exists []. by split.
Qed.

Lemma dropIYL_head miny l e l' :
  dropIYL miny l = e :: l' → (miny < lowY e)%Q.
Proof.
  induction l as [|a l IH]; simpl; [done|].
  destruct (Qleb (lowY a) miny) eqn:E; [done|].
  intros [= -> ->]. by apply Qleb_gt.
Qed.

Lemma increasing_app_r l1 l2 : increasing (l1 ++ l2) → increasing l2.
Proof.
  induction l1 as [|a l1 IH]; simpl; [done|].
  intros H. inversion H; subst. auto.
Qed.

Lemma increasing_above miny l :
  increasing l → (∀ e l', l = e :: l' → (miny < lowY e)%Q) →
  Forall (λ e, (miny < lowY e)%Q) l.
Proof.
  intros Hs Hh. destruct l as [|e l']; [constructor|].
  specialize (Hh e l' eq_refl). inversion Hs as [|a b Hs' Hall]; subst.
  constructor; [done|].
  eapply Forall_impl; [exact Hall|]. simpl. intros b Hb.
  eapply Qlt_trans; eauto.
Qed.

(** C3 as stated fails on the code: entered into the one-entry list
    [(2, 0)], the pair [(1, 1)] drops nothing, although the entry's [lowY]
    is greater than the new value, and the list that results grows from
    the head on instead of falling. *)
Lemma updateIYL_keeps_greater_entry :
  updateIYL 1 1 [mkIYL 2 0] = [mkIYL 1 1; mkIYL 2 0] ∧
  updateIYL 1 1 [mkIYL 2 0] ≠ spec_insert 1 1 [mkIYL 2 0] ∧
  ¬ decreasing (updateIYL 1 1 [mkIYL 2 0]).
Proof.
  split; [reflexivity|]. split; [discriminate|].
  intros H. unfold updateIYL in H. simpl in H.
  inversion H as [|a l Hs Hall]; subst.
  inversion Hall as [|b l' Hlt _]; subst.
  simpl in Hlt. revert Hlt. apply Qle_not_lt. discriminate.
Qed.

(** C3 (amended): [updateIYL] drops the head entries whose [lowY] is less
    than or equal to the new value (the longest such prefix), keeps the
    rest, whose [lowY] are all greater, and prepends the new entry; on a
    list whose [lowY] grow strictly from the head on, the result again
    grows strictly from the head on. *)
Theorem updateIYL_increasing (miny : Q) (i : Z) (l : list IYL) :
  increasing l →
  ∃ pre rest,
    l = pre ++ rest ∧
    Forall (λ e, (lowY e <= miny)%Q) pre ∧
    Forall (λ e, (miny < lowY e)%Q) rest ∧
    updateIYL miny i l = mkIYL miny i :: rest ∧
    increasing (updateIYL miny i l).
Proof.
  intros Hs.
  destruct (dropIYL_split miny l) as (pre & Hl & Hpre).
  assert (Hrest : increasing (dropIYL miny l)).
  { apply (increasing_app_r pre). by rewrite <- Hl. }
  assert (Habove : Forall (λ e, (miny < lowY e)%Q) (dropIYL miny l)).
  { apply increasing_above; [done|]. intros e l'. apply dropIYL_head. }
  exists pre, (dropIYL miny l). repeat split; try done.
  unfold updateIYL. constructor; done.
Qed.

Lemma updateIYL_increasing_witness :
  increasing [mkIYL 1 1; mkIYL 2 0] ∧
  ∃ pre rest,
    [mkIYL 1 1; mkIYL 2 0] = pre ++ rest ∧
    Forall (λ e, (lowY e <= 3 # 2)%Q) pre ∧
    Forall (λ e, (3 # 2 < lowY e)%Q) rest ∧
    updateIYL (3 # 2) 2 [mkIYL 1 1; mkIYL 2 0] = mkIYL (3 # 2) 2 :: rest ∧
    increasing (updateIYL (3 # 2) 2 [mkIYL 1 1; mkIYL 2 0]).
Proof.
  assert (H : increasing [mkIYL 1 1; mkIYL 2 0]).
  { repeat constructor. }
  split; [exact H|]. exact (updateIYL_increasing (3 # 2) 2 _ H).
Defined.

(** ** Fields *)

Lemma getq_setq f g v n :
  getq f (setq g v n) = if decide (g = f) then v else getq f n.
Proof. by destruct f, g. Qed.

Lemma getp_setq f g v n : getp f (setq g v n) = getp f n.
Proof. by destruct f. Qed.

Lemma children_setq g v n : children (setq g v n) = children n.
Proof. done. Qed.

Lemma getp_setp f g v n :
  getp f (setp g v n) = if decide (g = f) then v else getp f n.
Proof. by destruct f, g. Qed.

Lemma getq_setp f g v n : getq f (setp g v n) = getq f n.
Proof. by destruct f. Qed.

Lemma children_setp g v n : children (setp g v n) = children n.
Proof. done. Qed.

Lemma norm_setq_val f v n : is_geom f = false → norm (setq f v n) = norm n.
Proof. by destruct f. Qed.

Lemma norm_setq_geom f v n :
  is_geom f = true → norm (setq f v n) = setq f v (norm n).
Proof. by destruct f. Qed.

Lemma norm_setp f v n : norm (setp f v n) = setp f v (norm n).
Proof. by destruct f. Qed.

Lemma getq_norm f n : is_geom f = true → getq f (norm n) = getq f n.
Proof. by destruct f. Qed.

Lemma getp_norm f n : getp f (norm n) = getp f n.
Proof. by destruct f. Qed.

Lemma skel_lookup σ p : skel σ !! p = norm <$> σ !! p.
Proof. unfold skel. by rewrite lookup_fmap. Qed.

Lemma skel_lookup_Some σ p n :
  skel σ !! p = Some n → ∃ n0, σ !! p = Some n0 ∧ n = norm n0.
Proof.
  rewrite skel_lookup. destruct (σ !! p) as [n0|]; [|done].
  intros [= <-]. eauto.
Qed.

Lemma skel_insert σ p n : skel (<[p := n]> σ) = <[p := norm n]> (skel σ).
Proof. unfold skel. by rewrite fmap_insert. Qed.

(** ** Rules of the program logic *)

Lemma awp_ret {A} (a : A) Φ κ tr : Φ a κ tr → awp (ret a) Φ κ tr.
Proof. intros H s <- <-. by exists a, s. Qed.

Lemma awp_bind {A B} (m : M A) (k : A → M B) Φ κ tr :
  awp m (λ a κ' tr', awp (k a) Φ κ' tr') κ tr → awp (bind m k) Φ κ tr.
Proof.
  intros H s Hκ Htr. destruct (H s Hκ Htr) as (a & s1 & Hm & Hk).
  destruct (Hk s1 eq_refl eq_refl) as (b & s2 & Hk2 & HΦ).
  exists b, s2. split; [|done]. unfold bind. by rewrite Hm.
Qed.

Lemma awp_wand {A} (m : M A) Ψ Φ κ tr :
  awp m Ψ κ tr → (∀ a κ' tr', Ψ a κ' tr' → Φ a κ' tr') → awp m Φ κ tr.
Proof.
  intros H HΦ s Hκ Htr. destruct (H s Hκ Htr) as (a & s1 & Hm & HΨ).
  exists a, s1. eauto.
Qed.

Lemma awp_loadq f p n Φ κ tr :
  κ !! p = Some n →
  (∀ v, (is_geom f = true → v = getq f n) → Φ v κ (RdQ p f :: tr)) →
  awp (loadq f p) Φ κ tr.
Proof.
  intros Hp HΦ s <- <-. apply skel_lookup_Some in Hp as (n0 & Hp & ->).
  unfold loadq. rewrite Hp. eexists _, _. split; [done|]. simpl.
  apply HΦ. intros Hg. by rewrite getq_norm.
Qed.

Lemma awp_storeq_val f p v n Φ κ tr :
  κ !! p = Some n → is_geom f = false →
  Φ tt κ (WrQ p f :: tr) → awp (storeq f p v) Φ κ tr.
Proof.
  intros Hp Hf HΦ s <- <-. pose proof Hp as Hp'.
  apply skel_lookup_Some in Hp as (n0 & Hp & ->).
  unfold storeq. rewrite Hp. eexists _, _. split; [done|]. simpl.
  rewrite skel_insert, norm_setq_val by done. by rewrite insert_id.
Qed.

Lemma awp_storeq_geom f p v n Φ κ tr :
  κ !! p = Some n → is_geom f = true →
  Φ tt (<[p := setq f v n]> κ) (WrQ p f :: tr) → awp (storeq f p v) Φ κ tr.
Proof.
  intros Hp Hf HΦ s <- <-.
  apply skel_lookup_Some in Hp as (n0 & Hp & ->).
  unfold storeq. rewrite Hp. eexists _, _. split; [done|]. simpl.
  by rewrite skel_insert, norm_setq_geom.
Qed.

Lemma awp_loadp f p n Φ κ tr :
  κ !! p = Some n → Φ (getp f n) κ (RdP p f :: tr) → awp (loadp f p) Φ κ tr.
Proof.
  intros Hp HΦ s <- <-. apply skel_lookup_Some in Hp as (n0 & Hp & ->).
  unfold loadp. rewrite Hp. eexists _, _. split; [done|]. simpl.
  by rewrite <- getp_norm.
Qed.

Lemma awp_storep f p v n Φ κ tr :
  κ !! p = Some n →
  Φ tt (<[p := setp f v n]> κ) (WrP p f :: tr) → awp (storep f p v) Φ κ tr.
Proof.
  intros Hp HΦ s <- <-. apply skel_lookup_Some in Hp as (n0 & Hp & ->).
  unfold storep. rewrite Hp. eexists _, _. split; [done|]. simpl.
  by rewrite skel_insert, norm_setp.
Qed.

Lemma awp_kids p n Φ κ tr :
  κ !! p = Some n → Φ (children n) κ (RdC p :: tr) → awp (kids p) Φ κ tr.
Proof.
  intros Hp HΦ s <- <-. apply skel_lookup_Some in Hp as (n0 & Hp & ->).
  unfold kids. rewrite Hp. eexists _, _. split; done.
Qed.

Lemma awp_nchildren p n Φ κ tr :
  κ !! p = Some n → Φ (Z.of_nat (length (children n))) κ (RdC p :: tr) →
  awp (nchildren p) Φ κ tr.
Proof.
  intros Hp HΦ. unfold nchildren. apply awp_bind.
  eapply awp_kids; [done|]. by apply awp_ret.
Qed.

Lemma awp_child p i n c Φ κ tr :
  κ !! p = Some n → 0 ≤ i → children n !! Z.to_nat i = Some c →
  Φ c κ (RdC p :: tr) → awp (child p i) Φ κ tr.
Proof.
  intros Hp Hi Hc HΦ. unfold child. apply awp_bind.
  eapply awp_kids; [done|]. rewrite decide_True by done. rewrite Hc.
  by apply awp_ret.
Qed.

Lemma awp_deref q Φ κ tr : Φ q κ tr → awp (deref (Some q)) Φ κ tr.
Proof. apply awp_ret. Qed.

(** ** Traces *)

Lemma calm_mono (Y Y' : ptr → Prop) e :
  (∀ n, Y n → Y' n) → calm Y e → calm Y' e.
Proof. intros HY. destruct e as [n []| | | | ]; simpl; auto. Qed.

Lemma ext_mono f (Y Y' : ptr → Prop) W tr tr' :
  (∀ n, Y n → Y' n) → ext f Y W tr tr' → ext f Y' W tr tr'.
Proof.
  intros HY. induction 1 as [tr|W tr tr' e Hx IH Hc|W tr tr' n Hx IH].
  - constructor.
  - apply ext_calm; [done|]. eapply calm_mono; [|done]. simpl.
    intros m [?|?]; [left; auto | by right].
  - by apply ext_write.
Qed.

Lemma ext_trans f (Y Y' : ptr → Prop) W1 W2 tr tr1 tr2 :
  ext f Y W1 tr tr1 → ext f Y' W2 tr1 tr2 →
  (∀ n, Y' n → Y n ∨ (f = Fy ∧ n ∈ W1)) →
  ext f Y (W2 ++ W1) tr tr2.
Proof.
  intros H1 H2 HY.
  induction H2 as [tr1|W2 tr1 tr2 e Hx IH Hc|W2 tr1 tr2 n Hx IH]; simpl.
  - done.
  - apply ext_calm; [by apply IH|]. eapply calm_mono; [|done]. simpl.
    intros n [Hn|[-> Hn]].
    + destruct (HY n Hn) as [?|[? ?]]; [by left|].
      right. split; [done|]. apply elem_of_app. by right.
    + right. split; [done|]. apply elem_of_app. by left.
  - apply ext_write. by apply IH.
Qed.

(** A continuation that writes no output field. *)
Lemma ext_quiet f (Y Y' : ptr → Prop) W tr tr1 tr2 :
  ext f Y' [] tr1 tr2 → (∀ n, Y' n → Y n ∨ (f = Fy ∧ n ∈ W)) →
  ext f Y W tr tr1 → ext f Y W tr tr2.
Proof. intros H2 HY H1. exact (ext_trans f Y Y' W [] tr tr1 tr2 H1 H2 HY). Qed.

Lemma ext_swap f g (Y : ptr → Prop) tr tr' :
  ext f Y [] tr tr' → ext g Y [] tr tr'.
Proof.
  intros H. remember [] as W eqn:HW.
  induction H as [tr|W tr tr' e Hx IH Hc|W tr tr' n Hx IH]; subst.
  - constructor.
  - apply ext_calm; [by apply IH|]. eapply calm_mono; [|done].
    simpl. intros n [?|[_ Hn]]; [by left|]. by apply elem_of_nil in Hn.
  - done.
Qed.

Lemma nwr_calm (Y : ptr → Prop) e f n tr :
  calm Y e → f = Fx ∨ f = Fy → nwr f n (e :: tr) = nwr f n tr.
Proof.
  intros Hc Hf. simpl. rewrite decide_False; [done|].
  intros ->. destruct Hf as [-> | ->]; done.
Qed.

Lemma ext_nwr_same f g (Y : ptr → Prop) W tr tr' n :
  ext f Y W tr tr' → g = Fx ∨ g = Fy → g ≠ f → nwr g n tr' = nwr g n tr.
Proof.
  intros H Hg Hne. induction H as [tr|W tr tr' e Hx IH Hc|W tr tr' m Hx IH].
  - done.
  - by erewrite nwr_calm.
  - simpl. rewrite decide_False; [done|]. congruence.
Qed.

Lemma ext_nwr f (Y : ptr → Prop) W tr tr' n :
  ext f Y W tr tr' → f = Fx ∨ f = Fy →
  nwr f n tr' = (nwr f n tr + length (filter (λ m, m = n) W))%nat.
Proof.
  intros H Hf. induction H as [tr|W tr tr' e Hx IH Hc|W tr tr' m Hx IH].
  - simpl. lia.
  - by erewrite nwr_calm.
  - simpl. rewrite filter_cons. destruct (decide (m = n)) as [->|Hne].
    + rewrite decide_True by done. simpl. lia.
    + rewrite decide_False by congruence. simpl. lia.
Qed.

Lemma ext_rsafe f (Y : ptr → Prop) W tr tr' :
  ext f Y W tr tr' → f = Fx ∨ f = Fy →
  (∀ n, Y n → (0 < nwr Fy n tr)%nat) → rsafe tr → rsafe tr'.
Proof.
  intros H Hf HY Hs. induction H as [tr|W tr tr' e H IH Hc|W tr tr' m Hx IH].
  - done.
  - simpl. split; [|by apply IH].
    destruct e as [n g|n g|n g|n g|n]; try done.
    destruct g; try done. simpl in Hc. destruct Hc as [Hn|[-> Hn]].
    + specialize (HY n Hn). destruct Hf as [-> | ->].
      * erewrite ext_nwr_same; [done|done|auto|done].
      * erewrite ext_nwr; [|done|auto]. lia.
    + erewrite ext_nwr; [|done|auto].
      assert (n ∈ filter (λ m, m = n) W) as Hin by (by apply list_elem_of_filter).
      destruct (filter (λ m, m = n) W); [by apply elem_of_nil in Hin|].
      simpl. lia.
  - simpl. split; [|by apply IH]. done.
Qed.

(** ** The small functions over a skeleton *)

Ltac awp_load :=
  apply awp_bind; eapply awp_loadq; [eassumption|]; intros ? ?; cbv beta.
Ltac awp_store :=
  first [ apply awp_bind | idtac ];
  eapply awp_storeq_val; [eassumption|reflexivity|]; cbv beta.
Ltac awp_child :=
  apply awp_bind;
  eapply awp_child;
    [eassumption|cbn [children setp setq]; lia
    |cbn [children setp setq]; eassumption|];
  cbv beta.
Ltac awp_size :=
  apply awp_bind; eapply awp_nchildren; [eassumption|];
  cbv beta; cbn [children setp setq].

Lemma kids_in_lookup κ n i :
  kids_in κ n → 0 ≤ i < Z.of_nat (length (children n)) →
  ∃ c nc, children n !! Z.to_nat i = Some c ∧ κ !! c = Some nc.
Proof.
  intros Hk Hi.
  destruct (lookup_lt_is_Some_2 (children n) (Z.to_nat i)) as [c Hc]; [lia|].
  destruct (Hk c) as [nc Hnc]; [by eapply list_elem_of_lookup_2|]. eauto.
Qed.

Lemma awp_bottom p n Φ κ tr :
  κ !! p = Some n →
  Φ (bot n) κ (RdQ p Fh :: RdQ p Fy :: tr) → awp (bottom p) Φ κ tr.
Proof.
  intros Hp HΦ. unfold bottom.
  awp_load. awp_load. apply awp_ret.
  rewrite H, H0 by done. exact HΦ.
Qed.

Lemma nextl_nil n : children n = [] → nextl n = tl n.
Proof. unfold nextl. by intros ->. Qed.

Lemma nextr_nil n : children n = [] → nextr n = tr n.
Proof. unfold nextr. by intros ->. Qed.

Lemma nextl_first n : children n ≠ [] → nextl n = children n !! O.
Proof. unfold nextl. by destruct (children n). Qed.

Lemma nextr_last n :
  children n ≠ [] → nextr n = children n !! pred (length (children n)).
Proof.
  unfold nextr. destruct (children n) eqn:E; [done|]. intros _.
  by rewrite last_lookup.
Qed.

Lemma length_zero_iff {A} (l : list A) : Z.of_nat (length l) = 0 ↔ l = [].
Proof. destruct l; simpl; split; try done; lia. Qed.

Lemma awp_next_left_contour p n (Y : ptr → Prop) Φ κ tr :
  κ !! p = Some n →
  (∀ tr', ext Fy Y [] tr tr' → Φ (nextl n) κ tr') →
  awp (next_left_contour p) Φ κ tr.
Proof.
  intros Hp HΦ. unfold next_left_contour. awp_size.
  destruct (decide (Z.of_nat (length (children n)) = 0)) as [E|E].
  - apply length_zero_iff in E. rewrite nextl_nil in HΦ by done.
    eapply awp_loadp; [done|]. apply HΦ. repeat (apply ext_calm || apply ext_refl); done.
  - assert (children n ≠ []) as Hne by (by rewrite <- length_zero_iff).
    rewrite nextl_first in HΦ by done.
    destruct (children n !! O) as [c|] eqn:Hc.
    2:{ apply lookup_ge_None in Hc. lia. }
    awp_child. apply awp_ret. apply HΦ.
    repeat (apply ext_calm || apply ext_refl); done.
Qed.

Lemma awp_next_right_contour p n (Y : ptr → Prop) Φ κ tr :
  κ !! p = Some n →
  (∀ tr', ext Fy Y [] tr tr' → Φ (nextr n) κ tr') →
  awp (next_right_contour p) Φ κ tr.
Proof.
  intros Hp HΦ. unfold next_right_contour. awp_size.
  destruct (decide (Z.of_nat (length (children n)) = 0)) as [E|E].
  - apply length_zero_iff in E. rewrite nextr_nil in HΦ by done.
    eapply awp_loadp; [done|]. apply HΦ. repeat (apply ext_calm || apply ext_refl); done.
  - assert (children n ≠ []) as Hne by (by rewrite <- length_zero_iff).
    rewrite nextr_last in HΦ by done.
    destruct (children n !! pred (length (children n))) as [c|] eqn:Hc.
    2:{ apply lookup_ge_None in Hc. lia. }
    awp_size.
    replace (Z.to_nat (Z.of_nat (length (children n)) - 1))
      with (pred (length (children n))) in * by lia.
    apply awp_bind. eapply awp_child; [done|lia| |].
    { replace (Z.to_nat (Z.of_nat (length (children n)) - 1))
        with (pred (length (children n))) by lia. done. }
    apply awp_ret. apply HΦ.
    repeat (apply ext_calm || apply ext_refl); done.
Qed.

Ltac ext_tac :=
  repeat first
    [ eassumption
    | apply ext_refl
    | apply ext_calm; [ | solve [simpl; auto] ]
    | match goal with
      | H : ext _ _ [] ?a ?b |- ext _ _ _ _ ?b =>
          eapply ext_quiet; [ exact H | solve [simpl; auto] | ]
      end ].

Lemma awp_advance_cursor sr n (Y : ptr → Prop) cursor Φ κ tr :
  κ !! sr = Some n → Y sr →
  (∀ c' tr', ext Fy Y [] tr tr' → c' `suffix_of` cursor → Φ c' κ tr') →
  awp (advance_cursor sr cursor) Φ κ tr.
Proof.
  intros Hsr HY. revert tr Φ.
  induction cursor as [|e nxt IH]; intros tr Φ HΦ; simpl.
  - apply awp_ret. apply HΦ; [ext_tac|done].
  - apply awp_bind. eapply awp_bottom; [done|].
    destruct (Qltb (lowY e) (bot n)).
    + apply IH. intros c' tr' Hext Hsuf. apply HΦ; [ext_tac|].
      by apply suffix_cons_r.
    + apply awp_ret. apply HΦ; [ext_tac|done].
Qed.

Lemma awp_distribute_extra t nt i si dist (Y : ptr → Prop) Φ κ tr :
  κ !! t = Some nt → kids_in κ nt →
  0 ≤ si < i → i < Z.of_nat (length (children nt)) →
  (∀ tr', ext Fy Y [] tr tr' → Φ tt κ tr') →
  awp (distribute_extra t i si dist) Φ κ tr.
Proof.
  intros Ht Hk Hsi Hi HΦ. unfold distribute_extra.
  destruct (decide (si ≠ i - 1)) as [Hne|_].
  - destruct (kids_in_lookup κ nt (si + 1) Hk) as (c1 & n1 & Hc1 & Hn1); [lia|].
    destruct (kids_in_lookup κ nt i Hk) as (ci & ni & Hci & Hni); [lia|].
    awp_child. awp_load. awp_store.
    awp_child. awp_load. awp_store.
    awp_child. awp_load. awp_store.
    apply HΦ. ext_tac.
  - apply awp_ret. apply HΦ. ext_tac.
Qed.

Lemma awp_move_subtree t nt i si dist (Y : ptr → Prop) Φ κ tr :
  κ !! t = Some nt → kids_in κ nt →
  0 ≤ si < i → i < Z.of_nat (length (children nt)) →
  (∀ tr', ext Fy Y [] tr tr' → Φ tt κ tr') →
  awp (move_subtree t i si dist) Φ κ tr.
Proof.
  intros Ht Hk Hsi Hi HΦ. unfold move_subtree.
  destruct (kids_in_lookup κ nt i Hk) as (ci & ni & Hci & Hni); [lia|].
  awp_child. awp_load. awp_store.
  awp_child. awp_load. awp_store.
  awp_child. awp_load. awp_store.
  eapply (awp_distribute_extra _ _ _ _ _ Y); try done.
  intros tr' Hext. apply HΦ. ext_tac.
Qed.

Lemma awp_position_root t nt (Y : ptr → Prop) Φ κ tr :
  κ !! t = Some nt → kids_in κ nt → children nt ≠ [] →
  (∀ tr', ext Fy Y [] tr tr' → Φ tt κ tr') →
  awp (position_root t) Φ κ tr.
Proof.
  intros Ht Hk Hne HΦ. unfold position_root.
  assert (0 < Z.of_nat (length (children nt))) as Hlen.
  { destruct (children nt); [done|]. simpl. lia. }
  destruct (kids_in_lookup κ nt 0 Hk) as (c0 & n0 & Hc0 & Hn0); [lia|].
  destruct (kids_in_lookup κ nt (Z.of_nat (length (children nt)) - 1) Hk)
    as (cl & nl & Hcl & Hnl); [lia|].
  awp_child. awp_load. awp_child. awp_load.
  awp_size. awp_child. awp_load.
  awp_size. awp_child. awp_load.
  awp_size. awp_child. awp_load.
  awp_load. awp_store.
  apply HΦ. ext_tac.
Qed.

Lemma awp_separate_body t nt i sr ns cl nc mssr mscl cursor
    (Y : ptr → Prop) Φ κ tr :
  κ !! t = Some nt → kids_in κ nt →
  1 ≤ i < Z.of_nat (length (children nt)) →
  κ !! sr = Some ns → κ !! cl = Some nc → Y sr → Y cl →
  Forall (λ e, 0 ≤ index e < i) cursor →
  (∀ q, nextr ns = Some q → is_Some (κ !! q)) →
  (∀ q, nextl nc = Some q → is_Some (κ !! q)) →
  (∀ v' tr', ext Fy Y [] tr tr' →
     sv_sr v' = (if Qleb (bot ns) (bot nc) then nextr ns else Some sr) →
     sv_cl v' = (if Qleb (bot nc) (bot ns) then nextl nc else Some cl) →
     Forall (λ e, 0 ≤ index e < i) (sv_cursor v') →
     Φ v' κ tr') →
  awp (separate_body t i sr cl mssr mscl cursor) Φ κ tr.
Proof.
  intros Ht Hk Hi Hsr Hcl HYs HYc Hcur Hnr Hnl HΦ. unfold separate_body.
  apply awp_bind. eapply (awp_advance_cursor _ _ Y); [done..|].
  intros cur' tr1 Hext1 Hsuf. cbv beta.
  assert (Forall (λ e, 0 ≤ index e < i) cur') as Hcur'.
  { destruct Hsuf as [k ->]. by apply Forall_app in Hcur as [_ ?]. }
  awp_load. awp_load. awp_load.
  apply awp_bind.
  set (dist := ((mssr + v + v0 + H_SPACING) - (mscl + v1))%Q).
  assert (∀ Ψ : Q → gmap ptr Node → list event → Prop,
    (∀ m tr', ext Fy Y [] tr tr' → Ψ m κ tr') →
    awp (if Qltb 0 dist
         then move_subtree t i
                match cur' with [] => i - 1 | e :: _ => index e end dist;;
              ret (mscl + dist)%Q
         else ret mscl) Ψ κ
        (RdQ cl Fprelim :: RdQ sr Fw :: RdQ sr Fprelim :: tr1)) as Hmove.
  { intros Ψ HΨ. destruct (Qltb 0 dist).
    - apply awp_bind. eapply (awp_move_subtree _ _ _ _ _ Y); try done.
      + destruct cur' as [|e ?]; [lia|].
        apply Forall_cons in Hcur' as [? _]. lia.
      + lia.
      + intros tr' Hext. apply awp_ret. apply HΨ. ext_tac.
    - apply awp_ret. apply HΨ. ext_tac. }
  apply Hmove. clear Hmove. intros mscl' tr2 Hext2.
  apply awp_bind. eapply awp_bottom; [done|].
  apply awp_bind. eapply awp_bottom; [done|].
  apply awp_bind.
  assert (∀ Ψ : option ptr * Q → gmap ptr Node → list event → Prop,
    (∀ m tr', ext Fy Y [] tr tr' →
       Ψ (if Qleb (bot ns) (bot nc) then nextr ns else Some sr, m) κ tr') →
    awp (if Qleb (bot ns) (bot nc)
         then do nx <- next_right_contour sr;
              match nx with
              | Some s' => do m <- loadq Fmod s'; ret (Some s', (mssr + m)%Q)
              | None => ret (None, mssr)
              end
         else ret (Some sr, mssr)) Ψ κ
        (RdQ cl Fh :: RdQ cl Fy :: RdQ sr Fh :: RdQ sr Fy :: tr2)) as Hsr'.
  { intros Ψ HΨ. destruct (Qleb (bot ns) (bot nc)).
    - apply awp_bind. eapply (awp_next_right_contour _ _ Y); [done|].
      intros tr' Hext. destruct (nextr ns) as [s'|] eqn:Es.
      + destruct (Hnr s' eq_refl) as [ns' Hs']. awp_load.
        apply awp_ret. apply HΨ. ext_tac.
      + apply awp_ret. apply HΨ. ext_tac.
    - apply awp_ret. apply HΨ. ext_tac. }
  apply Hsr'. clear Hsr'. intros mssr' tr3 Hext3.
  apply awp_bind.
  assert (∀ Ψ : option ptr * Q → gmap ptr Node → list event → Prop,
    (∀ m tr', ext Fy Y [] tr tr' →
       Ψ (if Qleb (bot nc) (bot ns) then nextl nc else Some cl, m) κ tr') →
    awp (if Qleb (bot nc) (bot ns)
         then do nx <- next_left_contour cl;
              match nx with
              | Some c' => do m <- loadq Fmod c'; ret (Some c', (mscl' + m)%Q)
              | None => ret (None, mscl')
              end
         else ret (Some cl, mscl')) Ψ κ tr3) as Hcl'.
  { intros Ψ HΨ. destruct (Qleb (bot nc) (bot ns)).
    - apply awp_bind. eapply (awp_next_left_contour _ _ Y); [done|].
      intros tr' Hext. destruct (nextl nc) as [c'|] eqn:Ec.
      + destruct (Hnl c' eq_refl) as [nc' Hc']. awp_load.
        apply awp_ret. apply HΨ. ext_tac.
      + apply awp_ret. apply HΨ. ext_tac.
    - apply awp_ret. apply HΨ. ext_tac. }
  apply Hcl'. clear Hcl'. intros mscl'' tr4 Hext4.
  apply awp_ret. by apply HΦ.
Qed.

(** ** The contour loop *)

Lemma last_cons_cons {A} (a d : A) l : List.last (a :: l) d = List.last l a.
Proof.
  revert a d. induction l as [|b l IH]; intros a d; [done|].
  change (List.last (a :: b :: l) d) with (List.last (b :: l) d).
  by rewrite (IH b d), (IH b a).
Qed.

Lemma separate_loop_stop fuel t i v :
  sv_sr v = None ∨ sv_cl v = None → separate_loop fuel t i v = ret v.
Proof.
  intros H. destruct fuel; simpl;
    destruct (sv_sr v), (sv_cl v); try done; by destruct H.
Qed.

Lemma chain_head κ next S p l :
  chain κ next S p l → S p ∧ ∃ n, κ !! p = Some n.
Proof. destruct l; simpl; intros (? & n & ? & _); eauto. Qed.

Lemma botof_lookup κ p n : κ !! p = Some n → botof κ p = bot n.
Proof. unfold botof. by intros ->. Qed.

Lemma chain_next_in κ next S p l n q :
  chain κ next S p l → κ !! p = Some n → next n = Some q → is_Some (κ !! q).
Proof.
  destruct l as [|q' l]; simpl.
  - intros (_ & n' & Hn' & Hnx) Hn Hq. congruence.
  - intros (_ & n' & Hn' & Hnx & _ & Hch) Hn Hq.
    assert (q' = q) as -> by congruence.
    apply chain_head in Hch as [_ [nq ?]]. eauto.
Qed.

Lemma awp_separate_loop fuel : ∀ t nt i v sr cl Ls Lc (Ss Sc : ptr → Prop) κ tr Φ,
  κ !! t = Some nt → kids_in κ nt →
  1 ≤ i < Z.of_nat (length (children nt)) →
  sv_sr v = Some sr → sv_cl v = Some cl →
  chain κ nextr Ss sr Ls → chain κ nextl Sc cl Lc →
  Forall (λ e, 0 ≤ index e < i) (sv_cursor v) →
  (length Ls + length Lc < fuel)%nat →
  (∀ v' tr', ext Fy (λ p, Ss p ∨ Sc p) [] tr tr' →
     sep_done κ Ss Sc sr cl Ls Lc v' → Φ v' κ tr') →
  awp (separate_loop fuel t i v) Φ κ tr.
Proof.
  induction fuel as [|fuel IH];
    intros t nt i v sr cl Ls Lc Ss Sc κ tr Φ Ht Hk Hi Hsr Hcl Hcs Hcc Hcur Hfuel HΦ;
    [lia|].
  simpl. rewrite Hsr, Hcl.
  pose proof (chain_head _ _ _ _ _ Hcs) as [HSs [ns Hns]].
  pose proof (chain_head _ _ _ _ _ Hcc) as [HSc [nc Hnc]].
  apply awp_bind.
  eapply (awp_separate_body _ _ _ _ _ _ _ _ _ _ (λ p, Ss p ∨ Sc p));
    try done; [by left|by right|..].
  { intros q. by eapply chain_next_in. }
  { intros q. by eapply chain_next_in. }
  intros v' tr1 Hext1 Hsr' Hcl' Hcur'.
  assert (Hbs : botof κ sr = bot ns) by by apply botof_lookup.
  assert (Hbc : botof κ cl = bot nc) by by apply botof_lookup.
  destruct (Qleb (bot ns) (bot nc)) eqn:Esc;
    destruct (Qleb (bot nc) (bot ns)) eqn:Ecs.
  - (* equally low: both advance *)
    apply Qleb_le in Esc, Ecs.
    destruct Ls as [|q Ls]; destruct Lc as [|c Lc]; simpl in Hcs, Hcc.
    + destruct Hcs as (_ & ? & ? & Hnx1), Hcc as (_ & ? & ? & Hnx2).
      simplify_eq. rewrite Hnx1 in Hsr'. rewrite Hnx2 in Hcl'.
      rewrite separate_loop_stop by auto. apply awp_ret.
      apply HΦ; [done|]. unfold sep_done. rewrite Hsr', Hcl'. simpl.
      rewrite Hbs, Hbc. lra.
    + destruct Hcs as (_ & ? & ? & Hnx1), Hcc as (_ & ? & ? & Hnx2 & Hlt & Hch).
      simplify_eq. rewrite Hnx1 in Hsr'. rewrite Hnx2 in Hcl'.
      rewrite separate_loop_stop by auto. apply awp_ret.
      apply HΦ; [done|]. unfold sep_done. rewrite Hsr', Hcl'.
      exists Lc. split; [done|]. split; [by rewrite last_cons_cons|].
      simpl. rewrite Hbs. rewrite Hbc in Hlt. lra.
    + destruct Hcs as (_ & ? & ? & Hnx1 & Hlt & Hch), Hcc as (_ & ? & ? & Hnx2).
      simplify_eq. rewrite Hnx1 in Hsr'. rewrite Hnx2 in Hcl'.
      rewrite separate_loop_stop by auto. apply awp_ret.
      apply HΦ; [done|]. unfold sep_done. rewrite Hsr', Hcl'.
      exists Ls. split; [done|]. split; [by rewrite last_cons_cons|].
      simpl. rewrite Hbc. rewrite Hbs in Hlt. lra.
    + destruct Hcs as (_ & ? & ? & Hnx1 & Hlt1 & Hch1),
        Hcc as (_ & ? & ? & Hnx2 & Hlt2 & Hch2).
      simplify_eq. rewrite Hnx1 in Hsr'. rewrite Hnx2 in Hcl'.
      eapply (IH _ _ _ _ q c Ls Lc Ss Sc); try done.
      { simpl in Hfuel. lia. }
      intros v'' tr2 Hext2 Hdone. apply HΦ; [ext_tac|].
      unfold sep_done in *. by rewrite !last_cons_cons.
  - (* the left siblings end higher: only [sr] advances *)
    apply Qleb_le in Esc. apply Qleb_gt in Ecs.
    destruct Ls as [|q Ls]; simpl in Hcs.
    + destruct Hcs as (_ & ? & ? & Hnx1). simplify_eq.
      rewrite Hnx1 in Hsr'.
      rewrite separate_loop_stop by auto. apply awp_ret.
      apply HΦ; [done|]. unfold sep_done. rewrite Hsr', Hcl'.
      exists Lc. split; [done|]. split; [done|].
      simpl. rewrite Hbs, Hbc. lra.
    + destruct Hcs as (_ & ? & ? & Hnx1 & Hlt1 & Hch1). simplify_eq.
      rewrite Hnx1 in Hsr'.
      eapply (IH _ _ _ _ q cl Ls Lc Ss Sc); try done.
      { simpl in Hfuel. lia. }
      intros v'' tr2 Hext2 Hdone. apply HΦ; [ext_tac|].
      unfold sep_done in *. by rewrite !last_cons_cons.
  - (* the current subtree ends higher: only [cl] advances *)
    apply Qleb_le in Ecs. apply Qleb_gt in Esc.
    destruct Lc as [|c Lc]; simpl in Hcc.
    + destruct Hcc as (_ & ? & ? & Hnx2). simplify_eq.
      rewrite Hnx2 in Hcl'.
      rewrite separate_loop_stop by auto. apply awp_ret.
      apply HΦ; [done|]. unfold sep_done. rewrite Hsr', Hcl'.
      exists Ls. split; [done|]. split; [done|].
      simpl. rewrite Hbs, Hbc. lra.
    + destruct Hcc as (_ & ? & ? & Hnx2 & Hlt2 & Hch2). simplify_eq.
      rewrite Hnx2 in Hcl'.
      eapply (IH _ _ _ _ sr c Ls Lc Ss Sc); try done.
      { simpl in Hfuel. lia. }
      intros v'' tr2 Hext2 Hdone. apply HΦ; [ext_tac|].
      unfold sep_done in *. by rewrite !last_cons_cons.
  - apply Qleb_gt in Esc, Ecs. lra.
Qed.

(** ** Contours under updates *)

Lemma bot_setp f v n : bot (setp f v n) = bot n.
Proof. done. Qed.

Lemma nextl_setp f v n : f ≠ Ftl → nextl (setp f v n) = nextl n.
Proof. unfold nextl. simpl. destruct (children n); [|done]. by destruct f. Qed.

Lemma nextr_setp f v n : f ≠ Ftr → nextr (setp f v n) = nextr n.
Proof. unfold nextr. simpl. destruct (children n); [|done]. by destruct f. Qed.

Lemma nextl_None n : nextl n = None → children n = [] ∧ tl n = None.
Proof. unfold nextl. by destruct (children n). Qed.

Lemma nextr_None n : nextr n = None → children n = [] ∧ tr n = None.
Proof.
  unfold nextr. destruct (children n) as [|a l] eqn:E; [done|].
  rewrite last_lookup. intros Hn. apply lookup_ge_None in Hn. simpl in Hn. lia.
Qed.

Lemma nextl_set_tl v n : children n = [] → nextl (setp Ftl v n) = v.
Proof. unfold nextl. simpl. by intros ->. Qed.

Lemma nextr_set_tr v n : children n = [] → nextr (setp Ftr v n) = v.
Proof. unfold nextr. simpl. by intros ->. Qed.

Lemma chain_mono κ next (S S' : ptr → Prop) p l :
  (∀ q, S q → S' q) → chain κ next S p l → chain κ next S' p l.
Proof.
  intros HS. revert p. induction l as [|q l IH]; intros p; simpl.
  - intros (? & n & ? & ?). eauto 10.
  - intros (? & n & ? & ? & ? & ?). split; [auto|]. exists n. eauto 10.
Qed.

Lemma chain_last κ next S p l :
  chain κ next S p l →
  S (List.last l p) ∧ ∃ n, κ !! List.last l p = Some n ∧ next n = None.
Proof.
  revert p. induction l as [|q l IH]; intros p.
  - simpl. intros (? & n & ? & ?). eauto.
  - intros (? & n & ? & ? & ? & Hch). rewrite last_cons_cons. by apply IH.
Qed.

Lemma chain_equiv κ κ' next S p l :
  (∀ q n, S q → κ !! q = Some n →
     ∃ n', κ' !! q = Some n' ∧ next n' = next n ∧ bot n' = bot n) →
  chain κ next S p l → chain κ' next S p l.
Proof.
  intros HS. revert p. induction l as [|q l IH]; intros p; simpl.
  - intros (Hp & n & Hn & Hnx).
    destruct (HS p n Hp Hn) as (n' & Hn' & Hnx' & _).
    split; [done|]. exists n'. split; [done|]. congruence.
  - intros (Hp & n & Hn & Hnx & Hlt & Hch).
    destruct (HS p n Hp Hn) as (n' & Hn' & Hnx' & Hb').
    destruct (chain_head _ _ _ _ _ Hch) as (Hq & nq & Hnq).
    destruct (HS q nq Hq Hnq) as (nq' & Hnq' & _ & Hbq').
    split; [done|]. exists n'. split; [done|]. split; [congruence|].
    split; [|by apply IH].
    rewrite (botof_lookup _ _ _ Hn'), (botof_lookup _ _ _ Hnq'), Hb', Hbq'.
    by rewrite <- (botof_lookup _ _ _ Hn), <- (botof_lookup _ _ _ Hnq).
Qed.

Lemma chain_agree κ κ' next (S : ptr → Prop) p l :
  (∀ q, S q → κ' !! q = κ !! q) → chain κ next S p l → chain κ' next S p l.
Proof.
  intros HS. apply chain_equiv. intros q n Hq Hn. exists n.
  by rewrite HS.
Qed.

Lemma last_app_cons {A} (l lc : list A) (c d : A) :
  List.last (l ++ c :: lc) d = List.last lc c.
Proof.
  revert d. induction l as [|a l IH]; intros d; simpl app.
  - by rewrite last_cons_cons.
  - by rewrite last_cons_cons, IH.
Qed.

(** Hanging the contour from [c] on below the end of the contour from [p]. *)
Lemma chain_splice κ κ' next S p l c lc :
  chain κ next S p l →
  (∀ q n, S q → κ !! q = Some n →
     ∃ n', κ' !! q = Some n' ∧ bot n' = bot n ∧
           (next n ≠ None → next n' = next n)) →
  (∀ ne', κ' !! List.last l p = Some ne' → next ne' = Some c) →
  (botof κ' (List.last l p) < botof κ' c)%Q →
  chain κ' next S c lc →
  chain κ' next S p (l ++ c :: lc).
Proof.
  intros Hch HS. revert p Hch. induction l as [|q l IH]; intros p Hch He Hlt Hc.
  - simpl in *. destruct Hch as (Hp & n & Hn & Hnx).
    destruct (HS p n Hp Hn) as (n' & Hn' & _).
    split; [done|]. exists n'. eauto.
  - destruct Hch as (Hp & n & Hn & Hnx & Hlt' & Hch).
    rewrite last_cons_cons in He, Hlt.
    destruct (HS p n Hp Hn) as (n' & Hn' & Hb' & Hnx').
    destruct (chain_head _ _ _ _ _ Hch) as (Hq & nq & Hnq).
    destruct (HS q nq Hq Hnq) as (nq' & Hnq' & Hbq' & _).
    simpl. split; [done|]. exists n'. split; [done|].
    split; [rewrite Hnx'; congruence|].
    split; [|by apply IH].
    rewrite (botof_lookup _ _ _ Hn'), (botof_lookup _ _ _ Hnq'), Hb', Hbq'.
    by rewrite <- (botof_lookup _ _ _ Hn), <- (botof_lookup _ _ _ Hnq).
Qed.

(** ** The functions that move threads and extremes *)

Lemma insert_lookup_ex (κ : gmap ptr Node) q nq p :
  is_Some (κ !! p) → ∃ n, <[q := nq]> κ !! p = Some n.
Proof.
  intros [n Hn]. destruct (decide (q = p)) as [->|Hne].
  - exists nq. apply lookup_insert_eq.
  - exists n. by rewrite lookup_insert_ne.
Qed.

Ltac awp_loadp :=
  apply awp_bind; eapply awp_loadp; [eassumption|]; cbv beta.
Ltac awp_storep :=
  first [ apply awp_bind | idtac ];
  eapply awp_storep; [eassumption|]; cbv beta.

Lemma awp_set_left_thread t nt i cl mscl c0 n0 li nli ci nci ncl
    (Y : ptr → Prop) Φ κ tr :
  κ !! t = Some nt → children nt !! O = Some c0 →
  0 ≤ i → children nt !! Z.to_nat i = Some ci →
  κ !! c0 = Some n0 → el n0 = Some li → κ !! li = Some nli →
  κ !! cl = Some ncl → κ !! ci = Some nci →
  t ≠ li → t ≠ c0 →
  (∀ tr', ext Fy Y [] tr tr' → Φ tt (thread_left κ li cl c0 ci) tr') →
  awp (set_left_thread t i cl mscl) Φ κ tr.
Proof.
  intros Ht Hc0 Hi Hci Hn0 Hel Hli Hcl Hnci Htli Htc0 HΦ.
  unfold set_left_thread, thread_left in *. rewrite Hli in HΦ. simpl in HΦ.
  set (κ1 := <[li := setp Ftl (Some cl) nli]> κ) in *.
  assert (κ1 !! t = Some nt) as Ht1 by (unfold κ1; by rewrite lookup_insert_ne).
  destruct (insert_lookup_ex κ li (setp Ftl (Some cl) nli) cl) as [ncl1 Hcl1]; [eauto|].
  destruct (insert_lookup_ex κ li (setp Ftl (Some cl) nli) c0) as [n01 Hn01]; [eauto|].
  destruct (insert_lookup_ex κ li (setp Ftl (Some cl) nli) ci) as [nci1 Hnci1]; [eauto|].
  destruct (insert_lookup_ex κ li (setp Ftl (Some cl) nli) li) as [nli1 Hnli1]; [eauto|].
  fold κ1 in Hcl1, Hn01, Hnci1, Hnli1. rewrite Hn01, Hnci1 in HΦ.
  set (κ2 := <[c0 := setp Fel (el nci1) n01]> κ1) in *.
  assert (κ2 !! t = Some nt) as Ht2 by (unfold κ2; by rewrite lookup_insert_ne).
  destruct (insert_lookup_ex κ1 c0 (setp Fel (el nci1) n01) ci) as [nci2 Hnci2]; [eauto|].
  destruct (insert_lookup_ex κ1 c0 (setp Fel (el nci1) n01) c0) as [n02 Hn02]; [eauto|].
  fold κ2 in Hnci2, Hn02.
  awp_child. awp_loadp. simpl. rewrite Hel.
  apply awp_bind, awp_deref. awp_storep. fold κ1.
  awp_load. awp_child. awp_load. awp_load. awp_store. awp_load. awp_store.
  awp_child. awp_child. awp_loadp. awp_storep. simpl. fold κ2.
  awp_child. awp_child. awp_load. awp_store.
  apply HΦ. ext_tac.
Qed.

Lemma awp_set_right_thread t nt i sr mssr ci nci ri nri cp ncp nsr
    (Y : ptr → Prop) Φ κ tr :
  κ !! t = Some nt → 1 ≤ i →
  children nt !! Z.to_nat i = Some ci →
  children nt !! Z.to_nat (i - 1) = Some cp →
  κ !! ci = Some nci → er nci = Some ri → κ !! ri = Some nri →
  κ !! sr = Some nsr → κ !! cp = Some ncp →
  t ≠ ri → t ≠ ci →
  (∀ tr', ext Fy Y [] tr tr' → Φ tt (thread_right κ ri sr ci cp) tr') →
  awp (set_right_thread t i sr mssr) Φ κ tr.
Proof.
  intros Ht Hi Hci Hcp Hnci Her Hri Hsr Hncp Htri Htci HΦ.
  unfold set_right_thread, thread_right in *. rewrite Hri in HΦ. simpl in HΦ.
  set (κ1 := <[ri := setp Ftr (Some sr) nri]> κ) in *.
  assert (κ1 !! t = Some nt) as Ht1 by (unfold κ1; by rewrite lookup_insert_ne).
  destruct (insert_lookup_ex κ ri (setp Ftr (Some sr) nri) sr) as [nsr1 Hsr1]; [eauto|].
  destruct (insert_lookup_ex κ ri (setp Ftr (Some sr) nri) cp) as [ncp1 Hncp1]; [eauto|].
  destruct (insert_lookup_ex κ ri (setp Ftr (Some sr) nri) ci) as [nci1 Hnci1]; [eauto|].
  destruct (insert_lookup_ex κ ri (setp Ftr (Some sr) nri) ri) as [nri1 Hnri1]; [eauto|].
  fold κ1 in Hsr1, Hncp1, Hnci1, Hnri1. rewrite Hnci1, Hncp1 in HΦ.
  set (κ2 := <[ci := setp Fer (er ncp1) nci1]> κ1) in *.
  assert (κ2 !! t = Some nt) as Ht2 by (unfold κ2; by rewrite lookup_insert_ne).
  destruct (insert_lookup_ex κ1 ci (setp Fer (er ncp1) nci1) ci) as [nci2 Hnci2]; [eauto|].
  destruct (insert_lookup_ex κ1 ci (setp Fer (er ncp1) nci1) cp) as [ncp2 Hncp2]; [eauto|].
  fold κ2 in Hnci2, Hncp2.
  awp_child. awp_loadp. simpl. rewrite Her.
  apply awp_bind, awp_deref. awp_storep. fold κ1.
  awp_load. awp_child. awp_load. awp_load. awp_store. awp_load. awp_store.
  awp_child. awp_child. awp_loadp. awp_storep. simpl. fold κ2.
  awp_child. awp_child. awp_load. awp_store.
  apply HΦ. ext_tac.
Qed.

Lemma awp_set_extremes_leaf t nt (Y : ptr → Prop) Φ κ tr :
  κ !! t = Some nt → children nt = [] →
  (∀ tr', ext Fy Y [] tr tr' →
     Φ tt (with_extremes κ t (Some t) (Some t)) tr') →
  awp (set_extremes t) Φ κ tr.
Proof.
  intros Ht Hnil HΦ. unfold set_extremes, with_extremes in *.
  rewrite Ht in HΦ.
  awp_size. rewrite Hnil. simpl.
  awp_storep.
  set (κ1 := <[t := setp Fel (Some t) nt]> κ).
  assert (κ1 !! t = Some (setp Fel (Some t) nt)) as Ht1 by apply lookup_insert_eq.
  awp_storep. fold κ1.
  set (κ2 := <[t := setp Fer (Some t) (setp Fel (Some t) nt)]> κ1).
  assert (κ2 !! t = Some (setp Fer (Some t) (setp Fel (Some t) nt))) as Ht2
    by apply lookup_insert_eq.
  awp_store. awp_load. awp_store.
  unfold κ2, κ1. rewrite insert_insert_eq. apply HΦ. ext_tac.
Qed.

Lemma awp_set_extremes_inner t nt c0 n0 cl nl (Y : ptr → Prop) Φ κ tr :
  κ !! t = Some nt →
  children nt !! O = Some c0 →
  children nt !! pred (length (children nt)) = Some cl →
  κ !! c0 = Some n0 → κ !! cl = Some nl → t ≠ c0 → t ≠ cl →
  (∀ tr', ext Fy Y [] tr tr' →
     Φ tt (with_extremes κ t (el n0) (er nl)) tr') →
  awp (set_extremes t) Φ κ tr.
Proof.
  intros Ht Hc0 Hcl Hn0 Hnl Htc0 Htcl HΦ.
  unfold set_extremes, with_extremes in *. rewrite Ht in HΦ.
  assert (0 < Z.of_nat (length (children nt))) as Hlen.
  { apply lookup_lt_Some in Hc0. lia. }
  replace (pred (length (children nt)))
    with (Z.to_nat (Z.of_nat (length (children nt)) - 1)) in Hcl by lia.
  awp_size. rewrite decide_False by lia.
  awp_child. awp_loadp. awp_storep.
  set (κ1 := <[t := setp Fel (getp Fel n0) nt]> κ).
  assert (κ1 !! t = Some (setp Fel (getp Fel n0) nt)) as Ht1
    by apply lookup_insert_eq.
  assert (κ1 !! c0 = Some n0) as Hn01 by (unfold κ1; by rewrite lookup_insert_ne).
  assert (κ1 !! cl = Some nl) as Hnl1 by (unfold κ1; by rewrite lookup_insert_ne).
  awp_child. awp_load. awp_store.
  awp_size. awp_child. awp_loadp. awp_storep. fold κ1.
  set (κ2 := <[t := setp Fer (getp Fer nl) (setp Fel (getp Fel n0) nt)]> κ1).
  assert (κ2 !! t = Some (setp Fer (getp Fer nl) (setp Fel (getp Fel n0) nt)))
    as Ht2 by apply lookup_insert_eq.
  assert (κ2 !! cl = Some nl) as Hnl2 by (unfold κ2; by rewrite lookup_insert_ne).
  awp_size. awp_child. awp_load. awp_store.
  unfold κ2, κ1. rewrite insert_insert_eq. apply HΦ. ext_tac.
Qed.

(** ** Frames *)

Lemma same_geom_refl κ : same_geom κ κ.
Proof. intros p. by destruct (κ !! p). Qed.

Lemma same_geom_trans κ1 κ2 κ3 :
  same_geom κ1 κ2 → same_geom κ2 κ3 → same_geom κ1 κ3.
Proof.
  intros H1 H2 p. specialize (H1 p). specialize (H2 p).
  destruct (κ1 !! p), (κ2 !! p), (κ3 !! p); try done.
  destruct H1 as (?&?&?&?&?), H2 as (?&?&?&?&?). repeat split; congruence.
Qed.

Lemma same_frame_refl κ : same_frame κ κ.
Proof. intros p. by destruct (κ !! p). Qed.

Lemma same_frame_trans κ1 κ2 κ3 :
  same_frame κ1 κ2 → same_frame κ2 κ3 → same_frame κ1 κ3.
Proof.
  intros H1 H2 p. specialize (H1 p). specialize (H2 p).
  destruct (κ1 !! p), (κ2 !! p), (κ3 !! p); try done.
  destruct H1 as (?&?&?&?), H2 as (?&?&?&?). repeat split; congruence.
Qed.

Lemma same_geom_frame κ κ' : same_geom κ κ' → same_frame κ κ'.
Proof.
  intros H p. specialize (H p). destruct (κ !! p), (κ' !! p); try done.
  destruct H as (?&?&?&?&?). done.
Qed.

Lemma same_geom_setp κ p n f v :
  κ !! p = Some n → f ≠ Fparent → same_geom κ (<[p := setp f v n]> κ).
Proof.
  intros Hp Hf q. destruct (decide (p = q)) as [<-|Hne].
  - rewrite lookup_insert_eq, Hp. by destruct f.
  - rewrite lookup_insert_ne by done. by destruct (κ !! q).
Qed.

Lemma same_frame_sety κ p n v :
  κ !! p = Some n → same_frame κ (<[p := setq Fy v n]> κ).
Proof.
  intros Hp q. destruct (decide (p = q)) as [<-|Hne].
  - by rewrite lookup_insert_eq, Hp.
  - rewrite lookup_insert_ne by done. by destruct (κ !! q).
Qed.

Lemma same_geom_lookup κ κ' p n :
  same_geom κ κ' → κ !! p = Some n →
  ∃ n', κ' !! p = Some n' ∧ children n' = children n ∧ parent n' = parent n ∧
        w n' = w n ∧ h n' = h n ∧ y n' = y n.
Proof.
  intros H Hp. specialize (H p). rewrite Hp in H.
  destruct (κ' !! p) as [n'|]; [|done]. eauto.
Qed.

Lemma same_frame_lookup κ κ' p n :
  same_frame κ κ' → κ !! p = Some n →
  ∃ n', κ' !! p = Some n' ∧ children n' = children n ∧ parent n' = parent n ∧
        w n' = w n ∧ h n' = h n.
Proof.
  intros H Hp. specialize (H p). rewrite Hp in H.
  destruct (κ' !! p) as [n'|]; [|done]. eauto.
Qed.

Lemma same_geom_botof κ κ' p : same_geom κ κ' → botof κ' p = botof κ p.
Proof.
  intros H. specialize (H p). unfold botof, bot.
  destruct (κ !! p), (κ' !! p); try done.
  destruct H as (_&_&_&->&->). done.
Qed.

(** What [thread_left] does to a node. *)
Lemma thread_left_geom κ li cl c0 ci : same_geom κ (thread_left κ li cl c0 ci).
Proof.
  unfold thread_left. destruct (κ !! li) as [nli|] eqn:Hli;
    [|apply same_geom_refl]. simpl.
  set (κ1 := <[li := setp Ftl (Some cl) nli]> κ).
  assert (same_geom κ κ1) as H1 by (by apply same_geom_setp).
  destruct (κ1 !! c0) as [n0|] eqn:Hc0; [|done].
  destruct (κ1 !! ci) as [nci|] eqn:Hci; [|done].
  eapply same_geom_trans; [done|]. by apply same_geom_setp.
Qed.

Lemma thread_left_other κ li cl c0 ci p :
  p ≠ li → p ≠ c0 → thread_left κ li cl c0 ci !! p = κ !! p.
Proof.
  intros H1 H2. unfold thread_left.
  destruct (κ !! li) as [nli|] eqn:Hli; [|done]. simpl.
  destruct (_ !! c0) as [n0|] eqn:Hc0;
    [destruct (_ !! ci) as [nci|] eqn:Hci|];
    by rewrite ?lookup_insert_ne by done.
Qed.

Lemma thread_left_fields κ li cl c0 ci p n :
  κ !! p = Some n →
  ∃ n', thread_left κ li cl c0 ci !! p = Some n' ∧
        tr n' = tr n ∧ er n' = er n ∧
        (p ≠ li → tl n' = tl n) ∧ (p ≠ c0 → el n' = el n).
Proof.
  intros Hp. unfold thread_left.
  destruct (κ !! li) as [nli|] eqn:Hli; [|by exists n]. simpl.
  set (κ1 := <[li := setp Ftl (Some cl) nli]> κ).
  assert (∃ n1, κ1 !! p = Some n1 ∧ tr n1 = tr n ∧ er n1 = er n ∧
                el n1 = el n ∧ (p ≠ li → tl n1 = tl n)) as (n1 & Hn1 & ?&?&?&?).
  { unfold κ1. destruct (decide (li = p)) as [->|Hne].
    - rewrite lookup_insert_eq. eexists. split; [done|].
      assert (nli = n) as -> by congruence. done.
    - rewrite lookup_insert_ne by done. exists n. done. }
  destruct (κ1 !! c0) as [n0|] eqn:Hc0; [|by exists n1].
  destruct (κ1 !! ci) as [nci|] eqn:Hci; [|by exists n1].
  destruct (decide (c0 = p)) as [->|Hne].
  - rewrite lookup_insert_eq. eexists. split; [done|].
    assert (n0 = n1) as -> by congruence. simpl. repeat split; try done.
  - rewrite lookup_insert_ne by done. exists n1. repeat split; auto.
Qed.

Lemma thread_left_tl κ li cl c0 ci nli :
  κ !! li = Some nli →
  ∃ n', thread_left κ li cl c0 ci !! li = Some n' ∧ tl n' = Some cl.
Proof.
  intros Hli. unfold thread_left. rewrite Hli. simpl.
  set (κ1 := <[li := setp Ftl (Some cl) nli]> κ).
  assert (κ1 !! li = Some (setp Ftl (Some cl) nli)) as H1
    by apply lookup_insert_eq.
  destruct (κ1 !! c0) as [n0|] eqn:Hc0; [|eauto].
  destruct (κ1 !! ci) as [nci|] eqn:Hci; [|eauto].
  destruct (decide (c0 = li)) as [->|Hne].
  - rewrite lookup_insert_eq. eexists. split; [done|].
    assert (n0 = setp Ftl (Some cl) nli) as -> by congruence. done.
  - rewrite lookup_insert_ne by done. eauto.
Qed.

Lemma thread_left_el κ li cl c0 ci nli n0 nci :
  κ !! li = Some nli → κ !! c0 = Some n0 → κ !! ci = Some nci → ci ≠ li →
  ∃ n', thread_left κ li cl c0 ci !! c0 = Some n' ∧ el n' = el nci.
Proof.
  intros Hli Hc0 Hci Hne. unfold thread_left. rewrite Hli. simpl.
  destruct (insert_lookup_ex κ li (setp Ftl (Some cl) nli) c0) as [n01 Hn01];
    [eauto|].
  rewrite Hn01. rewrite lookup_insert_ne by done. rewrite Hci.
  rewrite lookup_insert_eq. eauto.
Qed.

(** What [thread_right] does to a node. *)
Lemma thread_right_geom κ ri sr ci cp : same_geom κ (thread_right κ ri sr ci cp).
Proof.
  unfold thread_right. destruct (κ !! ri) as [nri|] eqn:Hri;
    [|apply same_geom_refl]. simpl.
  set (κ1 := <[ri := setp Ftr (Some sr) nri]> κ).
  assert (same_geom κ κ1) as H1 by (by apply same_geom_setp).
  destruct (κ1 !! ci) as [nci|] eqn:Hci; [|done].
  destruct (κ1 !! cp) as [ncp|] eqn:Hcp; [|done].
  eapply same_geom_trans; [done|]. by apply same_geom_setp.
Qed.

Lemma thread_right_other κ ri sr ci cp p :
  p ≠ ri → p ≠ ci → thread_right κ ri sr ci cp !! p = κ !! p.
Proof.
  intros H1 H2. unfold thread_right.
  destruct (κ !! ri) as [nri|] eqn:Hri; [|done]. simpl.
  destruct (_ !! ci) as [nci|] eqn:Hci;
    [destruct (_ !! cp) as [ncp|] eqn:Hcp|];
    by rewrite ?lookup_insert_ne by done.
Qed.

Lemma thread_right_fields κ ri sr ci cp p n :
  κ !! p = Some n →
  ∃ n', thread_right κ ri sr ci cp !! p = Some n' ∧
        tl n' = tl n ∧ el n' = el n ∧
        (p ≠ ri → tr n' = tr n) ∧ (p ≠ ci → er n' = er n).
Proof.
  intros Hp. unfold thread_right.
  destruct (κ !! ri) as [nri|] eqn:Hri; [|by exists n]. simpl.
  set (κ1 := <[ri := setp Ftr (Some sr) nri]> κ).
  assert (∃ n1, κ1 !! p = Some n1 ∧ tl n1 = tl n ∧ el n1 = el n ∧
                er n1 = er n ∧ (p ≠ ri → tr n1 = tr n)) as (n1 & Hn1 & ?&?&?&?).
  { unfold κ1. destruct (decide (ri = p)) as [->|Hne].
    - rewrite lookup_insert_eq. eexists. split; [done|].
      assert (nri = n) as -> by congruence. done.
    - rewrite lookup_insert_ne by done. exists n. done. }
  destruct (κ1 !! ci) as [nci|] eqn:Hci; [|by exists n1].
  destruct (κ1 !! cp) as [ncp|] eqn:Hcp; [|by exists n1].
  destruct (decide (ci = p)) as [->|Hne].
  - rewrite lookup_insert_eq. eexists. split; [done|].
    assert (nci = n1) as -> by congruence. simpl. repeat split; try done.
  - rewrite lookup_insert_ne by done. exists n1. repeat split; auto.
Qed.

Lemma thread_right_tr κ ri sr ci cp nri :
  κ !! ri = Some nri →
  ∃ n', thread_right κ ri sr ci cp !! ri = Some n' ∧ tr n' = Some sr.
Proof.
  intros Hri. unfold thread_right. rewrite Hri. simpl.
  set (κ1 := <[ri := setp Ftr (Some sr) nri]> κ).
  assert (κ1 !! ri = Some (setp Ftr (Some sr) nri)) as H1
    by apply lookup_insert_eq.
  destruct (κ1 !! ci) as [nci|] eqn:Hci; [|eauto].
  destruct (κ1 !! cp) as [ncp|] eqn:Hcp; [|eauto].
  destruct (decide (ci = ri)) as [->|Hne].
  - rewrite lookup_insert_eq. eexists. split; [done|].
    assert (nci = setp Ftr (Some sr) nri) as -> by congruence. done.
  - rewrite lookup_insert_ne by done. eauto.
Qed.

Lemma thread_right_er κ ri sr ci cp nri nci ncp :
  κ !! ri = Some nri → κ !! ci = Some nci → κ !! cp = Some ncp → cp ≠ ri →
  ∃ n', thread_right κ ri sr ci cp !! ci = Some n' ∧ er n' = er ncp.
Proof.
  intros Hri Hci Hcp Hne. unfold thread_right. rewrite Hri. simpl.
  destruct (insert_lookup_ex κ ri (setp Ftr (Some sr) nri) ci) as [nci1 Hnci1];
    [eauto|].
  rewrite Hnci1. rewrite lookup_insert_ne by done. rewrite Hcp.
  rewrite lookup_insert_eq. eauto.
Qed.

(** ** Placing one more child *)

(** The current subtree is taller: its left contour is hung on below the
    left extreme of the left siblings. *)
Lemma forest_thread_left κ (SF Si : ptr → Prop) c0 ck ci Ll Lr Lli Lri
    n0 nci c Lc' :
  (∀ p, SF p → Si p → False) →
  κ !! c0 = Some n0 → κ !! ci = Some nci →
  chain κ nextl SF c0 Ll → el n0 = Some (List.last Ll c0) →
  (botof κ (List.last Ll c0) == botof κ (List.last Lr ck))%Q →
  chain κ nextl Si ci Lli → el nci = Some (List.last Lli ci) →
  chain κ nextr Si ci Lri → er nci = Some (List.last Lri ci) →
  (botof κ (List.last Lli ci) == botof κ (List.last Lri ci))%Q →
  chain κ nextl Si c Lc' → List.last Lc' c = List.last Lli ci →
  (botof κ (List.last Lr ck) < botof κ c)%Q →
  forest (thread_left κ (List.last Ll c0) c c0 ci) (λ p, SF p ∨ Si p) c0 ci.
Proof.
  intros Hdis Hn0 Hnci Hll Hel Hbal Hlli Heli Hlri Heri Hbali Hc Hlast Hlow.
  set (li := List.last Ll c0) in *.
  set (κ' := thread_left κ li c c0 ci).
  destruct (chain_last _ _ _ _ _ Hll) as (HSli & nli & Hnli & Hnxli).
  fold li in HSli, Hnli.
  destruct (chain_head _ _ _ _ _ Hll) as (HS0 & _).
  destruct (chain_head _ _ _ _ _ Hlli) as (HSi & _).
  assert (ci ≠ li) as Hcili by (intros ->; eauto).
  assert (ci ≠ c0) as Hci0 by (intros ->; eauto).
  assert (Hgeom : same_geom κ κ') by apply thread_left_geom.
  assert (Hsi : ∀ q, Si q → κ' !! q = κ !! q).
  { intros q Hq. apply thread_left_other; intros ->; eauto. }
  destruct (thread_left_el κ li c c0 ci nli n0 nci) as (n0' & Hn0' & Hel');
    [done..|].
  assert (κ' !! ci = Some nci) as Hnci' by (by rewrite Hsi).
  exists (Ll ++ c :: Lc'), Lri, n0', nci.
  split; [done|]. split; [done|].
  split; [|split; [|split; [|split]]].
  - eapply (chain_splice κ κ').
    + eapply chain_mono; [|exact Hll]. by left.
    + intros q n _ Hq.
      destruct (thread_left_fields κ li c c0 ci q n Hq)
        as (n' & Hq' & _ & _ & Htl & _).
      destruct (same_geom_lookup _ _ _ _ Hgeom Hq) as (n'' & Hq'' & Hch & _ & _ & Hh & Hy).
      assert (n'' = n') as -> by (unfold κ' in Hq''; congruence).
      exists n'. split; [done|]. split; [unfold bot; by rewrite Hh, Hy|].
      intros Hnx. destruct (decide (q = li)) as [->|Hne].
      * assert (n = nli) as -> by congruence. done.
      * unfold nextl. by rewrite Hch, Htl.
    + intros ne' Hne'. fold li in Hne'.
      destruct (thread_left_tl κ li c c0 ci nli Hnli) as (n' & Hn' & Htl).
      assert (n' = ne') as -> by (unfold κ' in Hne'; congruence).
      destruct (same_geom_lookup _ _ _ _ Hgeom Hnli) as (n'' & Hq'' & Hch & _).
      assert (n'' = ne') as -> by congruence.
      apply nextl_None in Hnxli as [Hnil _].
      unfold nextl. by rewrite Hch, Hnil.
    + fold li. rewrite !(same_geom_botof κ κ') by done. lra.
    + eapply chain_mono; [|eapply chain_agree; [|exact Hc]]; [by right|done].
  - rewrite Hel', last_app_cons, Hlast. done.
  - eapply chain_mono; [|eapply chain_agree; [|exact Hlri]]; [by right|done].
  - done.
  - rewrite last_app_cons, Hlast. rewrite !(same_geom_botof κ κ') by done.
    done.
Qed.

(** The left siblings are taller: their right contour is hung on below the
    right extreme of the current subtree. *)
Lemma forest_thread_right κ (SF Si : ptr → Prop) c0 ck ci Ll Lr Lli Lri
    n0 nk nci s Ls' :
  (∀ p, SF p → Si p → False) →
  κ !! c0 = Some n0 → κ !! ck = Some nk → κ !! ci = Some nci →
  chain κ nextl SF c0 Ll → el n0 = Some (List.last Ll c0) →
  chain κ nextr SF ck Lr → er nk = Some (List.last Lr ck) →
  (botof κ (List.last Ll c0) == botof κ (List.last Lr ck))%Q →
  chain κ nextl Si ci Lli →
  chain κ nextr Si ci Lri → er nci = Some (List.last Lri ci) →
  (botof κ (List.last Lli ci) == botof κ (List.last Lri ci))%Q →
  chain κ nextr SF s Ls' → List.last Ls' s = List.last Lr ck →
  (botof κ (List.last Lli ci) < botof κ s)%Q →
  forest (thread_right κ (List.last Lri ci) s ci ck) (λ p, SF p ∨ Si p) c0 ci.
Proof.
  intros Hdis Hn0 Hnk Hnci Hll Hel Hlr Her Hbal Hlli Hlri Heri Hbali
    Hs Hlast Hlow.
  set (ri := List.last Lri ci) in *.
  set (κ' := thread_right κ ri s ci ck).
  destruct (chain_last _ _ _ _ _ Hlri) as (HSri & nri & Hnri & Hnxri).
  fold ri in HSri, Hnri.
  destruct (chain_head _ _ _ _ _ Hll) as (HS0 & _).
  destruct (chain_head _ _ _ _ _ Hlr) as (HSk & _).
  destruct (chain_head _ _ _ _ _ Hlli) as (HSi & _).
  assert (ck ≠ ri) as Hckri by (intros ->; eauto).
  assert (c0 ≠ ri) as Hc0ri by (intros ->; eauto).
  assert (c0 ≠ ci) as Hc0i by (intros ->; eauto).
  assert (Hgeom : same_geom κ κ') by apply thread_right_geom.
  assert (Hsf : ∀ q, SF q → κ' !! q = κ !! q).
  { intros q Hq. apply thread_right_other; intros ->; eauto. }
  destruct (thread_right_er κ ri s ci ck nri nci nk) as (nci' & Hnci' & Her');
    [done..|].
  assert (κ' !! c0 = Some n0) as Hn0' by (by rewrite Hsf).
  exists Ll, (Lri ++ s :: Ls'), n0, nci'.
  split; [done|]. split; [done|].
  split; [|split; [|split; [|split]]].
  - eapply chain_mono; [|eapply chain_agree; [|exact Hll]]; [by left|done].
  - done.
  - eapply (chain_splice κ κ').
    + eapply chain_mono; [|exact Hlri]. by right.
    + intros q n _ Hq.
      destruct (thread_right_fields κ ri s ci ck q n Hq)
        as (n' & Hq' & _ & _ & Htr & _).
      destruct (same_geom_lookup _ _ _ _ Hgeom Hq) as (n'' & Hq'' & Hch & _ & _ & Hh & Hy).
      assert (n'' = n') as -> by (unfold κ' in Hq''; congruence).
      exists n'. split; [done|]. split; [unfold bot; by rewrite Hh, Hy|].
      intros Hnx. destruct (decide (q = ri)) as [->|Hne].
      * assert (n = nri) as -> by congruence. done.
      * unfold nextr. by rewrite Hch, Htr.
    + intros ne' Hne'. fold ri in Hne'.
      destruct (thread_right_tr κ ri s ci ck nri Hnri) as (n' & Hn' & Htr).
      assert (n' = ne') as -> by (unfold κ' in Hne'; congruence).
      destruct (same_geom_lookup _ _ _ _ Hgeom Hnri) as (n'' & Hq'' & Hch & _).
      assert (n'' = ne') as -> by congruence.
      apply nextr_None in Hnxri as [Hnil _].
      unfold nextr. by rewrite Hch, Hnil.
    + fold ri. rewrite !(same_geom_botof κ κ') by done. lra.
    + eapply chain_mono; [|eapply chain_agree; [|exact Hs]]; [by left|done].
  - rewrite Her', last_app_cons, Hlast. done.
  - rewrite last_app_cons, Hlast. rewrite !(same_geom_botof κ κ') by done.
    done.
Qed.

(** Both contours end equally low: no thread is needed. *)
Lemma forest_no_thread κ (SF Si : ptr → Prop) c0 ck ci Ll Lr Lli Lri n0 nci :
  κ !! c0 = Some n0 → κ !! ci = Some nci →
  chain κ nextl SF c0 Ll → el n0 = Some (List.last Ll c0) →
  (botof κ (List.last Ll c0) == botof κ (List.last Lr ck))%Q →
  chain κ nextr Si ci Lri → er nci = Some (List.last Lri ci) →
  (botof κ (List.last Lli ci) == botof κ (List.last Lri ci))%Q →
  (botof κ (List.last Lr ck) == botof κ (List.last Lli ci))%Q →
  forest κ (λ p, SF p ∨ Si p) c0 ci.
Proof.
  intros Hn0 Hnci Hll Hel Hbal Hlri Heri Hbali Heq.
  exists Ll, Lri, n0, nci. repeat split; try done.
  - eapply chain_mono; [|exact Hll]. by left.
  - eapply chain_mono; [|exact Hlri]. by right.
  - lra.
Qed.

(** ** The length of a contour *)

Lemma chain_below κ next S p l :
  chain κ next S p l → Forall (λ q, (botof κ p < botof κ q)%Q) l.
Proof.
  revert p. induction l as [|q l IH]; intros p; [constructor|].
  intros (_ & n & _ & _ & Hlt & Hch). constructor; [done|].
  eapply Forall_impl; [by apply IH|]. simpl. intros r Hr. lra.
Qed.

Lemma chain_NoDup κ next S p l : chain κ next S p l → NoDup (p :: l).
Proof.
  revert p. induction l as [|q l IH]; intros p Hch.
  - apply NoDup_singleton.
  - pose proof (chain_below _ _ _ _ _ Hch) as Hlow.
    destruct Hch as (_ & n & _ & _ & _ & Hch).
    apply NoDup_cons. split; [|by apply IH].
    intros Hin. rewrite Forall_forall in Hlow. specialize (Hlow p Hin). lra.
Qed.

Lemma chain_in κ next S p l : chain κ next S p l → Forall S (p :: l).
Proof.
  revert p. induction l as [|q l IH]; intros p.
  - intros (? & _). by constructor.
  - intros (? & n & _ & _ & _ & Hch). constructor; [done|]. by apply IH.
Qed.

Lemma chain_length κ next (L : list ptr) p l :
  chain κ next (λ q, q ∈ L) p l → (S (length l) ≤ length L)%nat.
Proof.
  intros Hch. change (S (length l)) with (length (p :: l)).
  apply submseteq_length, NoDup_submseteq; [by eapply chain_NoDup|].
  intros q Hq. pose proof (chain_in _ _ _ _ _ Hch) as Hall.
  rewrite Forall_forall in Hall. by apply Hall.
Qed.

(** ** [separate] *)

Lemma awp_separate fuel t nt i ih (LF Li : list ptr) c0 ck ci κ tr :
  κ !! t = Some nt → kids_in κ nt →
  1 ≤ i < Z.of_nat (length (children nt)) →
  children nt !! O = Some c0 →
  children nt !! Z.to_nat (i - 1) = Some ck →
  children nt !! Z.to_nat i = Some ci →
  forest κ (λ p, p ∈ LF) c0 ck → forest κ (λ p, p ∈ Li) ci ci →
  (∀ p, p ∈ LF → p ∈ Li → False) → t ∉ LF → t ∉ Li →
  Forall (λ e, 0 ≤ index e < i) ih →
  (length LF + length Li ≤ fuel)%nat →
  awp (separate fuel t i ih)
    (λ _ κ' tr',
       forest κ' (λ p, p ∈ LF ∨ p ∈ Li) c0 ci ∧ same_geom κ κ' ∧
       (∀ p, p ∉ LF → p ∉ Li → κ' !! p = κ !! p) ∧
       ext Fy (λ p, p ∈ LF ∨ p ∈ Li) [] tr tr') κ tr.
Proof.
  intros Ht Hk Hi Hc0 Hck Hci HF HI Hdis HtF HtI Hih Hfuel.
  destruct HF as (Ll & Lr & n0 & nk & Hn0 & Hnk & Hll & Hel & Hlr & Her & Hbal).
  destruct HI as (Lli & Lri & nci & nci' & Hnci & Hnci' & Hlli & Heli & Hlri
                  & Heri & Hbali).
  assert (nci' = nci) as -> by congruence. clear Hnci'.
  pose proof (chain_length _ _ _ _ _ Hlr) as Hlen1.
  pose proof (chain_length _ _ _ _ _ Hlli) as Hlen2.
  destruct (chain_head _ _ _ _ _ Hll) as (HS0 & _).
  destruct (chain_head _ _ _ _ _ Hlli) as (HSi & _).
  destruct (chain_last _ _ _ _ _ Hll) as (HSli & nli & Hnli & _).
  destruct (chain_last _ _ _ _ _ Hlri) as (HSri & nri & Hnri & _).
  unfold separate.
  awp_child. awp_load. awp_child. awp_load.
  apply awp_bind.
  eapply (awp_separate_loop _ _ _ _ _ ck ci Lr Lli
            (λ p, p ∈ LF) (λ p, p ∈ Li)); try done.
  { simpl. lia. }
  intros v' tr1 Hext1 Hdone. unfold sep_done in Hdone.
  destruct (sv_sr v') as [s|], (sv_cl v') as [c|]; [done|..].
  - (* the left siblings are taller *)
    destruct Hdone as (Ls' & Hs & Hlast & Hlow).
    destruct (chain_head _ _ _ _ _ Hs) as (HSs & ns & Hns).
    eapply (awp_set_right_thread _ _ _ _ _ ci nci (List.last Lri ci) nri ck nk ns
              (λ p, p ∈ LF ∨ p ∈ Li)); try done.
    { lia. }
    { intros ->. done. }
    { intros ->. done. }
    intros tr2 Hext2. split; [|split; [|split]].
    + eapply forest_thread_right; try done.
    + apply thread_right_geom.
    + intros p HpF HpI. apply thread_right_other; intros ->; done.
    + ext_tac.
  - (* the current subtree is taller *)
    destruct Hdone as (Lc' & Hc & Hlast & Hlow).
    destruct (chain_head _ _ _ _ _ Hc) as (HSc & nc & Hnc).
    eapply (awp_set_left_thread _ _ _ _ _ c0 n0 (List.last Ll c0) nli ci nci nc
              (λ p, p ∈ LF ∨ p ∈ Li)); try done.
    { lia. }
    { intros ->. done. }
    { intros ->. done. }
    intros tr2 Hext2. split; [|split; [|split]].
    + eapply forest_thread_left; try done.
    + apply thread_left_geom.
    + intros p HpF HpI. apply thread_left_other; intros ->; done.
    + ext_tac.
  - apply awp_ret. split; [|split; [|split]].
    + eapply forest_no_thread; try done.
    + apply same_geom_refl.
    + done.
    + ext_tac.
Qed.

(** ** Trees *)

Lemma tree_ind (P : tree → Prop) :
  (∀ r sub, Forall P sub → P (Tr r sub)) → ∀ T, P T.
Proof.
  intros Hstep. fix IH 1. intros [r sub]. apply Hstep.
  induction sub as [|T sub IHsub]; constructor; [apply IH | exact IHsub].
Qed.

Lemma root_in_nodes T : root_of T ∈ nodes T.
Proof. destruct T. simpl. apply list_elem_of_here. Qed.

Lemma in_nodes_list (l : list tree) p :
  p ∈ concat (map nodes l) ↔ ∃ T, T ∈ l ∧ p ∈ nodes T.
Proof.
  induction l as [|T l IH]; simpl.
  - split; [by intros ?%elem_of_nil|]. intros (T & ?%elem_of_nil & _). done.
  - rewrite elem_of_app, IH. split.
    + intros [Hp|(T' & HT' & Hp)].
      * exists T. split; [apply list_elem_of_here|done].
      * exists T'. split; [by apply list_elem_of_further|done].
    + intros (T' & [->|HT']%elem_of_cons & Hp); [by left|].
      right. eauto.
Qed.

Lemma nodes_sub_in (T : tree) (l : list tree) p :
  T ∈ l → p ∈ nodes T → p ∈ concat (map nodes l).
Proof. intros HT Hp. apply in_nodes_list. eauto. Qed.

Lemma tree_at_frame κ κ' par T :
  same_frame κ κ' → tree_at κ par T → tree_at κ' par T.
Proof.
  intros Hf. revert par. induction T as [r sub IH] using tree_ind.
  intros par Ht. inversion Ht as [par' r' sub' n Hn Hch Hpar Hh Hsub]; subst.
  destruct (same_frame_lookup _ _ _ _ Hf Hn) as (n' & Hn' & Hc' & Hp' & _ & Hh').
  apply (tree_at_node _ _ _ _ n'); try congruence.
  rewrite Forall_forall in IH. rewrite Forall_forall in Hsub.
  apply Forall_forall. intros T HT. apply IH; [done|]. by apply Hsub.
Qed.

Lemma tree_at_root κ par T : tree_at κ par T → is_Some (κ !! root_of T).
Proof. inversion 1; subst. simpl. eauto. Qed.

Lemma tree_at_nodes κ par T p : tree_at κ par T → p ∈ nodes T → is_Some (κ !! p).
Proof.
  revert par. induction T as [r sub IH] using tree_ind. intros par Ht.
  inversion Ht as [par' r' sub' n Hn Hch Hpar Hh Hsub]; subst. simpl.
  intros [->|Hin]%elem_of_cons; [eauto|].
  apply in_nodes_list in Hin as (T & HT & Hp).
  rewrite Forall_forall in IH. rewrite Forall_forall in Hsub.
  eapply IH; eauto.
Qed.

Lemma rows_agree κ κ' par T :
  (∀ p, p ∈ nodes T → κ' !! p = κ !! p) →
  (∀ p, par = Some p → κ' !! p = κ !! p) →
  rows κ par T → rows κ' par T.
Proof.
  revert par. induction T as [r sub IH] using tree_ind.
  intros par Hin Hpar Hr.
  inversion Hr as [par' r' sub' n Hn Hy Hsub]; subst.
  apply (rows_node _ _ _ _ n).
  - rewrite Hin; [done|]. simpl. apply list_elem_of_here.
  - rewrite Hy. unfold row_y. destruct par as [p|]; [|done].
    by rewrite (Hpar p eq_refl).
  - rewrite Forall_forall in IH. rewrite Forall_forall in Hsub.
    apply Forall_forall. intros T HT. apply IH; [done| | |by apply Hsub].
    + intros p Hp. apply Hin. simpl. apply elem_of_cons. right.
      by eapply nodes_sub_in.
    + intros p [= <-]. apply Hin. simpl. apply list_elem_of_here.
Qed.

Lemma row_y_geom κ κ' par : same_geom κ κ' → row_y κ' par = row_y κ par.
Proof.
  intros Hg. unfold row_y. destruct par as [p|]; [|done].
  specialize (Hg p). destruct (κ !! p), (κ' !! p); try done.
  destruct Hg as (_&_&_&->&->). done.
Qed.

Lemma rows_geom κ κ' par T : same_geom κ κ' → rows κ par T → rows κ' par T.
Proof.
  intros Hg. revert par. induction T as [r sub IH] using tree_ind.
  intros par Hr. inversion Hr as [par' r' sub' n Hn Hy Hsub]; subst.
  destruct (same_geom_lookup _ _ _ _ Hg Hn) as (n' & Hn' & _ & _ & _ & _ & Hy').
  apply (rows_node _ _ _ _ n'); [done| |].
  - rewrite Hy', Hy. symmetry. by apply row_y_geom.
  - rewrite Forall_forall in IH. rewrite Forall_forall in Hsub.
    apply Forall_forall. intros T HT. apply IH; [done|]. by apply Hsub.
Qed.

Lemma unthreaded_agree κ κ' l :
  (∀ p, p ∈ l → κ' !! p = κ !! p) → unthreaded κ l → unthreaded κ' l.
Proof. intros Hag Hu p n Hp Hn. rewrite Hag in Hn by done. eauto. Qed.

Lemma unthreaded_sub κ l l' :
  (∀ p, p ∈ l' → p ∈ l) → unthreaded κ l → unthreaded κ l'.
Proof. intros Hsub Hu p n Hp Hn. eauto. Qed.

Lemma forest_mono κ (S S' : ptr → Prop) c0 ck :
  (∀ p, S p → S' p) → forest κ S c0 ck → forest κ S' c0 ck.
Proof.
  intros HS (Ll & Lr & n0 & nk & ? & ? & Hl & ? & Hr & ? & ?).
  exists Ll, Lr, n0, nk. repeat split; try done; by eapply chain_mono.
Qed.

Lemma forest_agree κ κ' (S : ptr → Prop) c0 ck :
  (∀ p, S p → κ' !! p = κ !! p) → forest κ S c0 ck → forest κ' S c0 ck.
Proof.
  intros HS (Ll & Lr & n0 & nk & H0 & Hk & Hl & Hel & Hr & Her & Hb).
  destruct (chain_head _ _ _ _ _ Hl) as (HS0 & _).
  destruct (chain_head _ _ _ _ _ Hr) as (HSk & _).
  destruct (chain_last _ _ _ _ _ Hl) as (HSl & _).
  destruct (chain_last _ _ _ _ _ Hr) as (HSr & _).
  exists Ll, Lr, n0, nk. rewrite !HS by done.
  repeat split; try done; try by eapply chain_agree.
  unfold botof in *. by rewrite !HS.
Qed.

(** ** The loop over the children *)

Lemma ext_pre f (Y : ptr → Prop) W tr tr1 tr2 :
  ext f Y [] tr tr1 → ext f Y W tr1 tr2 → ext f Y W tr tr2.
Proof.
  intros H1 H2. rewrite <- (app_nil_r W).
  eapply ext_trans; [exact H1|exact H2|]. by left.
Qed.

Lemma dropIYL_suffix miny l : dropIYL miny l `suffix_of` l.
Proof.
  destruct (dropIYL_split miny l) as (pre & Hl & _). by exists pre.
Qed.

Lemma updateIYL_index miny i l :
  0 ≤ i → Forall (λ e, 0 ≤ index e < i) l →
  Forall (λ e, 0 ≤ index e < i + 1) (updateIYL miny i l).
Proof.
  intros Hi Hl. unfold updateIYL. constructor; [simpl; lia|].
  destruct (dropIYL_suffix miny l) as [pre Hpre].
  rewrite Hpre in Hl. apply Forall_app in Hl as [_ Hl].
  eapply Forall_impl; [exact Hl|]. simpl. intros; lia.
Qed.

Lemma kids_in_sub κ par n sub :
  children n = map root_of sub → Forall (tree_at κ par) sub → kids_in κ n.
Proof.
  intros Hch Hsub c Hc. rewrite Hch in Hc.
  apply list_elem_of_In, in_map_iff in Hc as (T & <- & HT).
  apply list_elem_of_In in HT. rewrite Forall_forall in Hsub.
  eapply tree_at_root. by apply Hsub.
Qed.

Lemma length_nodes_list_app (l1 l2 : list tree) :
  length (concat (map nodes (l1 ++ l2))) =
  (length (concat (map nodes l1)) + length (concat (map nodes l2)))%nat.
Proof. by rewrite map_app, concat_app, length_app. Qed.

Lemma awp_firstwalk_rest (walk : ptr → M unit) fuel r nr c0 :
  ∀ td dn κ tr ih ck,
  κ !! r = Some nr → children nr = map root_of (dn ++ td) →
  map root_of dn !! O = Some c0 → last (map root_of dn) = Some ck →
  forest κ (λ p, p ∈ concat (map nodes dn)) c0 ck →
  Forall (tree_at κ (Some r)) (dn ++ td) →
  unthreaded κ (concat (map nodes td)) →
  NoDup (r :: concat (map nodes (dn ++ td))) →
  Forall (rows κ (Some r)) dn →
  Forall (λ e, 0 ≤ index e < Z.of_nat (length dn)) ih →
  Forall (walk_spec walk (Some r)) td →
  (length (concat (map nodes (dn ++ td))) ≤ fuel)%nat →
  awp (firstwalk_rest walk fuel r
         (seqZ (Z.of_nat (length dn)) (Z.of_nat (length td))) ih)
    (λ _ κ' tr',
       same_frame κ κ' ∧
       (∀ p, p ∉ concat (map nodes (dn ++ td)) → κ' !! p = κ !! p) ∧
       (∃ ck', last (map root_of (dn ++ td)) = Some ck' ∧
          forest κ' (λ p, p ∈ concat (map nodes (dn ++ td))) c0 ck') ∧
       Forall (rows κ' (Some r)) (dn ++ td) ∧
       ∃ W, W ≡ₚ concat (map nodes td) ∧
            ext Fy (λ n, n = r ∨ n ∈ concat (map nodes dn)) W tr tr') κ tr.
Proof.
  induction td as [|Ti td IH];
    intros dn κ tr ih ck Hr Hch Hc0 Hck Hforest Htree Hunth Hnd Hrows Hih
      Hwalk Hfuel.
  { simpl. apply awp_ret. rewrite app_nil_r.
    split; [apply same_frame_refl|]. split; [done|].
    split; [eauto|]. split; [done|]. exists []. split; [done|constructor]. }
  rewrite seqZ_cons by (simpl; lia).
  replace (Z.succ (Z.of_nat (length dn)))
    with (Z.of_nat (length (dn ++ [Ti]))) by (rewrite length_app; simpl; lia).
  replace (Z.pred (Z.of_nat (length (Ti :: td))))
    with (Z.of_nat (length td)) by (simpl; lia).
  simpl firstwalk_rest.
  set (i := Z.of_nat (length dn)) in *.
  set (ci := root_of Ti).
  set (LF := concat (map nodes dn)) in *.
  apply NoDup_cons in Hnd as [Hrnot Hnd].
  rewrite map_app, concat_app in Hnd, Hrnot. simpl in Hnd, Hrnot.
  fold LF in Hnd, Hrnot.
  apply NoDup_app in Hnd as (HndF & HdisF & Hnd).
  apply NoDup_app in Hnd as (Hndi & Hdisi & Hndtd).
  assert (r ∉ LF) as HrF by (intros ?; apply Hrnot; apply elem_of_app; auto).
  assert (r ∉ nodes Ti) as Hri.
  { intros ?. apply Hrnot. rewrite !elem_of_app. auto. }
  assert (Hci : children nr !! Z.to_nat i = Some ci).
  { rewrite Hch, map_app. unfold i. rewrite Nat2Z.id.
    rewrite <- (length_map root_of dn). simpl. by rewrite list_lookup_middle. }
  assert (Hc0' : children nr !! O = Some c0).
  { rewrite Hch, map_app. by apply lookup_app_l_Some. }
  assert (1 ≤ i) as Hi1.
  { unfold i. destruct dn; [done|]. simpl. lia. }
  assert (Hck' : children nr !! Z.to_nat (i - 1) = Some ck).
  { rewrite Hch, map_app. apply lookup_app_l_Some.
    rewrite last_lookup in Hck. rewrite length_map in Hck.
    replace (Z.to_nat (i - 1)) with (pred (length dn)) by (unfold i; lia).
    done. }
  assert (Hlen : i < Z.of_nat (length (children nr))).
  { rewrite Hch, length_map, length_app. simpl. unfold i. lia. }
  apply Forall_app in Htree as [HtreeF Htreetd].
  apply Forall_cons in Htreetd as [Htreei Htreetd].
  apply Forall_cons in Hwalk as [Hwalki Hwalk].
  awp_child.
  apply awp_bind. eapply awp_wand.
  { apply Hwalki; [done| |].
    - eapply unthreaded_sub; [|exact Hunth]. intros p Hp. simpl.
      apply elem_of_app. by left.
    - intros p [= <-]. split; [done|eauto]. }
  intros _ κ1 tr1 ((Hfr1 & Hout1 & Hrows1 & Hforest1) & W1 & HW1 & Hext1).
  cbv beta.
  assert (κ1 !! r = Some nr) as Hr1 by (by rewrite Hout1).
  destruct Hforest1 as (Lli & Lri & nci & nci' & Hnci & Hnci' & Hforest1).
  fold ci in Hnci, Hnci', Hforest1.
  assert (nci' = nci) as -> by congruence.
  awp_child. apply awp_bind. eapply awp_bottom; [done|].
  assert (HF1 : forest κ1 (λ p, p ∈ LF) c0 ck).
  { eapply forest_agree; [|exact Hforest]. intros p Hp. simpl in Hp.
    apply Hout1. intros Hpi. eapply HdisF; [done|]. apply elem_of_app. auto. }
  assert (Htree1 : Forall (tree_at κ1 (Some r)) (dn ++ Ti :: td)).
  { eapply Forall_impl;
      [apply Forall_app; split;
         [exact HtreeF | constructor; [exact Htreei | exact Htreetd]]|].
    intros T. by apply tree_at_frame. }
  assert (Hk1 : kids_in κ1 nr).
  { by eapply kids_in_sub. }
  apply awp_bind. eapply awp_wand.
  { eapply (awp_separate fuel r nr i ih LF (nodes Ti) c0 ck ci); try done.
    - exists Lli, Lri, nci, nci. tauto.
    - intros p HpF Hpi. eapply HdisF; [done|]. apply elem_of_app. auto.
    - rewrite length_nodes_list_app in Hfuel. simpl in Hfuel.
      rewrite length_app in Hfuel. fold LF in Hfuel. lia. }
  intros _ κ2 tr2 (Hforest2 & Hgeom2 & Hout2 & Hext2). cbv beta.
  assert (Hfr2 : same_frame κ κ2).
  { eapply same_frame_trans; [done|]. by apply same_geom_frame. }
  assert (Hnodes' : ∀ p, p ∈ concat (map nodes (dn ++ [Ti])) ↔
                        p ∈ LF ∨ p ∈ nodes Ti).
  { intros p. rewrite map_app, concat_app. simpl. rewrite app_nil_r.
    apply elem_of_app. }
  eapply awp_wand.
  { apply (IH (dn ++ [Ti]) κ2 _ _ ci).
    - rewrite Hout2; [done|done|done].
    - by rewrite <- app_assoc.
    - rewrite map_app. by apply lookup_app_l_Some.
    - rewrite map_app. simpl. by rewrite last_snoc.
    - eapply forest_mono; [|exact Hforest2]. intros p Hp. by apply Hnodes'.
    - rewrite <- app_assoc. simpl. eapply Forall_impl; [exact Htree1|].
      intros T. apply tree_at_frame. by apply same_geom_frame.
    - eapply unthreaded_agree; [|eapply unthreaded_sub; [|exact Hunth]].
      + intros p Hp. rewrite Hout2, Hout1; [done|..].
        * intros Hpi. by eapply Hdisi.
        * intros HpF. eapply HdisF; [done|]. apply elem_of_app. auto.
        * intros Hpi. by eapply Hdisi.
      + intros p Hp. simpl. apply elem_of_app. auto.
    - apply NoDup_cons. split.
      + rewrite <- app_assoc. simpl. rewrite map_app, concat_app. simpl.
        done.
      + rewrite <- app_assoc. simpl. rewrite map_app, concat_app. simpl.
        apply NoDup_app. split; [done|]. split; [done|].
        apply NoDup_app. done.
    - apply Forall_app. split; [|constructor; [|constructor]].
      + rewrite Forall_forall in Hrows. apply Forall_forall. intros T HT.
        eapply rows_geom; [exact Hgeom2|].
        eapply rows_agree; [| |by apply Hrows].
        * intros p Hp. apply Hout1. intros Hpi.
          eapply HdisF; [by eapply nodes_sub_in|]. apply elem_of_app. auto.
        * intros p [= <-]. by apply Hout1.
      + by eapply rows_geom.
    - rewrite length_app. simpl.
      replace (Z.of_nat (length dn + 1)) with (i + 1) by (unfold i; lia).
      apply updateIYL_index; [lia|done].
    - done.
    - by rewrite <- app_assoc. }
  intros _ κ3 tr3 (Hfr3 & Hout3 & (ck3 & Hck3 & Hforest3) & Hrows3
                   & W3 & HW3 & Hext3). cbv beta.
  rewrite <- app_assoc in Hout3, Hck3, Hforest3, Hrows3. simpl in *.
  split; [by eapply same_frame_trans|]. split; [|split; [eauto|split; [done|]]].
  - intros p Hp. rewrite Hout3 by done.
    rewrite map_app, concat_app in Hp. simpl in Hp. fold LF in Hp.
    rewrite !elem_of_app in Hp.
    rewrite Hout2, Hout1; [done|..]; intros ?; apply Hp; auto.
  - exists (W3 ++ W1). split.
    { rewrite HW3, HW1. apply Permutation_app_comm. }
    eapply ext_trans; [|exact Hext3|].
    + assert (Hext1' : ext Fy (λ n, n = r ∨ n ∈ LF) W1
                         (RdC r :: tr) tr1).
      { eapply ext_mono; [|exact Hext1]. intros n [= ->]. by left. }
      assert (ext Fy (λ n, n = r ∨ n ∈ LF) W1 tr tr1) as Hext1''.
      { eapply ext_pre; [|exact Hext1']. ext_tac. }
      eapply ext_quiet; [exact Hext2| |].
      * intros n [Hn|Hn]; [left; by right|].
        right. split; [done|]. by rewrite HW1.
      * apply ext_calm; [|done]. apply ext_calm.
        2:{ simpl. right. split; [done|]. rewrite HW1. apply root_in_nodes. }
        apply ext_calm; [|done]. done.
    + intros n [->|Hn]; [left; by left|].
      apply Hnodes' in Hn as [Hn|Hn]; [left; by right|].
      right. split; [done|]. by rewrite HW1.
Qed.

(** ** Extremes of a parent *)

Lemma with_extremes_geom κ t l r : same_geom κ (with_extremes κ t l r).
Proof.
  unfold with_extremes. destruct (κ !! t) as [nt|] eqn:Ht;
    [|apply same_geom_refl].
  intros q. destruct (decide (t = q)) as [<-|Hne].
  - by rewrite lookup_insert_eq, Ht.
  - rewrite lookup_insert_ne by done. by destruct (κ !! q).
Qed.

Lemma with_extremes_other κ t l r p :
  p ≠ t → with_extremes κ t l r !! p = κ !! p.
Proof.
  intros Hne. unfold with_extremes. destruct (κ !! t); [|done].
  by rewrite lookup_insert_ne.
Qed.

Lemma with_extremes_lookup κ t l r nt :
  κ !! t = Some nt →
  with_extremes κ t l r !! t = Some (setp Fer r (setp Fel l nt)).
Proof. intros Ht. unfold with_extremes. rewrite Ht. apply lookup_insert_eq. Qed.

Lemma with_extremes_chain κ t l r next (S : ptr → Prop) p L :
  next = nextl ∨ next = nextr →
  chain κ next S p L → chain (with_extremes κ t l r) next S p L.
Proof.
  intros Hnext. apply chain_equiv. intros q n _ Hq.
  destruct (decide (q = t)) as [->|Hne].
  - rewrite (with_extremes_lookup _ _ _ _ _ Hq). eexists. split; [done|].
    split; [|done]. destruct Hnext as [-> | ->].
    + by rewrite !nextl_setp.
    + by rewrite !nextr_setp.
  - rewrite with_extremes_other by done. eauto.
Qed.

Lemma forest_leaf κ r nr :
  κ !! r = Some nr → children nr = [] → tl nr = None → tr nr = None →
  forest (with_extremes κ r (Some r) (Some r)) (λ p, p ∈ [r]) r r.
Proof.
  intros Hr Hnil Htl Htr.
  pose proof (with_extremes_lookup κ r (Some r) (Some r) nr Hr) as Hr'.
  exists [], [], (setp Fer (Some r) (setp Fel (Some r) nr)),
    (setp Fer (Some r) (setp Fel (Some r) nr)).
  repeat split; try done; try apply list_elem_of_here.
  - eexists. split; [done|]. rewrite !nextl_setp by done.
    unfold nextl. by rewrite Hnil.
  - eexists. split; [done|]. rewrite !nextr_setp by done.
    unfold nextr. by rewrite Hnil.
Qed.

Lemma forest_parent κ (S : ptr → Prop) r nr c0 cl :
  κ !! r = Some nr → children nr !! O = Some c0 →
  last (children nr) = Some cl →
  forest κ S c0 cl →
  (botof κ r < botof κ c0)%Q → (botof κ r < botof κ cl)%Q →
  ∃ n0 nl, κ !! c0 = Some n0 ∧ κ !! cl = Some nl ∧
    forest (with_extremes κ r (el n0) (er nl)) (λ p, p = r ∨ S p) r r.
Proof.
  intros Hr Hc0 Hcl (Ll & Lr & n0 & nl & Hn0 & Hnl & Hll & Hel & Hlr & Her & Hb)
    Hlt0 Hltl.
  exists n0, nl. split; [done|]. split; [done|].
  set (κ' := with_extremes κ r (el n0) (er nl)).
  pose proof (with_extremes_lookup κ r (el n0) (er nl) nr Hr) as Hr'.
  pose proof (with_extremes_geom κ r (el n0) (er nl)) as Hg.
  assert (children nr ≠ []) as Hne by (intros E; by rewrite E in Hc0).
  exists (c0 :: Ll), (cl :: Lr), (setp Fer (er nl) (setp Fel (el n0) nr)),
    (setp Fer (er nl) (setp Fel (el n0) nr)).
  split; [done|]. split; [done|].
  split; [|split; [|split; [|split]]].
  - split; [by left|]. eexists. split; [done|].
    split; [|split].
    + rewrite !nextl_setp by done. by rewrite nextl_first.
    + fold κ'. rewrite !(same_geom_botof κ κ') by done. done.
    + apply with_extremes_chain; [by left|].
      eapply chain_mono; [|done]. by right.
  - by rewrite last_cons_cons.
  - split; [by left|]. eexists. split; [done|].
    split; [|split].
    + rewrite !nextr_setp by done. unfold nextr.
      destruct (children nr); [done|]. done.
    + fold κ'. rewrite !(same_geom_botof κ κ') by done. done.
    + apply with_extremes_chain; [by right|].
      eapply chain_mono; [|done]. by right.
  - by rewrite last_cons_cons.
  - rewrite !last_cons_cons. fold κ'.
    rewrite !(same_geom_botof κ κ') by done. done.
Qed.

Lemma rows_below κ r nr T :
  κ !! r = Some nr → rows κ (Some r) T → tree_at κ (Some r) T →
  (botof κ r < botof κ (root_of T))%Q.
Proof.
  intros Hr Hrows Ht.
  inversion Hrows as [par r' sub n Hn Hy Hsub]; subst.
  inversion Ht as [par r'' sub' n' Hn' _ _ Hh _]; subst.
  assert (n' = n) as -> by congruence.
  simpl. rewrite (botof_lookup _ _ _ Hr), (botof_lookup _ _ _ Hn).
  unfold bot. rewrite Hy. unfold row_y. rewrite Hr.
  unfold V_SPACING. lra.
Qed.

(** ** The first walk *)

Lemma last_map_root (l : list tree) (T : tree) :
  last (map root_of (l ++ [T])) = Some (root_of T).
Proof. rewrite map_app. simpl. apply last_snoc. Qed.

Lemma NoDup_nodes_sub r sub T :
  NoDup (nodes (Tr r sub)) → T ∈ sub → NoDup (nodes T) ∧ r ∉ nodes T.
Proof.
  simpl. intros [Hr Hnd]%NoDup_cons HT.
  apply list_elem_of_split in HT as (l1 & l2 & ->).
  rewrite map_app, concat_app in Hnd, Hr. simpl in Hnd, Hr.
  apply NoDup_app in Hnd as (_ & _ & Hnd).
  apply NoDup_app in Hnd as (Hnd & _ & _). split; [done|].
  intros Hin. apply Hr. rewrite !elem_of_app. auto.
Qed.

Lemma length_nodes_sub r sub T :
  T ∈ sub → (length (nodes T) < length (nodes (Tr r sub)))%nat.
Proof.
  intros HT. apply list_elem_of_split in HT as (l1 & l2 & ->).
  simpl. rewrite map_app, concat_app. simpl. rewrite !length_app. lia.
Qed.

Lemma awp_firstwalk T :
  ∀ par fuel,
    NoDup (nodes T) → (2 * length (nodes T) < fuel)%nat →
    walk_spec (firstwalk fuel) par T.
Proof.
  induction T as [r sub IH] using tree_ind.
  intros par fuel Hnd Hfuel κ tr Htree Hunth Hpar.
  destruct fuel as [|f]; [lia|].
  inversion Htree as [par' r' sub' nr Hr Hch Hparent Hh Hsub]; subst.
  simpl root_of. simpl firstwalk.
  destruct (Hunth r nr) as [Htl Htr]; [(simpl; apply list_elem_of_here)|done|].
  set (v := row_y κ (parent nr)).
  set (κ0 := <[r := setq Fy v nr]> κ).
  (* the row of the node *)
  awp_loadp. apply awp_bind.
  eapply (awp_wand _ (λ _ κ' tr', κ' = κ0 ∧
            ext Fy (λ n, parent nr = Some n) [r] tr tr')).
  { simpl. destruct (parent nr) as [pp|] eqn:Epar.
    - destruct (Hpar pp eq_refl) as [Hppn [np Hpp]].
      awp_load. awp_load.
      eapply awp_storeq_geom; [done..|]. split.
      + unfold κ0, v, row_y. rewrite Hpp, H, H0 by done. done.
      + apply ext_write. ext_tac.
    - eapply awp_storeq_geom; [done..|]. split; [done|].
      apply ext_write. ext_tac. }
  intros _ ? tr0 [-> Hext0]. cbv beta.
  assert (Hr0 : κ0 !! r = Some (setq Fy v nr)) by apply lookup_insert_eq.
  assert (Hfr0 : same_frame κ κ0) by (by apply same_frame_sety).
  assert (Hout0 : ∀ p, p ≠ r → κ0 !! p = κ !! p).
  { intros p Hp. unfold κ0. by rewrite lookup_insert_ne. }
  awp_size. rewrite Hch, length_map.
  destruct sub as [|T0 rest].
  - (* a leaf *)
    simpl. eapply (awp_set_extremes_leaf _ _ (λ n, parent nr = Some n));
      [done|done|].
    intros tr1 Hext1.
    set (κ1 := with_extremes κ0 r (Some r) (Some r)).
    assert (Hg1 : same_geom κ0 κ1) by apply with_extremes_geom.
    split; [split; [|split; [|split]]|].
    + eapply same_frame_trans; [done|]. by apply same_geom_frame.
    + intros p Hp. unfold κ1. rewrite with_extremes_other, Hout0; [done|..];
        intros ->; apply Hp; simpl; apply list_elem_of_here.
    + eapply rows_node; [by apply with_extremes_lookup| |constructor].
      simpl. unfold v, row_y. destruct (parent nr) as [pp|]; [|done].
      destruct (Hpar pp eq_refl) as [Hppn _].
      assert (pp ≠ r) by (intros ->; apply Hppn; simpl; apply list_elem_of_here).
      unfold κ1. by rewrite with_extremes_other, Hout0.
    + simpl. apply (forest_leaf κ0 r (setq Fy v nr)); done.
    + exists [r]. split; [done|]. ext_tac.
  - (* children *)
    rewrite decide_False by (simpl; lia).
    set (c0 := root_of T0).
    assert (Hc0 : children nr !! O = Some c0) by (by rewrite Hch).
    assert (HT0 : T0 ∈ T0 :: rest) by apply list_elem_of_here.
    destruct (NoDup_nodes_sub r _ T0 Hnd HT0) as [Hnd0 Hr0n].
    pose proof (length_nodes_sub r _ T0 HT0) as Hlen0.
    apply Forall_cons in IH as [IH0 IHrest].
    apply Forall_cons in Hsub as [Hsub0 Hsubrest].
    awp_child.
    apply awp_bind. eapply awp_wand.
    { apply (IH0 (Some r) f); [done|lia| | |].
      - by eapply tree_at_frame.
      - eapply unthreaded_agree; [|eapply unthreaded_sub; [|exact Hunth]].
        + intros p Hp. apply Hout0. by intros ->.
        + intros p Hp. apply elem_of_cons. right.
          by eapply nodes_sub_in.
      - intros p [= <-]. eauto. }
    intros _ κ1 tr1 ((Hfr1 & Hout1 & Hrows1 & Hforest1) & W1 & HW1 & Hext1).
    cbv beta.
    assert (Hr1 : κ1 !! r = Some (setq Fy v nr)) by (by rewrite Hout1).
    destruct (tree_at_root κ1 (Some r) T0) as [n01 Hn01].
    { eapply tree_at_frame; [|exact Hsub0].
      by eapply same_frame_trans. }
    fold c0 in Hn01.
    awp_child. apply awp_bind. eapply awp_bottom; [done|].
    awp_size. rewrite Hch, length_map.
    replace (Z.of_nat (length (T0 :: rest)) - 1)
      with (Z.of_nat (length rest)) by (simpl; lia).
    apply awp_bind. eapply awp_wand.
    { eapply (awp_firstwalk_rest (firstwalk f) f r (setq Fy v nr) c0
                rest [T0] κ1 _ _ c0); try done.
      - eapply forest_mono; [|exact Hforest1]. simpl. intros p Hp.
        by rewrite app_nil_r.
      - simpl. eapply Forall_impl; [exact (Forall_cons_2 _ _ _ Hsub0 Hsubrest)|].
        intros T' HT'. eapply tree_at_frame; [|exact HT'].
        by eapply same_frame_trans.
      - eapply unthreaded_agree; [|eapply unthreaded_sub; [|exact Hunth]].
        + intros p Hp. rewrite Hout1, Hout0; [done|..].
          * intros ->. apply NoDup_cons in Hnd as [Hrn _]. apply Hrn.
            simpl. apply elem_of_app. by right.
          * intros Hp0. simpl in Hnd. apply NoDup_cons in Hnd as [_ Hnd].
            apply NoDup_app in Hnd as (_ & Hdis & _). by eapply Hdis.
        + intros p Hp. simpl. apply elem_of_cons. right.
          apply elem_of_app. by right.
      - by constructor.
      - constructor; [|constructor]. simpl. lia.
      - rewrite Forall_forall in IHrest. apply Forall_forall. intros Tj HTj.
        assert (HTj' : Tj ∈ T0 :: rest) by (by apply list_elem_of_further).
        destruct (NoDup_nodes_sub r _ Tj Hnd HTj') as [Hndj _].
        pose proof (length_nodes_sub r _ Tj HTj') as Hlenj.
        apply IHrest; [done|done|lia].
      - simpl in Hfuel |- *. lia. }
    intros _ κ3 tr3 (Hfr3 & Hout3 & (cl & Hcl & Hforest3) & Hrows3
                     & W3 & HW3 & Hext3). cbv beta.
    simpl app in *.
    assert (Hr3 : κ3 !! r = Some (setq Fy v nr)).
    { rewrite Hout3; [done|]. by apply NoDup_cons in Hnd as [? _]. }
    assert (Htree3 : Forall (tree_at κ3 (Some r)) (T0 :: rest)).
    { eapply Forall_impl; [exact (Forall_cons_2 _ _ _ Hsub0 Hsubrest)|].
      intros T' HT'. eapply tree_at_frame; [|exact HT'].
      eapply same_frame_trans; [|exact Hfr3].
      by eapply same_frame_trans. }
    assert (Hk3 : kids_in κ3 (setq Fy v nr)) by (by eapply kids_in_sub).
    apply awp_bind.
    eapply (awp_position_root _ _ (λ n, parent nr = Some n)); try done.
    { simpl. by rewrite Hch. }
    intros tr4 Hext4.
    assert (Hcl' : children (setq Fy v nr) !! pred (length (children (setq Fy v nr)))
                   = Some cl).
    { simpl. rewrite <- last_lookup. by rewrite Hch. }
    assert (Hbelow : ∀ Tj, Tj ∈ T0 :: rest →
              (botof κ3 r < botof κ3 (root_of Tj))%Q).
    { intros Tj HTj. rewrite Forall_forall in Hrows3, Htree3.
      eapply rows_below; eauto. }
    assert (∃ Tl, Tl ∈ T0 :: rest ∧ root_of Tl = cl) as (Tl & HTl & Hrl).
    { apply last_Some_elem_of in Hcl.
      apply list_elem_of_In, in_map_iff in Hcl as (Tl & ? & HTl).
      apply list_elem_of_In in HTl. eauto. }
    destruct (forest_parent κ3 (λ p, p ∈ concat (map nodes (T0 :: rest)))
                r (setq Fy v nr) c0 cl Hr3 Hc0)
      as (n03 & nl3 & Hn03 & Hnl3 & Hforest4); try done.
    { simpl. rewrite <- Hch in Hcl. done. }
    { by apply Hbelow. }
    { rewrite <- Hrl. by apply Hbelow. }
    assert (r ≠ c0) as Hrc0.
    { intros E. apply Hr0n. rewrite E. apply root_in_nodes. }
    assert (r ≠ cl) as Hrcl.
    { intros E. destruct (NoDup_nodes_sub r _ Tl Hnd HTl) as [_ Hrn].
      apply Hrn. rewrite E, <- Hrl. apply root_in_nodes. }
    eapply (awp_set_extremes_inner _ _ c0 n03 cl nl3
              (λ n, parent nr = Some n)); try done.
    intros tr5 Hext5.
    set (κ5 := with_extremes κ3 r (el n03) (er nl3)) in *.
    assert (Hg5 : same_geom κ3 κ5) by apply with_extremes_geom.
    split; [split; [|split; [|split]]|].
    + eapply same_frame_trans; [done|]. eapply same_frame_trans; [done|].
      eapply same_frame_trans; [done|]. by apply same_geom_frame.
    + intros p Hp. simpl in Hp. apply not_elem_of_cons in Hp as [Hpr Hp].
      unfold κ5. rewrite with_extremes_other, Hout3, Hout1, Hout0; try done.
      intros Hp0. apply Hp. apply elem_of_app. by left.
    + eapply rows_node; [by apply with_extremes_lookup| |].
      * simpl. unfold v, row_y. destruct (parent nr) as [pp|]; [|done].
        destruct (Hpar pp eq_refl) as [Hppn _].
        assert (pp ≠ r) by (intros ->; apply Hppn; simpl; apply list_elem_of_here).
        simpl in Hppn. apply not_elem_of_cons in Hppn as [_ Hppn].
        unfold κ5. rewrite with_extremes_other, Hout3, Hout1, Hout0; try done.
        intros Hp0. apply Hppn. apply elem_of_app. by left.
      * eapply Forall_impl; [exact Hrows3|]. intros Tj. by apply rows_geom.
    + simpl. eapply forest_mono; [|exact Hforest4]. simpl.
      intros p [->|Hp]; [apply list_elem_of_here|].
      by apply list_elem_of_further.
    + exists (W3 ++ W1 ++ [r]). split.
      { simpl. rewrite HW3, HW1.
        rewrite (Permutation_app_comm _ (nodes T0 ++ [r])).
        rewrite <- app_assoc. simpl.
        symmetry. apply Permutation_middle. }
      assert (Hext1' : ext Fy (λ n, parent nr = Some n) (W1 ++ [r]) tr tr1).
      { eapply ext_trans; [|exact Hext1|].
        - ext_tac.
        - intros n [= <-]. right. split; [done|]. apply list_elem_of_here. }
      eapply ext_quiet; [exact Hext5|auto|].
      eapply ext_quiet; [exact Hext4|auto|].
      eapply ext_trans; [|exact Hext3|].
      * apply ext_calm; [|done]. apply ext_calm; [|done]. apply ext_calm.
        2:{ simpl. right. split; [done|]. apply elem_of_app. left.
            rewrite HW1. apply root_in_nodes. }
        apply ext_calm; [|done]. done.
      * intros n [->|Hn]; right; (split; [done|]); apply elem_of_app.
        -- right. apply list_elem_of_here.
        -- left. rewrite HW1. simpl in Hn. by rewrite app_nil_r in Hn.
Qed.

(** ** The second walk *)

Lemma awp_add_child_spacing_loop t nt f (Y : ptr → Prop) κ :
  κ !! t = Some nt → kids_in κ nt →
  ∀ idx d msd tr Φ,
    Forall (λ i, 0 ≤ i < Z.of_nat (length (children nt))) idx →
    (∀ tr', ext f Y [] tr tr' → Φ tt κ tr') →
    awp (add_child_spacing_loop t idx d msd) Φ κ tr.
Proof.
  intros Ht Hk. induction idx as [|i idx IH]; intros d msd tr Φ Hidx HΦ.
  - simpl. apply awp_ret. apply HΦ. ext_tac.
  - apply Forall_cons in Hidx as [Hi Hidx]. simpl.
    destruct (kids_in_lookup κ nt i Hk) as (c & nc & Hc & Hnc); [lia|].
    awp_child. awp_load. awp_child. awp_load. awp_child. awp_load. awp_store.
    apply IH; [done|]. intros tr' Hext. apply HΦ. ext_tac.
Qed.

Lemma awp_add_child_spacing t nt f (Y : ptr → Prop) Φ κ tr :
  κ !! t = Some nt → kids_in κ nt →
  (∀ tr', ext f Y [] tr tr' → Φ tt κ tr') →
  awp (add_child_spacing t) Φ κ tr.
Proof.
  intros Ht Hk HΦ. unfold add_child_spacing. awp_size.
  eapply (awp_add_child_spacing_loop _ _ f Y); try done.
  - apply Forall_forall. intros i Hi. apply elem_of_seqZ in Hi. lia.
  - intros tr' Hext. apply HΦ. ext_tac.
Qed.

Lemma awp_for_each (walk : ptr → M unit) :
  ∀ sub κ tr,
    Forall (λ T, ∀ tr0,
      awp (walk (root_of T))
        (λ _ κ' tr', κ' = κ ∧
           ∃ W, W ≡ₚ nodes T ∧ ext Fx (λ _, False) W tr0 tr') κ tr0) sub →
    awp (for_each walk (map root_of sub))
      (λ _ κ' tr', κ' = κ ∧
         ∃ W, W ≡ₚ concat (map nodes sub) ∧ ext Fx (λ _, False) W tr tr') κ tr.
Proof.
  induction sub as [|T sub IH]; intros κ tr Hsub; simpl.
  - apply awp_ret. split; [done|]. exists []. split; [done|constructor].
  - apply Forall_cons in Hsub as [HT Hsub].
    apply awp_bind. eapply awp_wand; [apply HT|].
    intros _ ? tr1 (-> & W1 & HW1 & Hext1). cbv beta.
    eapply awp_wand; [by apply IH|].
    intros _ ? tr2 (-> & W2 & HW2 & Hext2). cbv beta.
    split; [done|]. exists (W2 ++ W1). split.
    + rewrite HW1, HW2. apply Permutation_app_comm.
    + eapply ext_trans; [done|done|]. by left.
Qed.

Lemma awp_secondwalk T :
  ∀ par fuel modsum κ tr,
    tree_at κ par T → (2 * length (nodes T) < fuel)%nat →
    awp (secondwalk fuel (root_of T) modsum)
      (λ _ κ' tr', κ' = κ ∧
         ∃ W, W ≡ₚ nodes T ∧ ext Fx (λ _, False) W tr tr') κ tr.
Proof.
  induction T as [r sub IH] using tree_ind.
  intros par fuel modsum κ tr Htree Hfuel.
  destruct fuel as [|f]; [lia|].
  inversion Htree as [par' r' sub' nr Hr Hch Hparent Hh Hsub]; subst.
  simpl root_of. simpl secondwalk.
  assert (Hk : kids_in κ nr) by (by eapply kids_in_sub).
  awp_load. awp_load. awp_store.
  apply awp_bind.
  eapply (awp_add_child_spacing _ _ Fx (λ _, False)); try done.
  intros tr1 Hext1.
  apply awp_bind. eapply awp_kids; [done|]. rewrite Hch.
  eapply awp_wand.
  { apply awp_for_each.
    rewrite Forall_forall in IH, Hsub. apply Forall_forall. intros T HT tr0.
    eapply (IH T HT (Some r)); [by apply Hsub|].
    pose proof (length_nodes_sub r sub T HT). lia. }
  intros _ ? tr2 (-> & W2 & HW2 & Hext2). cbv beta.
  split; [done|]. exists (W2 ++ [r]). split.
  { simpl. rewrite HW2. symmetry. apply Permutation_cons_append. }
  eapply ext_trans; [|exact Hext2|by left].
  apply ext_calm; [|done].
  eapply ext_quiet; [exact Hext1|by left|].
  apply ext_write. ext_tac.
Qed.

(** ** From the store to its skeleton *)

Lemma same_frame_skel σ σ' : same_frame (skel σ) (skel σ') ↔ same_frame σ σ'.
Proof.
  unfold same_frame. split; intros H p; specialize (H p);
    rewrite !skel_lookup in *; destruct (σ !! p), (σ' !! p); done.
Qed.

Lemma row_y_skel σ par : row_y (skel σ) par = row_y σ par.
Proof.
  unfold row_y. destruct par as [p|]; [|done].
  rewrite skel_lookup. by destruct (σ !! p).
Qed.

Lemma rows_skel σ par T : rows (skel σ) par T → rows σ par T.
Proof.
  revert par. induction T as [r sub IH] using tree_ind. intros par Hr.
  inversion Hr as [par' r' sub' n Hn Hy Hsub]; subst.
  apply skel_lookup_Some in Hn as (n0 & Hn0 & ->).
  apply (rows_node _ _ _ _ n0); [done| |].
  - rewrite <- row_y_skel. exact Hy.
  - rewrite Forall_forall in IH, Hsub. apply Forall_forall. intros T HT.
    apply IH; [done|]. by apply Hsub.
Qed.

Lemma neutral_threads self n : neutral self n = true → tl n = None ∧ tr n = None.
Proof.
  unfold neutral. rewrite !andb_true_iff, !bool_decide_eq_true. tauto.
Qed.

Lemma shaped_tree_at σ par T :
  shaped σ par T = true →
  tree_at (skel σ) par T ∧ unthreaded (skel σ) (nodes T).
Proof.
  revert par. induction T as [r sub IH] using tree_ind. intros par Hs.
  simpl in Hs. destruct (σ !! r) as [n|] eqn:Hn; [|done].
  rewrite !andb_true_iff, !bool_decide_eq_true in Hs.
  destruct Hs as (((((Hch & Hpar) & Hw) & Hh) & Hneu) & Hsub).
  rewrite forallb_forall in Hsub.
  assert (Hall : ∀ T, T ∈ sub →
            tree_at (skel σ) (Some r) T ∧ unthreaded (skel σ) (nodes T)).
  { rewrite Forall_forall in IH. intros T HT. apply IH; [done|].
    apply Hsub. by apply list_elem_of_In. }
  split.
  - apply (tree_at_node _ _ _ _ (norm n)); try done.
    + by rewrite skel_lookup, Hn.
    + by apply Qleb_le.
    + apply Forall_forall. intros T HT. by apply Hall.
  - intros p n' Hp Hn'. simpl in Hp. apply elem_of_cons in Hp as [->|Hp].
    + rewrite skel_lookup, Hn in Hn'. injection Hn' as <-.
      by apply neutral_threads in Hneu.
    + apply in_nodes_list in Hp as (T & HT & Hp).
      destruct (Hall T HT) as [_ Hu]. eauto.
Qed.

Lemma tree_ok_skel σ T :
  tree_ok σ T = true →
  tree_at (skel σ) None T ∧ unthreaded (skel σ) (nodes T) ∧ NoDup (nodes T).
Proof.
  unfold tree_ok. rewrite andb_true_iff, bool_decide_eq_true.
  intros [Hs Hnd]. apply shaped_tree_at in Hs as [? ?]. done.
Qed.

(** ** The whole run *)

(** The number of nested calls and of loop rounds that is enough for the
    tree [T]. *)
Lemma firstwalk_runs σ T tr :
  tree_ok σ T = true →
  ∃ s1, firstwalk (S (2 * length (nodes T))) (root_of T) (mkState σ tr)
        = Ok (tt, s1) ∧
    walked (skel σ) (skel (heap s1)) None T ∧
    ∃ W, W ≡ₚ nodes T ∧ ext Fy (λ _, False) W tr (trace s1).
Proof.
  intros Hok. apply tree_ok_skel in Hok as (Htree & Hunth & Hnd).
  destruct (awp_firstwalk T None (S (2 * length (nodes T))) Hnd
              ltac:(lia) (skel σ) tr Htree Hunth ltac:(done)
              (mkState σ tr) eq_refl eq_refl)
    as ([] & s1 & Hrun & Hwalked & W & HW & Hext).
  exists s1. split; [done|]. split; [done|]. exists W. split; [done|].
  eapply ext_mono; [|exact Hext]. done.
Qed.

Lemma secondwalk_runs s1 κ T :
  walked κ (skel (heap s1)) None T → tree_at κ None T →
  ∃ s2, secondwalk (S (2 * length (nodes T))) (root_of T) 0 s1 = Ok (tt, s2) ∧
    skel (heap s2) = skel (heap s1) ∧
    ∃ W, W ≡ₚ nodes T ∧ ext Fx (λ _, False) W (trace s1) (trace s2).
Proof.
  intros (Hfr & _) Htree.
  destruct (awp_secondwalk T None (S (2 * length (nodes T))) 0%Q
              (skel (heap s1)) (trace s1)
              ltac:(by eapply tree_at_frame) ltac:(lia) s1 eq_refl eq_refl)
    as ([] & s2 & Hrun & Hκ & W & HW & Hext).
  eauto 10.
Qed.

(** ** More fuel changes no result *)

Lemma le_M_refl {A} (m : M A) : le_M m m.
Proof. intros s. by right. Qed.

Lemma le_M_bind {A B} (m m' : M A) (k k' : A → M B) :
  le_M m m' → (∀ a, le_M (k a) (k' a)) → le_M (bind m k) (bind m' k').
Proof.
  intros Hm Hk s. unfold bind. destruct (Hm s) as [-> | ->]; [by left|].
  destruct (m' s) as [[a s']|e]; [apply Hk|by right].
Qed.

Lemma separate_loop_mono f : ∀ f' t i v,
  (f ≤ f')%nat → le_M (separate_loop f t i v) (separate_loop f' t i v).
Proof.
  induction f as [|f IH]; intros f' t i v Hf.
  - destruct (sv_sr v) as [s|] eqn:Es, (sv_cl v) as [c|] eqn:Ec.
    + intros st. left. simpl. by rewrite Es, Ec.
    + rewrite !separate_loop_stop by auto. apply le_M_refl.
    + rewrite !separate_loop_stop by auto. apply le_M_refl.
    + rewrite !separate_loop_stop by auto. apply le_M_refl.
  - destruct f' as [|f']; [lia|]. simpl.
    destruct (sv_sr v), (sv_cl v); try apply le_M_refl.
    apply le_M_bind; [apply le_M_refl|]. intros v'. apply IH. lia.
Qed.

Lemma separate_mono f f' t i ih :
  (f ≤ f')%nat → le_M (separate f t i ih) (separate f' t i ih).
Proof.
  intros Hf. unfold separate.
  do 4 (apply le_M_bind; [apply le_M_refl|intros ?]).
  apply le_M_bind; [by apply separate_loop_mono|]. intros v. apply le_M_refl.
Qed.

Lemma firstwalk_rest_mono (walk walk' : ptr → M unit) f f' t :
  (∀ c, le_M (walk c) (walk' c)) → (f ≤ f')%nat →
  ∀ idx ih, le_M (firstwalk_rest walk f t idx ih)
                 (firstwalk_rest walk' f' t idx ih).
Proof.
  intros Hw Hf. induction idx as [|i idx IH]; intros ih; simpl.
  - apply le_M_refl.
  - apply le_M_bind; [apply le_M_refl|intros c].
    apply le_M_bind; [apply Hw|intros _].
    apply le_M_bind; [apply le_M_refl|intros c'].
    apply le_M_bind; [apply le_M_refl|intros b].
    apply le_M_bind; [by apply separate_mono|intros _]. apply IH.
Qed.

Lemma firstwalk_mono f : ∀ f' t,
  (f ≤ f')%nat → le_M (firstwalk f t) (firstwalk f' t).
Proof.
  induction f as [|f IH]; intros f' t Hf.
  - intros s. by left.
  - destruct f' as [|f']; [lia|]. simpl.
    apply le_M_bind; [apply le_M_refl|intros p].
    apply le_M_bind; [apply le_M_refl|intros _].
    apply le_M_bind; [apply le_M_refl|intros n].
    destruct (decide (n = 0)); [apply le_M_refl|].
    apply le_M_bind; [apply le_M_refl|intros c].
    apply le_M_bind; [apply IH; lia|intros _].
    apply le_M_bind; [apply le_M_refl|intros c'].
    apply le_M_bind; [apply le_M_refl|intros b].
    apply le_M_bind; [apply le_M_refl|intros n'].
    apply le_M_bind; [|intros _; apply le_M_refl].
    apply firstwalk_rest_mono; [|lia]. intros c0. apply IH. lia.
Qed.

Lemma for_each_mono (walk walk' : ptr → M unit) cs :
  (∀ c, le_M (walk c) (walk' c)) → le_M (for_each walk cs) (for_each walk' cs).
Proof.
  intros Hw. induction cs as [|c cs IH]; simpl; [apply le_M_refl|].
  apply le_M_bind; [apply Hw|]. intros _. apply IH.
Qed.

Lemma secondwalk_mono f : ∀ f' t modsum,
  (f ≤ f')%nat → le_M (secondwalk f t modsum) (secondwalk f' t modsum).
Proof.
  induction f as [|f IH]; intros f' t modsum Hf.
  - intros s. by left.
  - destruct f' as [|f']; [lia|]. simpl.
    do 5 (apply le_M_bind; [apply le_M_refl|intros ?]).
    apply for_each_mono. intros c. apply IH. lia.
Qed.

Lemma layout_mono f f' t :
  (f ≤ f')%nat → le_M (layout f t) (layout f' t).
Proof.
  intros Hf. unfold layout.
  apply le_M_bind; [by apply firstwalk_mono|]. intros _.
  by apply secondwalk_mono.
Qed.

(** All the fuels that are enough give the same final state. *)
Lemma layout_fuel f f' t s r r' :
  layout f t s = Ok r → layout f' t s = Ok r' → r = r'.
Proof.
  intros H1 H2. destruct (Nat.le_ge_cases f f') as [Hle|Hle].
  - destruct (layout_mono f f' t Hle s) as [E|E]; congruence.
  - destruct (layout_mono f' f t Hle s) as [E|E]; congruence.
Qed.

(** Once some fuel is enough, no fuel leads to another error than
    [OutOfFuel]. *)
Lemma layout_fuel_err f f' t s r e :
  layout f t s = Ok r → layout f' t s = Err e → e = OutOfFuel.
Proof.
  intros H1 H2. destruct (Nat.le_ge_cases f f') as [Hle|Hle].
  - destruct (layout_mono f f' t Hle s) as [E|E]; congruence.
  - destruct (layout_mono f' f t Hle s) as [E|E]; congruence.
Qed.

(** ** What a run on a well-formed tree establishes *)

Lemma count_in_perm (W l : list ptr) n :
  W ≡ₚ l → NoDup l →
  length (filter (λ m, m = n) W) = if decide (n ∈ l) then 1%nat else 0%nat.
Proof.
  intros HW Hnd. rewrite HW. clear W HW.
  induction l as [|a l IH]; [done|].
  apply NoDup_cons in Hnd as [Ha Hnd]. rewrite filter_cons.
  destruct (decide (a = n)) as [->|Hne].
  - rewrite decide_True by apply list_elem_of_here. simpl.
    rewrite IH by done. by rewrite decide_False.
  - rewrite IH by done. destruct (decide (n ∈ l)) as [Hin|Hin].
    + rewrite decide_True; [done|]. by apply list_elem_of_further.
    + rewrite decide_False; [done|]. intros [->|?]%elem_of_cons; done.
Qed.

Lemma layout_total σ T :
  tree_ok σ T = true →
  ∃ s1 s2,
    firstwalk (S (2 * length (nodes T))) (root_of T) (init σ) = Ok (tt, s1) ∧
    secondwalk (S (2 * length (nodes T))) (root_of T) 0 s1 = Ok (tt, s2) ∧
    layout (S (2 * length (nodes T))) (root_of T) (init σ) = Ok (tt, s2) ∧
    same_frame σ (heap s1) ∧ same_frame σ (heap s2) ∧
    rows (heap s2) None T ∧
    (∃ Wy, Wy ≡ₚ nodes T ∧ ext Fy (λ _, False) Wy [] (trace s1)) ∧
    (∃ Wx, Wx ≡ₚ nodes T ∧ ext Fx (λ _, False) Wx (trace s1) (trace s2)).
Proof.
  intros Hok.
  destruct (firstwalk_runs σ T [] Hok) as (s1 & Hrun1 & Hwalked & Hy).
  pose proof (tree_ok_skel σ T Hok) as (Htree & _ & _).
  destruct (secondwalk_runs s1 (skel σ) T Hwalked Htree)
    as (s2 & Hrun2 & Hκ & Hx).
  destruct Hwalked as (Hfr & _ & Hrows & _).
  exists s1, s2. split; [done|]. split; [done|]. split.
  { unfold layout, bind. unfold init. by rewrite Hrun1. }
  split; [by apply same_frame_skel|].
  split; [apply same_frame_skel; by rewrite Hκ|].
  split; [apply rows_skel; by rewrite Hκ|]. done.
Qed.

Lemma shaped_rows_nodes σ0 σ par T :
  shaped σ0 par T = true → same_frame σ0 σ → rows σ par T →
  ∀ n, n ∈ nodes T →
    ∃ nd, σ !! n = Some nd ∧ y nd = row_y σ (parent nd) ∧
      (n = root_of T → parent nd = par) ∧
      (n ≠ root_of T → ∃ p np, parent nd = Some p ∧ σ !! p = Some np).
Proof.
  intros Hs Hfr. revert par Hs. induction T as [r sub IH] using tree_ind.
  intros par Hs Hr n Hn.
  simpl in Hs. destruct (σ0 !! r) as [n0|] eqn:Hn0; [|done].
  rewrite !andb_true_iff, !bool_decide_eq_true in Hs.
  destruct Hs as (((((Hch & Hpar) & Hw) & Hh) & Hneu) & Hsub).
  rewrite forallb_forall in Hsub.
  inversion Hr as [par' r' sub' nd Hnd Hy Hrsub]; subst.
  destruct (same_frame_lookup _ _ _ _ Hfr Hn0) as (nd' & Hnd' & _ & Hp' & _).
  assert (nd' = nd) as -> by congruence.
  simpl in Hn. apply elem_of_cons in Hn as [->|Hn].
  - exists nd. split; [done|]. rewrite Hp'. done.
  - apply in_nodes_list in Hn as (Tj & HTj & Hn).
    rewrite Forall_forall in IH, Hrsub.
    destruct (IH Tj HTj (Some r)) with (n := n) as (ndn & Hndn & Hyn & Hroot & Hnon);
      [apply Hsub; by apply list_elem_of_In|by apply Hrsub|done|].
    exists ndn. split; [done|]. split; [done|]. split.
    + simpl. intros ->. assert (ndn = nd) as -> by congruence.
      by rewrite Hp'.
    + intros _. destruct (decide (n = root_of Tj)) as [E|E]; [|by apply Hnon].
      exists r, nd. split; [by apply Hroot|done].
Qed.

(** ** Row spacing, frame and bounds *)

(** C2: on a well-formed tree [layout] returns, and in the store it leaves
    the root's [y] is 0 and the [y] of every other node is
    [parent.y + parent.h + V_SPACING], whatever fuel the run was given. *)
Theorem layout_row_spacing (σ : gmap ptr Node) (T : tree) :
  tree_ok σ T = true →
  (∃ fuel s', layout fuel (root_of T) (init σ) = Ok (tt, s')) ∧
  ∀ fuel s', layout fuel (root_of T) (init σ) = Ok (tt, s') →
    ∀ n, n ∈ nodes T →
      ∃ nd, heap s' !! n = Some nd ∧
        match parent nd with
        | None => n = root_of T ∧ y nd = 0%Q
        | Some p =>
            n ≠ root_of T ∧
            ∃ np, heap s' !! p = Some np ∧
                  y nd = (y np + h np + V_SPACING)%Q
        end.
Proof.
  intros Hok.
  destruct (layout_total σ T Hok)
    as (s1 & s2 & _ & _ & Hrun & _ & Hfr & Hrows & _).
  split; [eauto|]. intros fuel s' Hrun' n Hn.
  assert (s' = s2) as ->.
  { pose proof (layout_fuel _ _ _ _ _ _ Hrun' Hrun). congruence. }
  pose proof Hok as Hok'. unfold tree_ok in Hok'.
  apply andb_true_iff in Hok' as [Hs _].
  destruct (shaped_rows_nodes σ (heap s2) None T Hs Hfr Hrows n Hn)
    as (nd & Hnd & Hy & Hroot & Hnon).
  exists nd. split; [done|].
  destruct (decide (n = root_of T)) as [E|E].
  - rewrite (Hroot E). rewrite (Hroot E) in Hy. done.
  - destruct (Hnon E) as (p & np & Hp & Hnp). rewrite Hp. rewrite Hp in Hy.
    split; [done|]. exists np. split; [done|].
    unfold row_y in Hy. by rewrite Hnp in Hy.
Qed.

Lemma layout_row_spacing_witness :
  tree_ok tilted tilted_tree = true ∧
  ((∃ fuel s', layout fuel (root_of tilted_tree) (init tilted) = Ok (tt, s')) ∧
   ∀ fuel s', layout fuel (root_of tilted_tree) (init tilted) = Ok (tt, s') →
     ∀ n, n ∈ nodes tilted_tree →
       ∃ nd, heap s' !! n = Some nd ∧
         match parent nd with
         | None => n = root_of tilted_tree ∧ y nd = 0%Q
         | Some p =>
             n ≠ root_of tilted_tree ∧
             ∃ np, heap s' !! p = Some np ∧
                   y nd = (y np + h np + V_SPACING)%Q
         end).
Proof.
  assert (H : tree_ok tilted tilted_tree = true) by (vm_compute; reflexivity).
  split; [exact H|]. exact (layout_row_spacing tilted tilted_tree H).
Defined.

(** C7: on a well-formed tree [layout] returns and leaves the store with
    the same nodes, each with the child vector, the parent link, the [w]
    and the [h] it had; the first walk writes the [y] of every node of the
    tree exactly once and no [x], the second walk writes the [x] of every
    node exactly once and no [y]. *)
Theorem layout_frame (σ : gmap ptr Node) (T : tree) :
  tree_ok σ T = true →
  ∃ fuel s1 s2,
    firstwalk fuel (root_of T) (init σ) = Ok (tt, s1) ∧
    secondwalk fuel (root_of T) 0 s1 = Ok (tt, s2) ∧
    layout fuel (root_of T) (init σ) = Ok (tt, s2) ∧
    (∀ fuel' s', layout fuel' (root_of T) (init σ) = Ok (tt, s') → s' = s2) ∧
    same_frame σ (heap s2) ∧
    ∀ n, n ∈ nodes T →
      nwr Fy n (trace s1) = 1%nat ∧ nwr Fx n (trace s1) = 0%nat ∧
      nwr Fy n (trace s2) = 1%nat ∧ nwr Fx n (trace s2) = 1%nat.
Proof.
  intros Hok.
  destruct (layout_total σ T Hok)
    as (s1 & s2 & Hrun1 & Hrun2 & Hrun & _ & Hfr & _
        & (Wy & HWy & Hexty) & (Wx & HWx & Hextx)).
  pose proof (tree_ok_skel σ T Hok) as (_ & _ & Hnd).
  exists (S (2 * length (nodes T))), s1, s2.
  split; [done|]. split; [done|]. split; [done|]. split.
  { intros fuel' s' Hrun'.
    pose proof (layout_fuel _ _ _ _ _ _ Hrun' Hrun). congruence. }
  split; [done|]. intros n Hn.
  assert (nwr Fy n (trace s1) = 1%nat) as Hy1.
  { rewrite (ext_nwr _ _ _ _ _ n Hexty) by auto.
    rewrite (count_in_perm _ _ _ HWy Hnd). by rewrite decide_True. }
  assert (nwr Fx n (trace s1) = 0%nat) as Hx1.
  { by rewrite (ext_nwr_same Fy Fx _ _ _ _ n Hexty) by auto. }
  split; [done|]. split; [done|]. split.
  - by rewrite (ext_nwr_same Fx Fy _ _ _ _ n Hextx) by auto.
  - rewrite (ext_nwr _ _ _ _ _ n Hextx) by auto.
    rewrite (count_in_perm _ _ _ HWx Hnd), Hx1. by rewrite decide_True.
Qed.

Lemma layout_frame_witness :
  tree_ok tilted tilted_tree = true ∧
  ∃ fuel s1 s2,
    firstwalk fuel (root_of tilted_tree) (init tilted) = Ok (tt, s1) ∧
    secondwalk fuel (root_of tilted_tree) 0 s1 = Ok (tt, s2) ∧
    layout fuel (root_of tilted_tree) (init tilted) = Ok (tt, s2) ∧
    (∀ fuel' s', layout fuel' (root_of tilted_tree) (init tilted) = Ok (tt, s')
                 → s' = s2) ∧
    same_frame tilted (heap s2) ∧
    ∀ n, n ∈ nodes tilted_tree →
      nwr Fy n (trace s1) = 1%nat ∧ nwr Fx n (trace s1) = 0%nat ∧
      nwr Fy n (trace s2) = 1%nat ∧ nwr Fx n (trace s2) = 1%nat.
Proof.
  assert (H : tree_ok tilted tilted_tree = true) by (vm_compute; reflexivity).
  split; [exact H|]. exact (layout_frame tilted tilted_tree H).
Defined.

(** C10: on a well-formed tree [layout] returns when given enough fuel,
    and with no fuel at all does a run end in the out-of-bounds branch of
    an index into a child vector, or on a null pointer. *)
Theorem layout_in_bounds (σ : gmap ptr Node) (T : tree) :
  tree_ok σ T = true →
  (∃ fuel s', layout fuel (root_of T) (init σ) = Ok (tt, s')) ∧
  ∀ fuel,
    layout fuel (root_of T) (init σ) ≠ Err OutOfBounds ∧
    layout fuel (root_of T) (init σ) ≠ Err NullDeref.
Proof.
  intros Hok.
  destruct (layout_total σ T Hok) as (s1 & s2 & _ & _ & Hrun & _).
  split; [eauto|]. intros fuel.
  split; intros Herr;
    by pose proof (layout_fuel_err _ _ _ _ _ _ Hrun Herr).
Qed.

Lemma layout_in_bounds_witness :
  tree_ok tilted tilted_tree = true ∧
  ((∃ fuel s', layout fuel (root_of tilted_tree) (init tilted) = Ok (tt, s')) ∧
   ∀ fuel,
     layout fuel (root_of tilted_tree) (init tilted) ≠ Err OutOfBounds ∧
     layout fuel (root_of tilted_tree) (init tilted) ≠ Err NullDeref).
Proof.
  assert (H : tree_ok tilted tilted_tree = true) by (vm_compute; reflexivity).
  split; [exact H|]. exact (layout_in_bounds tilted tilted_tree H).
Defined.

(** ** Runs on a concrete state: inversion *)

Lemma bind_Ok {A B} (m : M A) (k : A → M B) s r :
  bind m k s = Ok r → ∃ a s1, m s = Ok (a, s1) ∧ k a s1 = Ok r.
Proof.
  unfold bind. destruct (m s) as [[a s1]|e]; [|done]. eauto.
Qed.

Lemma ret_Ok {A} (a : A) s r : ret a s = Ok r → r = (a, s).
Proof. unfold ret. congruence. Qed.

Lemma loadq_Ok f p s v s' :
  loadq f p s = Ok (v, s') →
  ∃ n, heap s !! p = Some n ∧ v = getq f n ∧
       s' = mkState (heap s) (RdQ p f :: trace s).
Proof.
  unfold loadq. destruct (heap s !! p) as [n|]; [|done].
  intros [= <- <-]. eauto.
Qed.

Lemma storeq_Ok f p v s u s' :
  storeq f p v s = Ok (u, s') →
  ∃ n, heap s !! p = Some n ∧
       s' = mkState (<[p := setq f v n]> (heap s)) (WrQ p f :: trace s).
Proof.
  unfold storeq. destruct (heap s !! p) as [n|]; [|done].
  intros [= <-]. eauto.
Qed.

Lemma loadp_Ok f p s v s' :
  loadp f p s = Ok (v, s') →
  ∃ n, heap s !! p = Some n ∧ v = getp f n ∧
       s' = mkState (heap s) (RdP p f :: trace s).
Proof.
  unfold loadp. destruct (heap s !! p) as [n|]; [|done].
  intros [= <- <-]. eauto.
Qed.

Lemma storep_Ok f p v s u s' :
  storep f p v s = Ok (u, s') →
  ∃ n, heap s !! p = Some n ∧
       s' = mkState (<[p := setp f v n]> (heap s)) (WrP p f :: trace s).
Proof.
  unfold storep. destruct (heap s !! p) as [n|]; [|done].
  intros [= <-]. eauto.
Qed.

Lemma kids_Ok p s cs s' :
  kids p s = Ok (cs, s') →
  ∃ n, heap s !! p = Some n ∧ cs = children n ∧
       s' = mkState (heap s) (RdC p :: trace s).
Proof.
  unfold kids. destruct (heap s !! p) as [n|]; [|done].
  intros [= <- <-]. eauto.
Qed.

Lemma nchildren_Ok p s k s' :
  nchildren p s = Ok (k, s') →
  ∃ n, heap s !! p = Some n ∧ k = Z.of_nat (length (children n)) ∧
       s' = mkState (heap s) (RdC p :: trace s).
Proof.
  unfold nchildren. intros (cs & s1 & Hk & Hr)%bind_Ok.
  apply kids_Ok in Hk as (n & Hn & -> & ->). apply ret_Ok in Hr.
  injection Hr as -> ->. eauto.
Qed.

Lemma child_Ok p i s c s' :
  child p i s = Ok (c, s') →
  ∃ n, heap s !! p = Some n ∧ 0 ≤ i ∧ children n !! Z.to_nat i = Some c ∧
       s' = mkState (heap s) (RdC p :: trace s).
Proof.
  unfold child. intros (cs & s1 & Hk & Hr)%bind_Ok.
  apply kids_Ok in Hk as (n & Hn & -> & ->).
  destruct (decide (0 ≤ i)); [|done].
  destruct (children n !! Z.to_nat i) as [c'|] eqn:Hc; [|done].
  apply ret_Ok in Hr. injection Hr as -> ->. eauto.
Qed.

Lemma deref_Ok p s q s' : deref p s = Ok (q, s') → p = Some q ∧ s' = s.
Proof. destruct p as [q'|]; [|done]. simpl. intros [= -> ->]%ret_Ok. done. Qed.

Lemma bottom_Ok p s b s' :
  bottom p s = Ok (b, s') →
  ∃ n, heap s !! p = Some n ∧ b = bot n ∧ heap s' = heap s.
Proof.
  unfold bottom. intros (yv & s1 & Hy & (hv & s2 & Hh & Hr)%bind_Ok)%bind_Ok.
  apply loadq_Ok in Hy as (n & Hn & -> & ->).
  apply loadq_Ok in Hh as (n' & Hn' & -> & ->). simpl in Hn'.
  assert (n' = n) as -> by congruence.
  apply ret_Ok in Hr. injection Hr as -> ->. eauto.
Qed.

Lemma next_left_contour_Ok p s r s' :
  next_left_contour p s = Ok (r, s') →
  ∃ n, heap s !! p = Some n ∧ r = nextl n ∧ heap s' = heap s.
Proof.
  unfold next_left_contour. intros (k & s1 & Hk & Hr)%bind_Ok.
  apply nchildren_Ok in Hk as (n & Hn & -> & ->).
  exists n. split; [done|].
  destruct (decide (Z.of_nat (length (children n)) = 0)) as [E|E].
  - apply length_zero_iff in E.
    apply loadp_Ok in Hr as (n' & Hn' & -> & ->). simpl in Hn'.
    assert (n' = n) as -> by congruence. by rewrite nextl_nil.
  - apply bind_Ok in Hr as (c & s2 & Hc & Hr).
    apply child_Ok in Hc as (n' & Hn' & _ & Hc & ->). simpl in Hn'.
    assert (n' = n) as -> by congruence.
    apply ret_Ok in Hr. injection Hr as -> ->.
    rewrite nextl_first by (by rewrite <- length_zero_iff). done.
Qed.

Lemma next_right_contour_Ok p s r s' :
  next_right_contour p s = Ok (r, s') →
  ∃ n, heap s !! p = Some n ∧ r = nextr n ∧ heap s' = heap s.
Proof.
  unfold next_right_contour. intros (k & s1 & Hk & Hr)%bind_Ok.
  apply nchildren_Ok in Hk as (n & Hn & -> & ->).
  exists n. split; [done|].
  destruct (decide (Z.of_nat (length (children n)) = 0)) as [E|E].
  - apply length_zero_iff in E.
    apply loadp_Ok in Hr as (n' & Hn' & -> & ->). simpl in Hn'.
    assert (n' = n) as -> by congruence. by rewrite nextr_nil.
  - apply bind_Ok in Hr as (k' & s2 & Hk' & Hr).
    apply nchildren_Ok in Hk' as (n' & Hn' & -> & ->). simpl in Hn'.
    assert (n' = n) as -> by congruence.
    apply bind_Ok in Hr as (c & s3 & Hc & Hr).
    apply child_Ok in Hc as (n'' & Hn'' & _ & Hc & ->). simpl in Hn''.
    assert (n'' = n) as -> by congruence.
    apply ret_Ok in Hr. injection Hr as -> ->.
    rewrite nextr_last by (by rewrite <- length_zero_iff).
    replace (pred (length (children n)))
      with (Z.to_nat (Z.of_nat (length (children n)) - 1)) by lia. done.
Qed.

Lemma advance_cursor_Ok sr cursor s c' s' :
  advance_cursor sr cursor s = Ok (c', s') →
  heap s' = heap s ∧ c' `suffix_of` cursor.
Proof.
  revert s. induction cursor as [|e nxt IH]; intros s; simpl.
  - intros [= -> ->]%ret_Ok. done.
  - intros (b & s1 & Hb & Hr)%bind_Ok.
    apply bottom_Ok in Hb as (n & Hn & -> & Hh).
    destruct (Qltb (lowY e) (bot n)).
    + apply IH in Hr as [Hh' Hsuf]. split; [congruence|].
      by apply suffix_cons_r.
    + apply ret_Ok in Hr. injection Hr as -> ->. done.
Qed.

(** ** What a function leaves alone *)

Lemma same_but_refl fs σ : same_but fs σ σ.
Proof. intros p. by destruct (σ !! p). Qed.

Lemma same_but_trans fs σ1 σ2 σ3 :
  same_but fs σ1 σ2 → same_but fs σ2 σ3 → same_but fs σ1 σ3.
Proof.
  intros H1 H2 p. specialize (H1 p). specialize (H2 p).
  destruct (σ1 !! p), (σ2 !! p), (σ3 !! p); try done.
  destruct H1 as (?&Hp1&Hq1), H2 as (?&Hp2&Hq2).
  split; [congruence|]. split.
  - intros g. by rewrite Hp2, Hp1.
  - intros f Hf. by rewrite Hq2, Hq1.
Qed.

Lemma same_but_lookup fs σ σ' p n :
  same_but fs σ σ' → σ !! p = Some n →
  ∃ n', σ' !! p = Some n' ∧ children n' = children n ∧
        (∀ g, getp g n' = getp g n) ∧ (∀ f, f ∉ fs → getq f n' = getq f n).
Proof.
  intros H Hp. specialize (H p). rewrite Hp in H.
  destruct (σ' !! p) as [n'|]; [|done]. eauto.
Qed.

Lemma same_but_setq fs σ f p v n :
  σ !! p = Some n → f ∈ fs → same_but fs σ (<[p := setq f v n]> σ).
Proof.
  intros Hp Hf q. destruct (decide (p = q)) as [<-|Hne].
  - rewrite lookup_insert_eq, Hp. split; [done|]. split.
    + intros g. apply getp_setq.
    + intros f' Hf'. rewrite getq_setq. rewrite decide_False; [done|].
      by intros ->.
  - rewrite lookup_insert_ne by done. by destruct (σ !! q).
Qed.

Lemma keeps_ret {A} fs (a : A) : keeps (same_but fs) (ret a).
Proof. intros s a' s' [= -> ->]%ret_Ok. apply same_but_refl. Qed.

Lemma keeps_bind {A B} fs (m : M A) (k : A → M B) :
  keeps (same_but fs) m → (∀ a, keeps (same_but fs) (k a)) →
  keeps (same_but fs) (bind m k).
Proof.
  intros Hm Hk s b s' (a & s1 & H1 & H2)%bind_Ok.
  eapply same_but_trans; [by eapply Hm|by eapply Hk].
Qed.

Lemma keeps_loadq fs f p : keeps (same_but fs) (loadq f p).
Proof.
  intros s v s' (n & _ & _ & ->)%loadq_Ok. apply same_but_refl.
Qed.

Lemma keeps_loadp fs f p : keeps (same_but fs) (loadp f p).
Proof.
  intros s v s' (n & _ & _ & ->)%loadp_Ok. apply same_but_refl.
Qed.

Lemma keeps_kids fs p : keeps (same_but fs) (kids p).
Proof.
  intros s v s' (n & _ & _ & ->)%kids_Ok. apply same_but_refl.
Qed.

Lemma keeps_nchildren fs p : keeps (same_but fs) (nchildren p).
Proof.
  intros s v s' (n & _ & _ & ->)%nchildren_Ok. apply same_but_refl.
Qed.

Lemma keeps_child fs p i : keeps (same_but fs) (child p i).
Proof.
  intros s v s' (n & _ & _ & _ & ->)%child_Ok. apply same_but_refl.
Qed.

Lemma keeps_storeq fs f p v : f ∈ fs → keeps (same_but fs) (storeq f p v).
Proof.
  intros Hf s u s' (n & Hn & ->)%storeq_Ok. by apply same_but_setq.
Qed.

Ltac in_list :=
  solve [ repeat first [ apply list_elem_of_here | apply list_elem_of_further ] ].

Ltac keeps_tac :=
  repeat first
    [ apply keeps_ret | apply keeps_loadq | apply keeps_loadp
    | apply keeps_kids | apply keeps_child | apply keeps_nchildren
    | apply keeps_storeq; in_list
    | apply keeps_bind; [|intros ?]
    | match goal with
      | |- keeps _ (if ?c then _ else _) => destruct c
      | |- keeps _ (match ?x with _ => _ end) => destruct x
      end ].

Lemma keeps_distribute_extra t i si dist :
  keeps (same_but [Fshift; Fchange]) (distribute_extra t i si dist).
Proof. unfold distribute_extra. keeps_tac. Qed.

Lemma keeps_move_subtree t i si dist :
  keeps (same_but [Fmod; Fmsel; Fmser; Fshift; Fchange])
    (move_subtree t i si dist).
Proof. unfold move_subtree, distribute_extra. keeps_tac. Qed.

Lemma keeps_add_child_spacing_loop t idx : ∀ d msd,
  keeps (same_but [Fmod]) (add_child_spacing_loop t idx d msd).
Proof.
  induction idx as [|i idx IH]; intros d msd; simpl; keeps_tac. apply IH.
Qed.

Lemma keeps_add_child_spacing t :
  keeps (same_but [Fmod]) (add_child_spacing t).
Proof.
  unfold add_child_spacing. keeps_tac. apply keeps_add_child_spacing_loop.
Qed.

(** ** Runs on a concrete state: execution *)

Lemma run_bind {A B} (m : M A) (k : A → M B) s a s1 :
  m s = Ok (a, s1) → bind m k s = k a s1.
Proof. unfold bind. by intros ->. Qed.

Lemma run_loadq f p s n :
  heap s !! p = Some n →
  loadq f p s = Ok (getq f n, mkState (heap s) (RdQ p f :: trace s)).
Proof. unfold loadq. by intros ->. Qed.

Lemma run_storeq f p v s n :
  heap s !! p = Some n →
  storeq f p v s
  = Ok (tt, mkState (<[p := setq f v n]> (heap s)) (WrQ p f :: trace s)).
Proof. unfold storeq. by intros ->. Qed.

Lemma run_child p i s n c :
  heap s !! p = Some n → 0 ≤ i → children n !! Z.to_nat i = Some c →
  child p i s = Ok (c, mkState (heap s) (RdC p :: trace s)).
Proof.
  intros Hp Hi Hc. unfold child, kids, bind. rewrite Hp.
  rewrite decide_True by done. by rewrite Hc.
Qed.

Lemma run_nchildren p s n :
  heap s !! p = Some n →
  nchildren p s
  = Ok (Z.of_nat (length (children n)), mkState (heap s) (RdC p :: trace s)).
Proof. intros Hp. unfold nchildren, kids, bind. by rewrite Hp. Qed.

Ltac lookup :=
  simpl; repeat (rewrite lookup_insert_ne by done);
  first [ eassumption | apply lookup_insert_eq ].

Ltac run_step :=
  first
    [ erewrite run_bind;
        [| first [ eapply run_child; [lookup|lia|eassumption]
                 | eapply run_loadq; lookup
                 | eapply run_storeq; lookup
                 | eapply run_nchildren; lookup ] ]
    | erewrite run_storeq; [|lookup] ];
  cbv beta; cbn [heap trace].

(** C6: [move_subtree(t, i, si, dist)] adds [dist] to the [mod], [msel]
    and [mser] of child [i] and then calls [distribute_extra];
    [distribute_extra] does nothing when [si = i - 1]; otherwise, with
    [count = i - si], it adds [dist / count] to the [shift] of child
    [si + 1], takes [dist / count] from the [shift] of child [i] and takes
    [dist - dist / count] from the [change] of child [i]. *)
Theorem move_subtree_spec (s : state) (t : ptr) (i si : Z) (dist : Q)
    (nt ni n1 : Node) (ci c1 : ptr) :
  heap s !! t = Some nt → t ∉ children nt → NoDup (children nt) →
  0 ≤ si < i →
  children nt !! Z.to_nat i = Some ci → heap s !! ci = Some ni →
  children nt !! Z.to_nat (si + 1) = Some c1 → heap s !! c1 = Some n1 →
  let count := inject_Z (i - si) in
  let moved :=
    setq Fmser (mser ni + dist)%Q
      (setq Fmsel (msel ni + dist)%Q (setq Fmod (mod_ ni + dist)%Q ni)) in
  ∃ sm s',
    heap sm = <[ci := moved]> (heap s) ∧
    distribute_extra t i si dist sm = Ok (tt, s') ∧
    move_subtree t i si dist s = Ok (tt, s') ∧
    (si = i - 1 → s' = sm) ∧
    (si ≠ i - 1 →
       heap s' =
         <[ci := setq Fchange (change ni - (dist - dist / count))%Q
                   (setq Fshift (shift ni - dist / count)%Q moved)]>
           (<[c1 := setq Fshift (shift n1 + dist / count)%Q n1]> (heap s))).
Proof.
  intros Ht Htc Hnd Hsi Hci Hni Hc1 Hn1 count moved.
  assert (t ≠ ci) as Htci.
  { intros ->. apply Htc. by eapply list_elem_of_lookup_2. }
  assert (t ≠ c1) as Htc1.
  { intros ->. apply Htc. by eapply list_elem_of_lookup_2. }
  unfold move_subtree.
  do 9 run_step. rewrite !insert_insert_eq.
  rewrite !getq_setq. repeat rewrite decide_False by done.
  fold moved.
  match goal with
  | |- context [distribute_extra t i si dist ?S = _] => exists S
  end.
  unfold distribute_extra.
  destruct (decide (si ≠ i - 1)) as [Hne|Heq].
  - assert (ci ≠ c1) as Hcc.
    { intros ->.
      pose proof (NoDup_lookup _ _ _ _ Hnd Hci Hc1). lia. }
    do 9 run_step. rewrite !insert_insert_eq.
    eexists. split; [reflexivity|]. split; [reflexivity|].
    split; [reflexivity|]. split; [done|]. intros _. simpl.
    rewrite (insert_insert_ne _ c1 ci) by done.
    rewrite insert_insert_eq. done.
  - eexists. split; [reflexivity|]. split; [reflexivity|].
    split; [reflexivity|]. split; [done|]. intros Hne. lia.
Qed.

Lemma move_subtree_spec_witness :
  let s := init tilted in
  let nt := fresh 0%nat None [1; 2; 3]%nat 10 10 in
  let ni := fresh 3%nat (Some 0%nat) [5%nat] 10 10 in
  let n1 := fresh 2%nat (Some 0%nat) [4%nat] 10 10 in
  let dist := 45%Q in
  let count := inject_Z (2 - 0) in
  let moved :=
    setq Fmser (mser ni + dist)%Q
      (setq Fmsel (msel ni + dist)%Q (setq Fmod (mod_ ni + dist)%Q ni)) in
  (heap s !! 0%nat = Some nt ∧ (0%nat ∉ children nt) ∧ NoDup (children nt) ∧
   0 ≤ 0 < 2 ∧
   children nt !! Z.to_nat 2 = Some 3%nat ∧ heap s !! 3%nat = Some ni ∧
   children nt !! Z.to_nat (0 + 1) = Some 2%nat ∧ heap s !! 2%nat = Some n1) ∧
  ∃ sm s',
    heap sm = <[3%nat := moved]> (heap s) ∧
    distribute_extra 0%nat 2 0 dist sm = Ok (tt, s') ∧
    move_subtree 0%nat 2 0 dist s = Ok (tt, s') ∧
    (0 = 2 - 1 → s' = sm) ∧
    (0 ≠ 2 - 1 →
       heap s' =
         <[3%nat := setq Fchange (change ni - (dist - dist / count))%Q
                      (setq Fshift (shift ni - dist / count)%Q moved)]>
           (<[2%nat := setq Fshift (shift n1 + dist / count)%Q n1]> (heap s))).
Proof.
  intros s nt ni n1 dist count moved.
  assert (H1 : heap s !! 0%nat = Some nt) by (vm_compute; reflexivity).
  assert (H2 : 0%nat ∉ children nt)
    by (apply (bool_decide_unpack _); vm_compute; exact I).
  assert (H3 : NoDup (children nt))
    by (apply (bool_decide_unpack _); vm_compute; exact I).
  assert (H4 : 0 ≤ 0 < 2) by lia.
  assert (H5 : children nt !! Z.to_nat 2 = Some 3%nat) by reflexivity.
  assert (H6 : heap s !! 3%nat = Some ni) by (vm_compute; reflexivity).
  assert (H7 : children nt !! Z.to_nat (0 + 1) = Some 2%nat) by reflexivity.
  assert (H8 : heap s !! 2%nat = Some n1) by (vm_compute; reflexivity).
  split; [done|].
  exact (move_subtree_spec s 0%nat 2 0 dist nt ni n1 3%nat 2%nat
           H1 H2 H3 H4 H5 H6 H7 H8).
Defined.

(** ** One round of the contour loop *)

Lemma same_but_lookup_rev fs σ σ' p n' :
  same_but fs σ σ' → σ' !! p = Some n' →
  ∃ n, σ !! p = Some n ∧ children n' = children n ∧
       (∀ g, getp g n' = getp g n) ∧ (∀ f, f ∉ fs → getq f n' = getq f n).
Proof.
  intros H Hp. specialize (H p). rewrite Hp in H.
  destruct (σ !! p) as [n|]; [|done]. eauto.
Qed.

Lemma same_but_contour fs σ σ' p n n' :
  same_but fs σ σ' → Fy ∉ fs → Fh ∉ fs →
  σ !! p = Some n → σ' !! p = Some n' →
  bot n' = bot n ∧ nextl n' = nextl n ∧ nextr n' = nextr n.
Proof.
  intros H Hy Hh Hp Hp'.
  destruct (same_but_lookup _ _ _ _ _ H Hp) as (n'' & Hn'' & Hch & Hg & Hq).
  assert (n'' = n') as -> by congruence.
  pose proof (Hq Fy Hy) as Ey. pose proof (Hq Fh Hh) as Eh.
  pose proof (Hg Ftl) as Etl. pose proof (Hg Ftr) as Etr. simpl in *.
  unfold bot, nextl, nextr. by rewrite Ey, Eh, Hch, Etl, Etr.
Qed.

Lemma same_but_insert fs σ p n n' :
  σ !! p = Some n → children n' = children n →
  (∀ g, getp g n' = getp g n) → (∀ f, f ∉ fs → getq f n' = getq f n) →
  same_but fs σ (<[p := n']> σ).
Proof.
  intros Hp Hch Hg Hq q. destruct (decide (p = q)) as [<-|Hne].
  - by rewrite lookup_insert_eq, Hp.
  - rewrite lookup_insert_ne by done. by destruct (σ !! q).
Qed.

Ltac not_in_list :=
  let H := fresh in
  intros H; repeat (apply elem_of_cons in H as [H|H]; [discriminate|]);
  by apply elem_of_nil in H.

(** What a call of [move_subtree] that returns has done to child [i]. *)
Lemma move_subtree_Ok t i si dist s s' :
  move_subtree t i si dist s = Ok (tt, s') →
  ∃ nt c n n',
    heap s !! t = Some nt ∧ children nt !! Z.to_nat i = Some c ∧
    heap s !! c = Some n ∧ heap s' !! c = Some n' ∧
    mod_ n' = (mod_ n + dist)%Q ∧ msel n' = (msel n + dist)%Q ∧
    mser n' = (mser n + dist)%Q.
Proof.
  unfold move_subtree. intros H.
  apply bind_Ok in H as (c & s1 & Hc & H).
  apply child_Ok in Hc as (nt & Ht & Hi & Hc & ->).
  apply bind_Ok in H as (v & s2 & Hv & H).
  apply loadq_Ok in Hv as (n & Hn & -> & ->). simpl in Hn.
  apply bind_Ok in H as ([] & s3 & Hst & H).
  apply storeq_Ok in Hst as (n0 & Hn0 & ->). simpl in Hn0.
  assert (n0 = n) as -> by congruence.
  set (σ1 := <[c := setq Fmod (getq Fmod n + dist)%Q n]> (heap s)) in *.
  assert (Hsb1 : same_but [Fmod] (heap s) σ1) by (apply same_but_setq; [done|in_list]).
  (* msel *)
  apply bind_Ok in H as (c2 & s4 & Hc2 & H).
  apply child_Ok in Hc2 as (nt1 & Ht1 & _ & Hc2 & ->). simpl in Ht1.
  destruct (same_but_lookup_rev _ _ _ _ _ Hsb1 Ht1) as (nt' & Ht' & Hch1 & _).
  assert (nt' = nt) as -> by congruence. rewrite Hch1 in Hc2.
  assert (c2 = c) as -> by congruence.
  apply bind_Ok in H as (v & s5 & Hv & H).
  apply loadq_Ok in Hv as (n1 & Hn1 & -> & ->). simpl in Hn1.
  unfold σ1 in Hn1. rewrite lookup_insert_eq in Hn1. injection Hn1 as <-.
  apply bind_Ok in H as ([] & s6 & Hst & H).
  apply storeq_Ok in Hst as (n2 & Hn2 & ->). simpl in Hn2.
  unfold σ1 in Hn2. rewrite lookup_insert_eq in Hn2. injection Hn2 as <-.
  simpl in H. unfold σ1 in H. rewrite insert_insert_eq in H.
  set (m2 := setq Fmsel _ _) in H.
  set (σ2 := <[c := m2]> (heap s)) in *.
  assert (Hsb2 : same_but [Fmod; Fmsel] (heap s) σ2).
  { unfold σ2, m2. eapply (same_but_insert _ _ _ n); [done|done| |].
    - intros g. by rewrite !getp_setq.
    - intros f Hf. rewrite !getq_setq.
      rewrite !decide_False; [done|..]; intros <-; apply Hf; in_list. }
  (* mser *)
  apply bind_Ok in H as (c3 & s7 & Hc3 & H).
  apply child_Ok in Hc3 as (nt2 & Ht2 & _ & Hc3 & ->). simpl in Ht2.
  destruct (same_but_lookup_rev _ _ _ _ _ Hsb2 Ht2) as (nt'' & Ht'' & Hch2 & _).
  assert (nt'' = nt) as -> by congruence. rewrite Hch2 in Hc3.
  assert (c3 = c) as -> by congruence.
  apply bind_Ok in H as (v & s8 & Hv & H).
  apply loadq_Ok in Hv as (n3 & Hn3 & -> & ->). simpl in Hn3.
  unfold σ2 in Hn3. rewrite lookup_insert_eq in Hn3. injection Hn3 as <-.
  apply bind_Ok in H as ([] & s9 & Hst & H).
  apply storeq_Ok in Hst as (n4 & Hn4 & ->). simpl in Hn4.
  unfold σ2 in Hn4. rewrite lookup_insert_eq in Hn4. injection Hn4 as <-.
  simpl in H.
  (* distribute_extra *)
  pose proof (keeps_distribute_extra t i si dist _ _ _ H) as Hsb3.
  simpl in Hsb3.
  destruct (same_but_lookup _ _ _ c _ Hsb3 (lookup_insert_eq _ _ _))
    as (n' & Hn' & _ & _ & Hq).
  exists nt, c, n, n'. repeat split; try done.
  - change (mod_ n') with (getq Fmod n'). rewrite Hq by not_in_list. done.
  - change (msel n') with (getq Fmsel n'). rewrite Hq by not_in_list. done.
  - change (mser n') with (getq Fmser n'). rewrite Hq by not_in_list. done.
Qed.

Lemma state_eta s : mkState (heap s) (trace s) = s.
Proof. by destruct s. Qed.

(** What a round of the contour loop that returns has read, computed and
    done to the store. *)
Lemma separate_body_Ok (t : ptr) (i : Z) (sr cl : ptr) (mssr mscl : Q)
    (cursor : list IYL) (s s' : state) (v' : sep_vars) :
  separate_body t i sr cl mssr mscl cursor s = Ok (v', s') →
  ∃ ns nc,
    heap s !! sr = Some ns ∧ heap s !! cl = Some nc ∧
    let dist := ((mssr + prelim ns + w ns + H_SPACING)
                 - (mscl + prelim nc))%Q in
    let si := match sv_cursor v' with e :: _ => index e | [] => i - 1 end in
    (if Qltb 0 dist
     then ∃ tr sm, move_subtree t i si dist (mkState (heap s) tr) = Ok (tt, sm)
                   ∧ heap s' = heap sm
     else heap s' = heap s) ∧
    sv_sr v' = (if Qleb (bot ns) (bot nc) then nextr ns else Some sr) ∧
    sv_cl v' = (if Qleb (bot nc) (bot ns) then nextl nc else Some cl) ∧
    sv_mssr v' =
      match (if Qleb (bot ns) (bot nc) then nextr ns else None) with
      | Some q => (mssr + modof (heap s') q)%Q
      | None => mssr
      end ∧
    sv_mscl v' =
      let base := if Qltb 0 dist then (mscl + dist)%Q else mscl in
      match (if Qleb (bot nc) (bot ns) then nextl nc else None) with
      | Some q => (base + modof (heap s') q)%Q
      | None => base
      end.
Proof.
  unfold separate_body. intros H.
  apply bind_Ok in H as (cur' & s1 & Hcur & H).
  apply advance_cursor_Ok in Hcur as [Hh1 _].
  apply bind_Ok in H as (sp & s2 & Hsp & H).
  apply loadq_Ok in Hsp as (ns & Hns & -> & ->). rewrite Hh1 in Hns.
  apply bind_Ok in H as (sw & s3 & Hsw & H).
  apply loadq_Ok in Hsw as (ns' & Hns' & -> & ->). simpl in Hns'.
  rewrite Hh1 in Hns'. assert (ns' = ns) as -> by congruence.
  apply bind_Ok in H as (cp & s4 & Hcp & H).
  apply loadq_Ok in Hcp as (nc & Hnc & -> & ->). simpl in Hnc.
  rewrite Hh1 in Hnc.
  exists ns, nc. split; [done|]. split; [done|]. simpl.
  cbn [getq] in H.
  set (dist := ((mssr + prelim ns + w ns + H_SPACING)
                - (mscl + prelim nc))%Q) in *.
  apply bind_Ok in H as (mscl1 & s5 & Hmove & H).
  (* the store after the conditional move *)
  assert (Hmv : (if Qltb 0 dist
                 then ∃ tr sm,
                        move_subtree t i
                          match cur' with e :: _ => index e | [] => i - 1 end
                          dist (mkState (heap s) tr) = Ok (tt, sm)
                        ∧ heap s5 = heap sm
                 else heap s5 = heap s) ∧
                mscl1 = (if Qltb 0 dist then (mscl + dist)%Q else mscl) ∧
                same_but [Fmod; Fmsel; Fmser; Fshift; Fchange]
                  (heap s) (heap s5)).
  { destruct (Qltb 0 dist).
    - apply bind_Ok in Hmove as ([] & s6 & Hmove & Hr).
      apply ret_Ok in Hr. injection Hr as -> ->.
      split; [|split; [done|]].
      + eexists _, _. split; [|reflexivity]. simpl in Hmove. rewrite <- Hh1.
        exact Hmove.
      + pose proof (keeps_move_subtree _ _ _ _ _ _ _ Hmove) as Hk.
        simpl in Hk. by rewrite Hh1 in Hk.
    - apply ret_Ok in Hmove. injection Hmove as -> ->. simpl.
      split; [done|]. split; [done|]. rewrite Hh1. apply same_but_refl. }
  destruct Hmv as (Hmv & -> & Hsb). clear Hmove.
  apply bind_Ok in H as (sy & s6 & Hsy & H).
  apply bottom_Ok in Hsy as (ns5 & Hns5 & -> & Hh6).
  apply bind_Ok in H as (cy & s7 & Hcy & H).
  apply bottom_Ok in Hcy as (nc5 & Hnc5 & -> & Hh7).
  rewrite Hh6 in Hnc5.
  destruct (same_but_contour _ _ _ _ _ _ Hsb ltac:(not_in_list)
              ltac:(not_in_list) Hns Hns5) as (Ebs & _ & Enr).
  destruct (same_but_contour _ _ _ _ _ _ Hsb ltac:(not_in_list)
              ltac:(not_in_list) Hnc Hnc5) as (Ebc & Enl & _).
  rewrite Ebs, Ebc in H.
  apply bind_Ok in H as ([sr' mssr'] & s8 & Hsr & H).
  assert (Hsr' : sr' = (if Qleb (bot ns) (bot nc) then nextr ns else Some sr) ∧
                 mssr' = match (if Qleb (bot ns) (bot nc)
                                then nextr ns else None) with
                         | Some q => (mssr + modof (heap s5) q)%Q
                         | None => mssr
                         end ∧
                 heap s8 = heap s5).
  { destruct (Qleb (bot ns) (bot nc)).
    - apply bind_Ok in Hsr as (nx & s9 & Hnx & Hsr).
      apply next_right_contour_Ok in Hnx as (n' & Hn' & -> & Hh9).
      rewrite Hh7, Hh6 in Hn'. assert (n' = ns5) as -> by congruence.
      rewrite Enr in *. destruct (nextr ns) as [q|].
      + apply bind_Ok in Hsr as (m & s10 & Hm & Hr).
        apply loadq_Ok in Hm as (nq & Hnq & -> & ->).
        apply ret_Ok in Hr. injection Hr as -> -> ->. simpl.
        rewrite Hh9, Hh7, Hh6 in Hnq. unfold modof. rewrite Hnq.
        split; [done|]. split; [done|]. congruence.
      + apply ret_Ok in Hsr. injection Hsr as -> -> ->.
        split; [done|]. split; [done|]. congruence.
    - apply ret_Ok in Hsr. injection Hsr as -> -> ->.
      split; [done|]. split; [done|]. congruence. }
  destruct Hsr' as (-> & -> & Hh8). clear Hsr.
  apply bind_Ok in H as ([cl' mscl'] & s9 & Hcl & H).
  apply ret_Ok in H. injection H as -> ->. simpl.
  assert (Hcl' : cl' = (if Qleb (bot nc) (bot ns) then nextl nc else Some cl) ∧
                 mscl' = match (if Qleb (bot nc) (bot ns)
                                then nextl nc else None) with
                         | Some q =>
                             ((if Qltb 0 dist then mscl + dist else mscl)
                              + modof (heap s5) q)%Q
                         | None => if Qltb 0 dist then (mscl + dist)%Q else mscl
                         end ∧
                 heap s9 = heap s5).
  { destruct (Qleb (bot nc) (bot ns)).
    - apply bind_Ok in Hcl as (nx & s10 & Hnx & Hcl).
      apply next_left_contour_Ok in Hnx as (n' & Hn' & -> & Hh10).
      rewrite Hh8 in Hn'. assert (n' = nc5) as -> by congruence.
      rewrite Enl in *. destruct (nextl nc) as [q|].
      + apply bind_Ok in Hcl as (m & s11 & Hm & Hr).
        apply loadq_Ok in Hm as (nq & Hnq & -> & ->).
        apply ret_Ok in Hr. injection Hr as -> -> ->. simpl.
        rewrite Hh10, Hh8 in Hnq. unfold modof. rewrite Hnq.
        split; [done|]. split; [done|]. congruence.
      + apply ret_Ok in Hcl. injection Hcl as -> -> ->.
        split; [done|]. split; [done|]. congruence.
    - apply ret_Ok in Hcl. injection Hcl as -> -> ->.
      split; [done|]. split; [done|]. congruence. }
  destruct Hcl' as (-> & -> & Hh9). rewrite Hh9.
  split; [|done]. destruct (Qltb 0 dist); [|done].
  destruct Hmv as (tr & sm & Hmv & Hsm). eauto.
Qed.

(** C5: one round of the contour loop of [separate].  The distance is
    [(mssr + sr.prelim + sr.w + H_SPACING) - (mscl + cl.prelim)];
    when it is positive the store changes as by [move_subtree] with
    exactly that distance, and not at all otherwise; then [sr] advances
    along the right contour when [bottom(sr) <= bottom(cl)] and [cl] along
    the left contour when [bottom(sr) >= bottom(cl)], both when the
    bottoms are equal, and the [mod] of a node newly reached is added to
    the running sum of its side. *)
Theorem separate_body_step (t : ptr) (i : Z) (sr cl : ptr) (mssr mscl : Q)
    (cursor : list IYL) (s s' : state) (v' : sep_vars) :
  separate_body t i sr cl mssr mscl cursor s = Ok (v', s') →
  ∃ ns nc,
    heap s !! sr = Some ns ∧ heap s !! cl = Some nc ∧
    let dist := ((mssr + prelim ns + w ns + H_SPACING)
                 - (mscl + prelim nc))%Q in
    let si := match sv_cursor v' with e :: _ => index e | [] => i - 1 end in
    (if Qltb 0 dist
     then ∃ tr sm, move_subtree t i si dist (mkState (heap s) tr) = Ok (tt, sm)
                   ∧ heap s' = heap sm
     else heap s' = heap s) ∧
    sv_sr v' = (if Qleb (bot ns) (bot nc) then nextr ns else Some sr) ∧
    sv_cl v' = (if Qleb (bot nc) (bot ns) then nextl nc else Some cl) ∧
    sv_mssr v' =
      match (if Qleb (bot ns) (bot nc) then nextr ns else None) with
      | Some q => (mssr + modof (heap s') q)%Q
      | None => mssr
      end ∧
    sv_mscl v' =
      let base := if Qltb 0 dist then (mscl + dist)%Q else mscl in
      match (if Qleb (bot nc) (bot ns) then nextl nc else None) with
      | Some q => (base + modof (heap s') q)%Q
      | None => base
      end.
Proof. apply separate_body_Ok. Qed.

Lemma separate_body_step_witness :
  ∃ v' s',
    separate_body 0%nat 1 1%nat 2%nat 0 0 [] (init tilted) = Ok (v', s') ∧
    ∃ ns nc,
      heap (init tilted) !! 1%nat = Some ns ∧
      heap (init tilted) !! 2%nat = Some nc ∧
      let dist := ((0 + prelim ns + w ns + H_SPACING)
                   - (0 + prelim nc))%Q in
      let si := match sv_cursor v' with e :: _ => index e | [] => 1 - 1 end in
      (if Qltb 0 dist
       then ∃ tr sm,
              move_subtree 0%nat 1 si dist (mkState (heap (init tilted)) tr)
              = Ok (tt, sm) ∧ heap s' = heap sm
       else heap s' = heap (init tilted)) ∧
      sv_sr v' = (if Qleb (bot ns) (bot nc) then nextr ns else Some 1%nat) ∧
      sv_cl v' = (if Qleb (bot nc) (bot ns) then nextl nc else Some 2%nat) ∧
      sv_mssr v' =
        match (if Qleb (bot ns) (bot nc) then nextr ns else None) with
        | Some q => (0 + modof (heap s') q)%Q
        | None => 0%Q
        end ∧
      sv_mscl v' =
        let base := if Qltb 0 dist then (0 + dist)%Q else 0%Q in
        match (if Qleb (bot nc) (bot ns) then nextl nc else None) with
        | Some q => (base + modof (heap s') q)%Q
        | None => base
        end.
Proof.
  destruct (separate_body 0%nat 1 1%nat 2%nat 0 0 [] (init tilted))
    as [[v' s']|e] eqn:E.
  - exists v', s'. split; [reflexivity|].
    exact (separate_body_step 0%nat 1 1%nat 2%nat 0 0 [] (init tilted) s' v' E).
  - vm_compute in E. discriminate E.
Defined.

(** C9 fails on the code as stated: the increase need not be strict.  In
    binary64 a call of [move_subtree] with the strictly positive distance
    16 on a child whose [mod], [msel] and [mser] are 1.5e17 leaves all
    three as they were, since 1.5e17 + 16 rounds to 1.5e17. *)
Lemma move_subtree_absorbs_dist :
  let big := double_of_Z 150000000000000000 in
  let n := mkMoved64 big big big in
  let dist := double_of_Z 16 in
  dltb (double_of_Z 0) dist = true ∧
  move_subtree64 n dist = n ∧
  dltb (mod64 n) (mod64 (move_subtree64 n dist)) = false ∧
  dltb (msel64 n) (msel64 (move_subtree64 n dist)) = false ∧
  dltb (mser64 n) (mser64 (move_subtree64 n dist)) = false.
Proof. repeat split; vm_compute; reflexivity. Qed.

(** C9 (amended): the contour loop of [separate] changes the store by
    calls of [move_subtree] only, one in every round that finds a
    strictly positive distance and none in the other rounds; each call is
    made with that distance and adds it to the [mod], [msel] and [mser] of
    the child being placed, which therefore never decrease. *)
Theorem separate_moves_right (fuel : nat) (t : ptr) (i : Z) (v v' : sep_vars)
    (s s' : state) :
  separate_loop fuel t i v s = Ok (v', s') →
  moves t i v (heap s) (heap s').
Proof.
  revert v s. induction fuel as [|fuel IH]; intros v s H.
  - simpl in H. destruct (sv_sr v) eqn:Esr, (sv_cl v) eqn:Ecl; try done;
      apply ret_Ok in H; injection H as -> ->; apply moves_end; auto.
  - simpl in H.
    destruct (sv_sr v) as [sr|] eqn:Esr;
      [|apply ret_Ok in H; injection H as -> ->; apply moves_end; auto].
    destruct (sv_cl v) as [cl|] eqn:Ecl;
      [|apply ret_Ok in H; injection H as -> ->; apply moves_end; auto].
    apply bind_Ok in H as (v1 & s1 & Hbody & Hloop).
    apply IH in Hloop.
    pose proof Hbody as (ns & nc & Hns & Hnc & Hstep)%separate_body_Ok.
    cbv zeta in Hstep. destruct Hstep as (Hmove & _).
    apply (moves_round t i v sr cl ns nc (heap s) v1 (heap s1));
      try done.
    + exists (trace s), s1. by rewrite state_eta.
    + cbv zeta. destruct (Qltb 0 _) eqn:Hpos.
      * destruct Hmove as (tr & sm & Hmove & Hsm).
        apply Qltb_lt in Hpos.
        destruct (move_subtree_Ok _ _ _ _ _ _ Hmove)
          as (nt & c & n & n' & Ht & Hc & Hn & Hn' & Emod & Emsel & Emser).
        exists tr, sm, nt, c, n, n'. rewrite Hsm.
        split; [exact Hpos|]. split; [exact Hmove|].
        repeat split; try done; rewrite ?Emod, ?Emsel, ?Emser; lra.
      * exact Hmove.
Qed.

(** A run with one round, which moves child 1 of [tilted] by 30. *)
Lemma separate_moves_right_witness :
  ∃ v' s',
    separate_loop 5 0%nat 1 (mkSep (Some 1%nat) (Some 2%nat) 0 0 [])
      (init tilted) = Ok (v', s') ∧
    moves 0%nat 1 (mkSep (Some 1%nat) (Some 2%nat) 0 0 [])
      (heap (init tilted)) (heap s').
Proof.
  destruct (separate_loop 5 0%nat 1 (mkSep (Some 1%nat) (Some 2%nat) 0 0 [])
              (init tilted)) as [[v' s']|e] eqn:E.
  - exists v', s'. split; [reflexivity|].
    exact (separate_moves_right 5 0%nat 1 _ v' (init tilted) s' E).
  - vm_compute in E. discriminate E.
Defined.

(** ** The layout of the concrete tree *)

(** C1 fails on the code.  On [tilted], a well-formed tree, [layout]
    returns with the leaves 4 and 5, which lie in the subtrees of the
    siblings 2 and 3, on the same row ([y] = 60) and with overlapping
    boxes: node 4 spans from 105/2 to 305/2, node 5 begins at 150.  The
    skip list is filled with the bottom of each child itself instead of
    the bottom of the child's lowest descendant, so [separate] takes the
    conflict of node 5 with node 4 for a conflict with child 0 and
    [distribute_extra] shifts child 1 with its subtree to the right, into
    the place of node 5. *)
Theorem layout_overlap_on_tilted :
  tree_ok tilted tilted_tree = true ∧
  ∃ s' a b,
    layout 13 (root_of tilted_tree) (init tilted) = Ok (tt, s') ∧
    heap s' !! 4%nat = Some a ∧ heap s' !! 5%nat = Some b ∧
    (y a == 60 ∧ y b == 60 ∧ x a == 105 # 2 ∧ w a == 100 ∧ x b == 150)%Q ∧
    nodes_collide (heap s') 4%nat 5%nat = true ∧
    too_close (heap s') 4%nat 5%nat = true.
Proof.
  split; [vm_compute; reflexivity|].
  assert (Hc : match layout 13 (root_of tilted_tree) (init tilted) with
               | Ok (_, s') =>
                   match heap s' !! 4%nat, heap s' !! 5%nat with
                   | Some a, Some b =>
                       Qeq_bool (y a) 60 && Qeq_bool (y b) 60 &&
                       Qeq_bool (x a) (105 # 2) && Qeq_bool (w a) 100 &&
                       Qeq_bool (x b) 150 &&
                       nodes_collide (heap s') 4%nat 5%nat && too_close (heap s') 4%nat 5%nat
                   | _, _ => false
                   end
               | Err _ => false
               end = true) by (vm_compute; reflexivity).
  destruct (layout 13 (root_of tilted_tree) (init tilted))
    as [[[] s']|e]; [|discriminate].
  destruct (heap s' !! 4%nat) as [a|] eqn:Ha; [|discriminate].
  destruct (heap s' !! 5%nat) as [b|] eqn:Hb; [|discriminate].
  rewrite !andb_true_iff in Hc.
  destruct Hc as ((((((H1 & H2) & H3) & H4) & H5) & H6) & H7).
  apply Qeq_bool_iff in H1, H2, H3, H4, H5.
  exists s', a, b. done.
Qed.

(** C4 as stated fails on the code.  On [tilted], after the first walk,
    [add_child_spacing] on the root leaves the [shift] of child 2 at 45/2
    and the [change] of child 3 at -45/2; nothing sets them back to 0, and
    they have these values still when [layout] returns. *)
Lemma shift_not_reset_on_tilted :
  tree_ok tilted tilted_tree = true ∧
  (∃ s1 s2 a b,
     firstwalk 13 (root_of tilted_tree) (init tilted) = Ok (tt, s1) ∧
     add_child_spacing (root_of tilted_tree) s1 = Ok (tt, s2) ∧
     heap s2 !! 2%nat = Some a ∧ heap s2 !! 3%nat = Some b ∧
     (shift a == 45 # 2)%Q ∧ (change b == - (45 # 2))%Q ∧
     ¬ (shift a == 0)%Q ∧ ¬ (change b == 0)%Q) ∧
  (∃ s' a b,
     layout 13 (root_of tilted_tree) (init tilted) = Ok (tt, s') ∧
     heap s' !! 2%nat = Some a ∧ heap s' !! 3%nat = Some b ∧
     ¬ (shift a == 0)%Q ∧ ¬ (change b == 0)%Q).
Proof.
  split; [vm_compute; reflexivity|]. split.
  - assert (Hc : match firstwalk 13 (root_of tilted_tree) (init tilted) with
                 | Ok (_, s1) =>
                     match add_child_spacing (root_of tilted_tree) s1 with
                     | Ok (_, s2) =>
                         match heap s2 !! 2%nat, heap s2 !! 3%nat with
                         | Some a, Some b =>
                             Qeq_bool (shift a) (45 # 2) &&
                             Qeq_bool (change b) (- (45 # 2))
                         | _, _ => false
                         end
                     | Err _ => false
                     end
                 | Err _ => false
                 end = true) by (vm_compute; reflexivity).
    destruct (firstwalk 13 (root_of tilted_tree) (init tilted))
      as [[[] s1]|e]; [|discriminate].
    destruct (add_child_spacing (root_of tilted_tree) s1)
      as [[[] s2]|e] eqn:E2; [|discriminate].
    destruct (heap s2 !! 2%nat) as [a|] eqn:Ha; [|discriminate].
    destruct (heap s2 !! 3%nat) as [b|] eqn:Hb; [|discriminate].
    apply andb_true_iff in Hc as [H1 H2]. apply Qeq_bool_iff in H1, H2.
    exists s1, s2, a, b.
    split; [done|]. split; [done|]. split; [done|]. split; [done|].
    split; [done|]. split; [done|]. split; intros E; lra.
  - assert (Hc : match layout 13 (root_of tilted_tree) (init tilted) with
                 | Ok (_, s') =>
                     match heap s' !! 2%nat, heap s' !! 3%nat with
                     | Some a, Some b =>
                         Qeq_bool (shift a) (45 # 2) &&
                         Qeq_bool (change b) (- (45 # 2))
                     | _, _ => false
                     end
                 | Err _ => false
                 end = true) by (vm_compute; reflexivity).
    destruct (layout 13 (root_of tilted_tree) (init tilted))
      as [[[] s']|e]; [|discriminate].
    destruct (heap s' !! 2%nat) as [a|] eqn:Ha; [|discriminate].
    destruct (heap s' !! 3%nat) as [b|] eqn:Hb; [|discriminate].
    apply andb_true_iff in Hc as [H1 H2]. apply Qeq_bool_iff in H1, H2.
    exists s', a, b.
    split; [done|]. split; [done|]. split; [done|]. split; intros E; lra.
Qed.

(** ** [add_child_spacing] *)

Lemma add_child_spacing_loop_run t nt :
  ∀ rest_c rest_n done_c d msd s,
    heap s !! t = Some nt → children nt = done_c ++ rest_c →
    t ∉ rest_c → NoDup rest_c →
    Forall2 (λ c n, heap s !! c = Some n) rest_c rest_n →
    ∃ s',
      add_child_spacing_loop t
        (seqZ (Z.of_nat (length done_c)) (Z.of_nat (length rest_c))) d msd s
      = Ok (tt, s') ∧
      (∀ k c n δ,
         rest_c !! k = Some c → rest_n !! k = Some n →
         spacing d msd rest_n !! k = Some δ →
         heap s' !! c = Some (setq Fmod (mod_ n + δ)%Q n)) ∧
      (∀ p, p ∉ rest_c → heap s' !! p = heap s !! p).
Proof.
  induction rest_c as [|c cs IH];
    intros rest_n done_c d msd s Ht Hch Htn Hnd Hall.
  - simpl. exists s. split; [done|]. split; [|done].
    intros k c n δ Hk. done.
  - apply Forall2_cons_inv_l in Hall as (n & nsr & Hn & Hall & ->).
    apply NoDup_cons in Hnd as [Hc Hnd].
    apply not_elem_of_cons in Htn as [Htc Htn].
    rewrite seqZ_cons by (simpl; lia).
    replace (Z.succ (Z.of_nat (length done_c)))
      with (Z.of_nat (length (done_c ++ [c])))
      by (rewrite length_app; simpl; lia).
    replace (Z.pred (Z.of_nat (length (c :: cs))))
      with (Z.of_nat (length cs)) by (simpl; lia).
    simpl add_child_spacing_loop.
    assert (Hci : children nt !! Z.to_nat (Z.of_nat (length done_c)) = Some c).
    { rewrite Nat2Z.id, Hch. by rewrite list_lookup_middle. }
    do 7 run_step.
    set (d' := (d + getq Fshift n)%Q).
    set (msd' := (msd + (d' + getq Fchange n))%Q).
    set (s1 := mkState _ _).
    destruct (IH nsr (done_c ++ [c]) d' msd' s1) as (s' & Hrun & Hres & Hout).
    + unfold s1. simpl. by rewrite lookup_insert_ne.
    + by rewrite <- app_assoc.
    + done.
    + done.
    + apply Forall2_same_length_lookup.
      apply Forall2_same_length_lookup in Hall as [Hlen Hall].
      split; [done|]. intros k c' n' Hk Hn'. unfold s1. simpl.
      rewrite lookup_insert_ne; [by eapply Hall|].
      intros ->. apply Hc. by eapply list_elem_of_lookup_2.
    + exists s'. split; [exact Hrun|]. split.
      * intros [|k] c' n' δ Hk Hn' Hδ; simpl in *.
        -- injection Hk as <-. injection Hn' as <-. injection Hδ as <-.
           rewrite Hout by done. unfold s1. simpl. apply lookup_insert_eq.
        -- by eapply Hres.
      * intros p Hp. apply not_elem_of_cons in Hp as [Hpc Hp].
        rewrite Hout by done. unfold s1. simpl. by rewrite lookup_insert_ne.
Qed.

(** [add_child_spacing] returns, having added to the [mod] of each child
    the running sum of the code, and it writes nothing else. *)
Lemma add_child_spacing_run (s : state) (t : ptr) (nt : Node)
    (ns : list Node) :
  heap s !! t = Some nt → t ∉ children nt → NoDup (children nt) →
  Forall2 (λ c n, heap s !! c = Some n) (children nt) ns →
  ∃ s',
    add_child_spacing t s = Ok (tt, s') ∧
    (∀ k c n δ,
       children nt !! k = Some c → ns !! k = Some n →
       spacing 0 0 ns !! k = Some δ →
       heap s' !! c = Some (setq Fmod (mod_ n + δ)%Q n)) ∧
    (∀ p, p ∉ children nt → heap s' !! p = heap s !! p) ∧
    (∀ p n, heap s !! p = Some n →
       ∃ n', heap s' !! p = Some n' ∧
             shift n' = shift n ∧ change n' = change n).
Proof.
  intros Ht Htn Hnd Hall. unfold add_child_spacing. run_step.
  destruct (add_child_spacing_loop_run t nt (children nt) ns [] 0%Q 0%Q
              (mkState (heap s) (RdC t :: trace s)))
    as (s' & Hrun & Hres & Hout); try done.
  exists s'. simpl in Hrun. split; [exact Hrun|].
  split; [exact Hres|]. split; [exact Hout|].
  intros p n Hp.
  pose proof (keeps_add_child_spacing_loop _ _ _ _ _ _ _ Hrun) as Hk.
  simpl in Hk.
  destruct (same_but_lookup _ _ _ _ _ Hk Hp) as (n' & Hn' & _ & _ & Hq).
  exists n'. split; [done|]. split.
  - apply (Hq Fshift). not_in_list.
  - apply (Hq Fchange). not_in_list.
Qed.

(** ** The store around the tree *)

Lemma frames_ret {A} (a : A) : frames (ret a).
Proof. intros σ1 σ2 tr a' s1 [= -> ->]%ret_Ok. done. Qed.

Lemma frames_fail {A} e : frames (@fail A e).
Proof. intros σ1 σ2 tr a' s1 H. done. Qed.

Lemma frames_bind {A B} (m : M A) (k : A → M B) :
  frames m → (∀ a, frames (k a)) → frames (bind m k).
Proof.
  intros Hm Hk σ1 σ2 tr b s2 (a & [σ1' tr1] & H1 & H2)%bind_Ok.
  destruct (Hm _ σ2 _ _ _ H1) as [Hd1 Hu1]. simpl in *.
  destruct (Hk a _ σ2 _ _ _ H2) as [Hd2 Hu2].
  split; [congruence|]. intros Hdis.
  unfold bind. rewrite (Hu1 Hdis). simpl. apply Hu2.
  apply map_disjoint_dom. rewrite Hd1. by apply map_disjoint_dom.
Qed.

Lemma frames_loadq f p : frames (loadq f p).
Proof.
  intros σ1 σ2 tr v s1 (n & Hn & -> & ->)%loadq_Ok. simpl in *.
  split; [done|]. intros Hdis. unfold loadq. simpl.
  by rewrite (lookup_union_Some_l _ _ _ _ Hn).
Qed.

Lemma frames_loadp f p : frames (loadp f p).
Proof.
  intros σ1 σ2 tr v s1 (n & Hn & -> & ->)%loadp_Ok. simpl in *.
  split; [done|]. intros Hdis. unfold loadp. simpl.
  by rewrite (lookup_union_Some_l _ _ _ _ Hn).
Qed.

Lemma frames_kids p : frames (kids p).
Proof.
  intros σ1 σ2 tr v s1 (n & Hn & -> & ->)%kids_Ok. simpl in *.
  split; [done|]. intros Hdis. unfold kids. simpl.
  by rewrite (lookup_union_Some_l _ _ _ _ Hn).
Qed.

Lemma frames_storeq f p v : frames (storeq f p v).
Proof.
  intros σ1 σ2 tr u s1 (n & Hn & ->)%storeq_Ok. simpl in *.
  split; [apply dom_insert_lookup_L; eauto|]. intros Hdis.
  unfold storeq. simpl. rewrite (lookup_union_Some_l _ _ _ _ Hn).
  destruct u. by rewrite insert_union_l.
Qed.

Lemma frames_storep f p v : frames (storep f p v).
Proof.
  intros σ1 σ2 tr u s1 (n & Hn & ->)%storep_Ok. simpl in *.
  split; [apply dom_insert_lookup_L; eauto|]. intros Hdis.
  unfold storep. simpl. rewrite (lookup_union_Some_l _ _ _ _ Hn).
  destruct u. by rewrite insert_union_l.
Qed.

Create HintDb frames discriminated.
#[local] Hint Resolve frames_ret frames_fail frames_loadq frames_loadp
  frames_kids frames_storeq frames_storep : frames.

Ltac frames_tac :=
  repeat first
    [ assumption
    | solve [ auto 1 with frames nocore ]
    | apply frames_bind; [|intros ?]
    | match goal with
      | |- frames (if ?c then _ else _) => destruct c
      | |- frames (match ?x with _ => _ end) => destruct x
      | |- frames (let '(_, _) := ?x in _) => destruct x
      end ].

Lemma frames_nchildren p : frames (nchildren p).
Proof. unfold nchildren. frames_tac. Qed.

Lemma frames_child p i : frames (child p i).
Proof. unfold child. frames_tac. Qed.

Lemma frames_deref p : frames (deref p).
Proof. unfold deref. frames_tac. Qed.

Lemma frames_bottom p : frames (bottom p).
Proof. unfold bottom. frames_tac. Qed.

#[local] Hint Resolve frames_nchildren frames_child frames_deref
  frames_bottom : frames.

Lemma frames_next_left_contour p : frames (next_left_contour p).
Proof. unfold next_left_contour. frames_tac. Qed.
#[local] Hint Resolve frames_next_left_contour : frames.

Lemma frames_next_right_contour p : frames (next_right_contour p).
Proof. unfold next_right_contour. frames_tac. Qed.
#[local] Hint Resolve frames_next_right_contour : frames.

Lemma frames_set_extremes t : frames (set_extremes t).
Proof. unfold set_extremes. frames_tac. Qed.
#[local] Hint Resolve frames_set_extremes : frames.

Lemma frames_position_root t : frames (position_root t).
Proof. unfold position_root. frames_tac. Qed.
#[local] Hint Resolve frames_position_root : frames.

Lemma frames_distribute_extra t i si dist : frames (distribute_extra t i si dist).
Proof. unfold distribute_extra. frames_tac. Qed.
#[local] Hint Resolve frames_distribute_extra : frames.

Lemma frames_move_subtree t i si dist : frames (move_subtree t i si dist).
Proof. unfold move_subtree. frames_tac. Qed.
#[local] Hint Resolve frames_move_subtree : frames.

Lemma frames_set_left_thread t i cl m : frames (set_left_thread t i cl m).
Proof. unfold set_left_thread. frames_tac. Qed.
#[local] Hint Resolve frames_set_left_thread : frames.

Lemma frames_set_right_thread t i sr m : frames (set_right_thread t i sr m).
Proof. unfold set_right_thread. frames_tac. Qed.
#[local] Hint Resolve frames_set_right_thread : frames.

Lemma frames_advance_cursor sr cursor : frames (advance_cursor sr cursor).
Proof. induction cursor as [|e nxt IH]; simpl; frames_tac. Qed.
#[local] Hint Resolve frames_advance_cursor : frames.

Lemma frames_separate_body t i sr cl mssr mscl cursor :
  frames (separate_body t i sr cl mssr mscl cursor).
Proof. unfold separate_body. frames_tac. Qed.
#[local] Hint Resolve frames_separate_body : frames.

Lemma frames_separate_loop fuel : ∀ t i v, frames (separate_loop fuel t i v).
Proof.
  induction fuel as [|fuel IH]; intros t i v; simpl;
    destruct (sv_sr v), (sv_cl v); frames_tac.
Qed.
#[local] Hint Resolve frames_separate_loop : frames.

Lemma frames_separate fuel t i ih : frames (separate fuel t i ih).
Proof. unfold separate. frames_tac. Qed.
#[local] Hint Resolve frames_separate : frames.

Lemma frames_firstwalk_rest walk fuel t :
  (∀ c, frames (walk c)) →
  ∀ idx ih, frames (firstwalk_rest walk fuel t idx ih).
Proof.
  intros Hw. induction idx as [|i idx IH]; intros ih; simpl; frames_tac;
    try apply Hw; try apply IH.
Qed.

Lemma frames_firstwalk fuel : ∀ t, frames (firstwalk fuel t).
Proof.
  induction fuel as [|fuel IH]; intros t; simpl; frames_tac;
    try apply IH; try (apply frames_firstwalk_rest; apply IH).
Qed.

Lemma frames_add_child_spacing_loop t idx : ∀ d msd,
  frames (add_child_spacing_loop t idx d msd).
Proof.
  induction idx as [|i idx IH]; intros d msd; simpl; frames_tac.
Qed.
#[local] Hint Resolve frames_add_child_spacing_loop : frames.

Lemma frames_add_child_spacing t : frames (add_child_spacing t).
Proof. unfold add_child_spacing. frames_tac. Qed.
#[local] Hint Resolve frames_add_child_spacing : frames.

Lemma frames_for_each walk cs :
  (∀ c, frames (walk c)) → frames (for_each walk cs).
Proof.
  intros Hw. induction cs as [|c cs IH]; simpl; frames_tac; try apply Hw.
Qed.

Lemma frames_secondwalk fuel : ∀ t modsum, frames (secondwalk fuel t modsum).
Proof.
  induction fuel as [|fuel IH]; intros t modsum; simpl; frames_tac;
    try (apply frames_for_each; intros c; apply IH).
Qed.

Lemma frames_layout fuel t : frames (layout fuel t).
Proof.
  unfold layout. apply frames_bind; [apply frames_firstwalk|].
  intros _. apply frames_secondwalk.
Qed.

(** ** The old outputs *)

Lemma rsafe_suffix tr tr' : tr `suffix_of` tr' → rsafe tr' → rsafe tr.
Proof.
  intros [evs ->]. induction evs as [|e evs IH]; [done|].
  simpl. intros [_ H]. by apply IH.
Qed.

Lemma known_cons_inv e tr q g :
  known (e :: tr) q g → e ≠ WrQ q g → known tr q g.
Proof.
  intros Hk Hne. destruct g; try done; simpl in Hk;
    rewrite decide_False in Hk by done; simpl; lia.
Qed.

Lemma alike_read s s' e :
  (∀ q g, e ≠ WrQ q g) → alike s s' →
  alike (mkState (heap s) (e :: trace s)) (mkState (heap s') (e :: trace s')).
Proof.
  intros He [Htr Hh]. split; [simpl; by rewrite Htr|].
  intros p. specialize (Hh p). simpl.
  destruct (heap s !! p) as [n|], (heap s' !! p) as [n'|]; try done.
  destruct Hh as (Hc & Hg & Hq). split; [done|]. split; [done|].
  intros f Hk. apply Hq. eapply known_cons_inv; [exact Hk|apply He].
Qed.

Lemma alike_lookup s s' p n :
  alike s s' → heap s !! p = Some n →
  ∃ n', heap s' !! p = Some n' ∧ children n = children n' ∧
        (∀ g, getp g n = getp g n') ∧
        (∀ f, known (trace s) p f → getq f n = getq f n').
Proof.
  intros [_ Hh] Hp. specialize (Hh p). rewrite Hp in Hh.
  destruct (heap s' !! p) as [n'|]; [|done]. eauto.
Qed.

Lemma oblivious_ret {A} (a : A) : oblivious (ret a).
Proof.
  split.
  - intros s a' s1 [= -> ->]%ret_Ok. done.
  - intros s s' a' s1 Hal [= -> ->]%ret_Ok _. by exists s'.
Qed.

Lemma oblivious_fail {A} e : oblivious (@fail A e).
Proof. split; intros; done. Qed.

Lemma oblivious_bind {A B} (m : M A) (k : A → M B) :
  oblivious m → (∀ a, oblivious (k a)) → oblivious (bind m k).
Proof.
  intros [Hm1 Hm2] Hk. split.
  - intros s b s2 (a & s1 & H1 & H2)%bind_Ok.
    etrans; [by eapply Hm1|]. destruct (Hk a) as [Hk1 _]. by eapply Hk1.
  - intros s s' b s2 Hal (a & s1 & H1 & H2)%bind_Ok Hsafe.
    destruct (Hk a) as [Hk1 Hk2].
    destruct (Hm2 s s' a s1 Hal H1) as (s1' & H1' & Hal1).
    { eapply rsafe_suffix; [by eapply Hk1|done]. }
    destruct (Hk2 s1 s1' b s2 Hal1 H2 Hsafe) as (s2' & H2' & Hal2).
    exists s2'. split; [|done]. unfold bind. by rewrite H1'.
Qed.

Lemma oblivious_loadq f p : oblivious (loadq f p).
Proof.
  split.
  - intros s v s1 (n & _ & _ & ->)%loadq_Ok. simpl. by apply suffix_cons_r.
  - intros s s' v s1 Hal (n & Hn & -> & ->)%loadq_Ok Hsafe. simpl in Hsafe.
    destruct (alike_lookup _ _ _ _ Hal Hn) as (n' & Hn' & _ & _ & Hq).
    assert (getq f n = getq f n') as Ev.
    { apply Hq. destruct Hsafe as [Hr _]. by destruct f. }
    eexists. split.
    + unfold loadq. rewrite Hn', <- Ev. reflexivity.
    + apply alike_read; [done|done].
Qed.

Lemma oblivious_loadp f p : oblivious (loadp f p).
Proof.
  split.
  - intros s v s1 (n & _ & _ & ->)%loadp_Ok. simpl. by apply suffix_cons_r.
  - intros s s' v s1 Hal (n & Hn & -> & ->)%loadp_Ok Hsafe.
    destruct (alike_lookup _ _ _ _ Hal Hn) as (n' & Hn' & _ & Hg & _).
    eexists. split.
    + unfold loadp. rewrite Hn', <- Hg. reflexivity.
    + apply alike_read; [done|done].
Qed.

Lemma oblivious_kids p : oblivious (kids p).
Proof.
  split.
  - intros s v s1 (n & _ & _ & ->)%kids_Ok. simpl. by apply suffix_cons_r.
  - intros s s' v s1 Hal (n & Hn & -> & ->)%kids_Ok Hsafe.
    destruct (alike_lookup _ _ _ _ Hal Hn) as (n' & Hn' & Hc & _ & _).
    eexists. split.
    + unfold kids. rewrite Hn', <- Hc. reflexivity.
    + apply alike_read; [done|done].
Qed.

Lemma oblivious_storeq f p v : oblivious (storeq f p v).
Proof.
  split.
  - intros s u s1 (n & _ & ->)%storeq_Ok. simpl. by apply suffix_cons_r.
  - intros s s' [] s1 Hal (n & Hn & ->)%storeq_Ok Hsafe.
    destruct (alike_lookup _ _ _ _ Hal Hn) as (n' & Hn' & Hc & Hg & Hq).
    eexists. split.
    + unfold storeq. rewrite Hn'. reflexivity.
    + destruct Hal as [Htr Hh]. split; [simpl; by rewrite Htr|].
      intros q. simpl. destruct (decide (p = q)) as [<-|Hne].
      * rewrite !lookup_insert_eq. split; [done|]. split.
        -- intros g. by rewrite !getp_setq.
        -- intros g Hk. rewrite !getq_setq.
           destruct (decide (f = g)) as [->|Hfg]; [done|].
           apply Hq. eapply known_cons_inv; [exact Hk|]. congruence.
      * rewrite !lookup_insert_ne by done. specialize (Hh q).
        destruct (heap s !! q) as [m|], (heap s' !! q) as [m'|]; try done.
        destruct Hh as (Hc' & Hg' & Hq'). split; [done|]. split; [done|].
        intros g Hk. apply Hq'. eapply known_cons_inv; [exact Hk|].
        congruence.
Qed.

Lemma oblivious_storep f p v : oblivious (storep f p v).
Proof.
  split.
  - intros s u s1 (n & _ & ->)%storep_Ok. simpl. by apply suffix_cons_r.
  - intros s s' [] s1 Hal (n & Hn & ->)%storep_Ok Hsafe.
    destruct (alike_lookup _ _ _ _ Hal Hn) as (n' & Hn' & Hc & Hg & Hq).
    eexists. split.
    + unfold storep. rewrite Hn'. reflexivity.
    + destruct Hal as [Htr Hh]. split; [simpl; by rewrite Htr|].
      intros q. simpl. destruct (decide (p = q)) as [<-|Hne].
      * rewrite !lookup_insert_eq. split; [done|]. split.
        -- intros g. rewrite !getp_setp. by destruct (decide (f = g)).
        -- intros g Hk. rewrite !getq_setp.
           apply Hq. eapply known_cons_inv; [exact Hk|]. done.
      * rewrite !lookup_insert_ne by done. specialize (Hh q).
        destruct (heap s !! q) as [m|], (heap s' !! q) as [m'|]; done.
Qed.

Create HintDb oblivious discriminated.
#[local] Hint Resolve oblivious_ret oblivious_fail oblivious_loadq
  oblivious_loadp oblivious_kids oblivious_storeq oblivious_storep
  : oblivious.

Ltac oblivious_tac :=
  repeat first
    [ assumption
    | solve [ auto 1 with oblivious nocore ]
    | apply oblivious_bind; [|intros ?]
    | match goal with
      | |- oblivious (if ?c then _ else _) => destruct c
      | |- oblivious (match ?x with _ => _ end) => destruct x
      | |- oblivious (let '(_, _) := ?x in _) => destruct x
      end ].

Lemma oblivious_nchildren p : oblivious (nchildren p).
Proof. unfold nchildren. oblivious_tac. Qed.
#[local] Hint Resolve oblivious_nchildren : oblivious.

Lemma oblivious_child p i : oblivious (child p i).
Proof. unfold child. oblivious_tac. Qed.
#[local] Hint Resolve oblivious_child : oblivious.

Lemma oblivious_deref p : oblivious (deref p).
Proof. unfold deref. oblivious_tac. Qed.
#[local] Hint Resolve oblivious_deref : oblivious.

Lemma oblivious_bottom p : oblivious (bottom p).
Proof. unfold bottom. oblivious_tac. Qed.
#[local] Hint Resolve oblivious_bottom : oblivious.

Lemma oblivious_next_left_contour p : oblivious (next_left_contour p).
Proof. unfold next_left_contour. oblivious_tac. Qed.
#[local] Hint Resolve oblivious_next_left_contour : oblivious.

Lemma oblivious_next_right_contour p : oblivious (next_right_contour p).
Proof. unfold next_right_contour. oblivious_tac. Qed.
#[local] Hint Resolve oblivious_next_right_contour : oblivious.

Lemma oblivious_set_extremes t : oblivious (set_extremes t).
Proof. unfold set_extremes. oblivious_tac. Qed.
#[local] Hint Resolve oblivious_set_extremes : oblivious.

Lemma oblivious_position_root t : oblivious (position_root t).
Proof. unfold position_root. oblivious_tac. Qed.
#[local] Hint Resolve oblivious_position_root : oblivious.

Lemma oblivious_distribute_extra t i si dist :
  oblivious (distribute_extra t i si dist).
Proof. unfold distribute_extra. oblivious_tac. Qed.
#[local] Hint Resolve oblivious_distribute_extra : oblivious.

Lemma oblivious_move_subtree t i si dist : oblivious (move_subtree t i si dist).
Proof. unfold move_subtree. oblivious_tac. Qed.
#[local] Hint Resolve oblivious_move_subtree : oblivious.

Lemma oblivious_set_left_thread t i cl m : oblivious (set_left_thread t i cl m).
Proof. unfold set_left_thread. oblivious_tac. Qed.
#[local] Hint Resolve oblivious_set_left_thread : oblivious.

Lemma oblivious_set_right_thread t i sr m :
  oblivious (set_right_thread t i sr m).
Proof. unfold set_right_thread. oblivious_tac. Qed.
#[local] Hint Resolve oblivious_set_right_thread : oblivious.

Lemma oblivious_advance_cursor sr cursor : oblivious (advance_cursor sr cursor).
Proof. induction cursor as [|e nxt IH]; simpl; oblivious_tac. Qed.
#[local] Hint Resolve oblivious_advance_cursor : oblivious.

Lemma oblivious_separate_body t i sr cl mssr mscl cursor :
  oblivious (separate_body t i sr cl mssr mscl cursor).
Proof. unfold separate_body. oblivious_tac. Qed.
#[local] Hint Resolve oblivious_separate_body : oblivious.

Lemma oblivious_separate_loop fuel : ∀ t i v,
  oblivious (separate_loop fuel t i v).
Proof.
  induction fuel as [|fuel IH]; intros t i v; simpl;
    destruct (sv_sr v), (sv_cl v); oblivious_tac.
Qed.
#[local] Hint Resolve oblivious_separate_loop : oblivious.

Lemma oblivious_separate fuel t i ih : oblivious (separate fuel t i ih).
Proof. unfold separate. oblivious_tac. Qed.
#[local] Hint Resolve oblivious_separate : oblivious.

Lemma oblivious_firstwalk_rest walk fuel t :
  (∀ c, oblivious (walk c)) →
  ∀ idx ih, oblivious (firstwalk_rest walk fuel t idx ih).
Proof.
  intros Hw. induction idx as [|i idx IH]; intros ih; simpl; oblivious_tac;
    try apply Hw; try apply IH.
Qed.

Lemma oblivious_firstwalk fuel : ∀ t, oblivious (firstwalk fuel t).
Proof.
  induction fuel as [|fuel IH]; intros t; simpl; oblivious_tac;
    try apply IH; try (apply oblivious_firstwalk_rest; apply IH).
Qed.

Lemma oblivious_add_child_spacing_loop t idx : ∀ d msd,
  oblivious (add_child_spacing_loop t idx d msd).
Proof.
  induction idx as [|i idx IH]; intros d msd; simpl; oblivious_tac.
Qed.
#[local] Hint Resolve oblivious_add_child_spacing_loop : oblivious.

Lemma oblivious_add_child_spacing t : oblivious (add_child_spacing t).
Proof. unfold add_child_spacing. oblivious_tac. Qed.
#[local] Hint Resolve oblivious_add_child_spacing : oblivious.

Lemma oblivious_for_each walk cs :
  (∀ c, oblivious (walk c)) → oblivious (for_each walk cs).
Proof.
  intros Hw. induction cs as [|c cs IH]; simpl; oblivious_tac; try apply Hw.
Qed.

Lemma oblivious_secondwalk fuel : ∀ t modsum,
  oblivious (secondwalk fuel t modsum).
Proof.
  induction fuel as [|fuel IH]; intros t modsum; simpl; oblivious_tac;
    try (apply oblivious_for_each; intros c; apply IH).
Qed.

Lemma oblivious_layout fuel t : oblivious (layout fuel t).
Proof.
  unfold layout. apply oblivious_bind; [apply oblivious_firstwalk|].
  intros _. apply oblivious_secondwalk.
Qed.

(** ** The tree and the rest of the store *)

Lemma lookup_only l (σ : gmap ptr Node) p :
  only l σ !! p = if decide (p ∈ l) then σ !! p else None.
Proof.
  unfold only. destruct (decide (p ∈ l)) as [Hin|Hin].
  - destruct (σ !! p) as [n|] eqn:Hp.
    + by apply map_lookup_filter_Some_2.
    + apply map_lookup_filter_None_2. by left.
  - apply map_lookup_filter_None_2. right. intros n _. done.
Qed.

Lemma lookup_others l (σ : gmap ptr Node) p :
  others l σ !! p = if decide (p ∈ l) then None else σ !! p.
Proof.
  unfold others. destruct (decide (p ∈ l)) as [Hin|Hin].
  - apply map_lookup_filter_None_2. right. intros n _. simpl. by intros ?.
  - destruct (σ !! p) as [n|] eqn:Hp.
    + by apply map_lookup_filter_Some_2.
    + apply map_lookup_filter_None_2. by left.
Qed.

Lemma lookup_reset l (σ : gmap ptr Node) p :
  reset l σ !! p
  = (λ n, if decide (p ∈ l) then reset_node p n else n) <$> σ !! p.
Proof. unfold reset. rewrite map_lookup_imap. by destruct (σ !! p). Qed.

Lemma only_others l (σ : gmap ptr Node) : only l σ ∪ others l σ = σ.
Proof.
  apply map_eq. intros p. rewrite lookup_union, lookup_only, lookup_others.
  destruct (decide (p ∈ l)), (σ !! p); done.
Qed.

Lemma only_disjoint l (σ σ' : gmap ptr Node) :
  dom σ' = dom (only l σ) → σ' ##ₘ others l σ.
Proof.
  intros Hd. apply map_disjoint_spec. intros p n m Hn Hm.
  assert (p ∈ dom (only l σ)) as Hin.
  { rewrite <- Hd. apply elem_of_dom. eauto. }
  apply elem_of_dom in Hin as [n' Hn'].
  rewrite lookup_only in Hn'. rewrite lookup_others in Hm.
  destruct (decide (p ∈ l)); done.
Qed.

Lemma dom_reset l (σ : gmap ptr Node) : dom (reset l σ) = dom σ.
Proof.
  apply set_eq. intros p. rewrite !elem_of_dom, lookup_reset.
  by rewrite fmap_is_Some.
Qed.

Lemma reset_union l (σ1 σ : gmap ptr Node) :
  dom σ1 = dom (only l σ) →
  reset l (σ1 ∪ others l σ) = reset l σ1 ∪ others l σ.
Proof.
  intros Hd. apply map_eq. intros p.
  rewrite lookup_reset, !lookup_union, lookup_reset, lookup_others.
  destruct (σ1 !! p) as [n|] eqn:Hn; simpl.
  - by destruct (decide (p ∈ l)); destruct (σ !! p).
  - destruct (decide (p ∈ l)); [done|]. by destruct (σ !! p).
Qed.

(** ** The precondition, from one store to another *)

Lemma shaped_neutral σ T : ∀ par p,
  shaped σ par T = true → p ∈ nodes T →
  ∃ n, σ !! p = Some n ∧ neutral p n = true.
Proof.
  induction T as [r sub IH] using tree_ind. intros par p Hs Hp.
  simpl in Hs. destruct (σ !! r) as [n|] eqn:Hn; [|done].
  rewrite !andb_true_iff in Hs.
  destruct Hs as (((((Hch & Hpar) & Hw) & Hh) & Hneu) & Hsub).
  rewrite forallb_forall in Hsub. simpl in Hp.
  apply elem_of_cons in Hp as [->|Hp]; [eauto|].
  apply in_nodes_list in Hp as (T & HT & Hp).
  rewrite Forall_forall in IH. eapply IH; [done| |done].
  apply Hsub. by apply list_elem_of_In.
Qed.

Lemma shaped_transfer σ σ' T : ∀ par,
  (∀ p n, p ∈ nodes T → σ !! p = Some n → neutral p n = true →
     ∃ n', σ' !! p = Some n' ∧ children n' = children n ∧
           parent n' = parent n ∧ w n' = w n ∧ h n' = h n ∧
           neutral p n' = true) →
  shaped σ par T = true → shaped σ' par T = true.
Proof.
  induction T as [r sub IH] using tree_ind. intros par Hlk Hs.
  simpl in Hs. destruct (σ !! r) as [n|] eqn:Hn; [|done].
  rewrite !andb_true_iff in Hs.
  destruct Hs as (((((Hch & Hpar) & Hw) & Hh) & Hneu) & Hsub).
  destruct (Hlk r n) as (n' & Hn' & Ec & Ep & Ew & Eh & Hneu');
    [apply (root_in_nodes (Tr r sub))|done|done|].
  simpl. rewrite Hn', Ec, Ep, Ew, Eh, Hch, Hpar, Hw, Hh, Hneu'. simpl.
  rewrite forallb_forall in Hsub. apply forallb_forall. intros T HT.
  rewrite Forall_forall in IH. apply list_elem_of_In in HT.
  apply IH; [done| |apply Hsub; by apply list_elem_of_In].
  intros p m Hp. apply Hlk. simpl. apply list_elem_of_further.
  apply in_nodes_list. eauto.
Qed.

Lemma tree_ok_only σ T :
  tree_ok σ T = true → tree_ok (only (nodes T) σ) T = true.
Proof.
  unfold tree_ok. rewrite !andb_true_iff. intros [Hs Hnd]. split; [|done].
  eapply shaped_transfer; [|exact Hs]. intros p n Hp Hn Hneu.
  exists n. rewrite lookup_only, decide_True by done. done.
Qed.

Lemma neutral_reset_node p n : neutral p (reset_node p n) = true.
Proof. unfold neutral, reset_node. simpl. by rewrite !bool_decide_eq_true_2. Qed.

Lemma tree_ok_reset σ σ' T :
  same_frame σ σ' → tree_ok σ T = true →
  tree_ok (reset (nodes T) σ') T = true.
Proof.
  unfold tree_ok. rewrite !andb_true_iff. intros Hfr [Hs Hnd].
  split; [|done]. eapply shaped_transfer; [|exact Hs].
  intros p n Hp Hn Hneu.
  destruct (same_frame_lookup _ _ _ _ Hfr Hn) as (n' & Hn' & Ec & Ep & Ew & Eh).
  exists (reset_node p n'). rewrite lookup_reset, Hn'. simpl.
  rewrite decide_True by done. split; [done|].
  split; [done|]. split; [done|]. split; [done|]. split; [done|].
  apply neutral_reset_node.
Qed.

(** A neutral node and a reset one with the same inputs agree on all
    fields but [x] and [y]. *)
Lemma neutral_reset_alike p n n' :
  neutral p n = true →
  children n' = children n → parent n' = parent n → w n' = w n → h n' = h n →
  children n = children (reset_node p n') ∧
  (∀ g, getp g n = getp g (reset_node p n')) ∧
  (∀ f, known [] p f → getq f n = getq f (reset_node p n')).
Proof.
  unfold neutral. rewrite !andb_true_iff, !bool_decide_eq_true.
  intros (((((((((E1 & E2) & E3) & E4) & E5) & E6) & E7) & E8) & E9) & E10)
    Ec Ep Ew Eh.
  split; [done|]. split.
  - intros g. destruct g; simpl; congruence.
  - intros f Hk. destruct f; simpl in *; try congruence; lia.
Qed.

(** ** Running [layout] again *)

(** On a store that holds the tree and nothing else. *)
Lemma layout_again_only σ T :
  tree_ok σ T = true → (∀ p n, σ !! p = Some n → p ∈ nodes T) →
  ∃ s1 s2,
    layout (S (2 * length (nodes T))) (root_of T) (init σ) = Ok (tt, s1) ∧
    layout (S (2 * length (nodes T))) (root_of T)
      (init (reset (nodes T) (heap s1))) = Ok (tt, s2) ∧
    same_frame σ (heap s1) ∧
    ∀ n, n ∈ nodes T → ∃ a b,
      heap s1 !! n = Some a ∧ heap s2 !! n = Some b ∧
      x b = x a ∧ y b = y a.
Proof.
  intros Hok Honly.
  destruct (layout_total σ T Hok)
    as (s0 & s1 & _ & _ & Hrun & _ & Hfr & _
        & (Wy & HWy & Hexty) & (Wx & HWx & Hextx)).
  pose proof (tree_ok_skel σ T Hok) as (_ & _ & Hnd).
  assert (rsafe (trace s1)) as Hsafe.
  { eapply ext_rsafe; [exact Hextx|auto|done|].
    eapply ext_rsafe; [exact Hexty|auto|done|done]. }
  assert (∀ n, n ∈ nodes T →
            known (trace s1) n Fx ∧ known (trace s1) n Fy) as Hknown.
  { intros n Hn. simpl. split.
    - rewrite (ext_nwr _ _ _ _ _ n Hextx) by auto.
      rewrite (count_in_perm _ _ _ HWx Hnd), decide_True by done. lia.
    - rewrite (ext_nwr_same Fx Fy _ _ _ _ n Hextx) by auto.
      rewrite (ext_nwr _ _ _ _ _ n Hexty) by auto.
      rewrite (count_in_perm _ _ _ HWy Hnd), decide_True by done. lia. }
  assert (alike (init σ) (init (reset (nodes T) (heap s1)))) as Hal.
  { split; [done|]. intros p. simpl. rewrite lookup_reset.
    specialize (Hfr p).
    destruct (σ !! p) as [n|] eqn:Hn, (heap s1 !! p) as [n'|] eqn:Hn';
      try done.
    simpl. destruct Hfr as (Ec & Ep & Ew & Eh).
    destruct (decide (p ∈ nodes T)) as [Hp|Hp].
    - unfold tree_ok in Hok. apply andb_true_iff in Hok as [Hs _].
      destruct (shaped_neutral _ _ _ _ Hs Hp) as (m & Hm & Hneu).
      rewrite Hn in Hm. injection Hm as <-.
      by apply neutral_reset_alike.
    - by apply Honly in Hn. }
  destruct (oblivious_layout (S (2 * length (nodes T))) (root_of T))
    as [_ Hob].
  destruct (Hob _ _ _ _ Hal Hrun Hsafe) as (s2 & Hrun2 & [_ Hal2]).
  exists s1, s2. split; [done|]. split; [done|]. split; [done|].
  intros n Hn. specialize (Hal2 n).
  destruct (heap s1 !! n) as [a|] eqn:Ha, (heap s2 !! n) as [b|] eqn:Hb;
    try done.
  - destruct Hal2 as (_ & _ & Hq). destruct (Hknown n Hn) as [Hx Hy].
    exists a, b. split; [done|]. split; [done|].
    split; [symmetry; apply (Hq Fx Hx)|symmetry; apply (Hq Fy Hy)].
  - exfalso. unfold tree_ok in Hok. apply andb_true_iff in Hok as [Hs _].
    destruct (shaped_neutral _ _ _ _ Hs Hn) as (m & Hm & _).
    specialize (Hfr n). rewrite Hm, Ha in Hfr. done.
Qed.

(** C8: on a well-formed tree [layout] returns; with the working fields of
    every node of the tree then reset to their neutral values (structure,
    [w], [h] and all the rest of the store kept) the precondition holds
    again, [layout] returns again, and every node of the tree has the same
    [x] and the same [y] after the second run as after the first. *)
Theorem layout_idempotent (σ : gmap ptr Node) (T : tree) :
  tree_ok σ T = true →
  ∃ fuel s1 s2,
    layout fuel (root_of T) (init σ) = Ok (tt, s1) ∧
    tree_ok (reset (nodes T) (heap s1)) T = true ∧
    layout fuel (root_of T) (init (reset (nodes T) (heap s1))) = Ok (tt, s2) ∧
    ∀ n, n ∈ nodes T → ∃ a b,
      heap s1 !! n = Some a ∧ heap s2 !! n = Some b ∧
      x b = x a ∧ y b = y a.
Proof.
  intros Hok. set (l := nodes T). set (fuel := S (2 * length (nodes T))).
  destruct (layout_again_only (only l σ) T (tree_ok_only σ T Hok))
    as (r1 & r2 & Hrun1 & Hrun2 & Hfr & Hxy).
  { intros p n Hp. rewrite lookup_only in Hp.
    by destruct (decide (p ∈ l)). }
  destruct (frames_layout fuel (root_of T) (only l σ) (others l σ) []
              tt r1 Hrun1) as [Hd1 Hfull1].
  specialize (Hfull1 (only_disjoint l σ (only l σ) eq_refl)).
  rewrite only_others in Hfull1.
  destruct (frames_layout fuel (root_of T) (reset l (heap r1)) (others l σ) []
              tt r2 Hrun2) as [Hd2 Hfull2].
  rewrite dom_reset in Hd2.
  specialize (Hfull2 ltac:(apply only_disjoint; by rewrite dom_reset)).
  rewrite <- reset_union in Hfull2 by done.
  exists fuel, (mkState (heap r1 ∪ others l σ) (trace r1)),
    (mkState (heap r2 ∪ others l σ) (trace r2)).
  split; [done|]. split.
  { eapply tree_ok_reset; [|exact Hok]. simpl.
    intros p. specialize (Hfr p). rewrite lookup_union.
    rewrite lookup_only in Hfr. rewrite lookup_others.
    destruct (decide (p ∈ l)).
    - destruct (σ !! p), (heap r1 !! p); done.
    - destruct (heap r1 !! p); [done|]. destruct (σ !! p); done. }
  split; [done|]. intros n Hn.
  destruct (Hxy n Hn) as (a & b & Ha & Hb & Ex & Ey).
  exists a, b. simpl.
  split; [by apply lookup_union_Some_l|].
  split; [by apply lookup_union_Some_l|]. done.
Qed.

Lemma layout_idempotent_witness :
  tree_ok tilted tilted_tree = true ∧
  ∃ fuel s1 s2,
    layout fuel (root_of tilted_tree) (init tilted) = Ok (tt, s1) ∧
    tree_ok (reset (nodes tilted_tree) (heap s1)) tilted_tree = true ∧
    layout fuel (root_of tilted_tree)
      (init (reset (nodes tilted_tree) (heap s1))) = Ok (tt, s2) ∧
    ∀ n, n ∈ nodes tilted_tree → ∃ a b,
      heap s1 !! n = Some a ∧ heap s2 !! n = Some b ∧
      x b = x a ∧ y b = y a.
Proof.
  assert (tree_ok tilted tilted_tree = true) as Hok by (by vm_compute).
  split; [exact Hok|]. exact (layout_idempotent tilted tilted_tree Hok).
Defined.

(** * Further properties of the functions *)

(** ** The cursor into the skip list *)

Lemma run_bottom p s n :
  heap s !! p = Some n →
  bottom p s
  = Ok (bot n, mkState (heap s) (RdQ p Fh :: RdQ p Fy :: trace s)).
Proof.
  intros Hp. unfold bottom. do 2 run_step. done.
Qed.

(** The inner loop of [separate] reads [bottom(sr)] and nothing else, and
    leaves the store as it is; it passes over the entries whose [lowY] is
    strictly less than [bottom(sr)] and stops at the first entry that is
    not, or at the end of the list. *)
Theorem advance_cursor_skips (sr : ptr) (n : Node) (cursor : list IYL)
    (s : state) :
  heap s !! sr = Some n →
  ∃ skipped rest tr',
    advance_cursor sr cursor s = Ok (rest, mkState (heap s) tr') ∧
    cursor = skipped ++ rest ∧
    Forall (λ e, (lowY e < bot n)%Q) skipped ∧
    match rest with
    | e :: _ => (bot n <= lowY e)%Q
    | [] => True
    end.
Proof.
  revert s. induction cursor as [|e nxt IH]; intros s Hn.
  - exists [], [], (trace s). simpl. unfold ret. by destruct s.
  - simpl. erewrite run_bind by (by apply run_bottom). cbv beta.
    destruct (Qltb (lowY e) (bot n)) eqn:E.
    + destruct (IH (mkState (heap s) (RdQ sr Fh :: RdQ sr Fy :: trace s)) Hn)
        as (skipped & rest & tr' & Hrun & -> & Hsk & Hrest).
      exists (e :: skipped), rest, tr'. split; [exact Hrun|].
      split; [done|]. split; [|done].
      constructor; [by apply Qltb_lt|done].
    + exists [], (e :: nxt), (RdQ sr Fh :: RdQ sr Fy :: trace s).
      split; [done|]. split; [done|]. split; [constructor|].
      by apply Qltb_ge.
Qed.

Lemma advance_cursor_skips_witness :
  heap (init tilted) !! 1%nat = Some (fresh 1%nat (Some 0%nat) [] 10 100) ∧
  ∃ skipped rest tr',
    advance_cursor 1%nat [mkIYL 50 0; mkIYL 200 1] (init tilted)
    = Ok (rest, mkState (heap (init tilted)) tr') ∧
    [mkIYL 50 0; mkIYL 200 1] = skipped ++ rest ∧
    Forall (λ e, (lowY e < bot (fresh 1%nat (Some 0%nat) [] 10 100))%Q) skipped ∧
    match rest with
    | e :: _ => (bot (fresh 1%nat (Some 0%nat) [] 10 100) <= lowY e)%Q
    | [] => True
    end.
Proof.
  assert (heap (init tilted) !! 1%nat = Some (fresh 1%nat (Some 0%nat) [] 10 100))
    as H by (vm_compute; reflexivity).
  split; [exact H|].
  exact (advance_cursor_skips 1%nat _ [mkIYL 50 0; mkIYL 200 1] (init tilted) H).
Defined.

(** ** The parent over its children *)

Lemma last_lookup_Z {A} (l : list A) (a : A) :
  last l = Some a → l !! Z.to_nat (Z.of_nat (length l) - 1) = Some a.
Proof.
  rewrite last_lookup. intros H.
  replace (Z.to_nat (Z.of_nat (length l) - 1)) with (pred (length l)) by lia.
  done.
Qed.

(** [position_root] writes the [prelim] of [t] and nothing else.  The
    value is the expression of the source over the [prelim] and [mod] of
    the first child, the [mod], [prelim] and [w] of the last child (the
    same node when there is one child only) and the [w] of [t], all as
    they were before the write. *)
Theorem position_root_store (t c0 cl : ptr) (nt n0 nl : Node) (s : state) :
  heap s !! t = Some nt →
  children nt !! 0%nat = Some c0 → last (children nt) = Some cl →
  heap s !! c0 = Some n0 → heap s !! cl = Some nl →
  ∃ tr',
    position_root t s
    = Ok (tt, mkState
                (<[t := setq Fprelim
                          ((prelim n0 + mod_ n0 + mod_ nl + prelim nl + w nl)
                           / 2 - w nt / 2)%Q nt]> (heap s)) tr').
Proof.
  intros Ht Hc0 Hcl Hn0 Hnl. apply last_lookup_Z in Hcl.
  pose proof (lookup_lt_Some _ _ _ Hc0) as Hlen.
  unfold position_root. repeat run_step.
  eexists. reflexivity.
Qed.

Lemma position_root_store_witness :
  ∃ tr',
    position_root 0%nat (init tilted)
    = Ok (tt, mkState
                (<[0%nat := setq Fprelim
                    ((prelim (fresh 1%nat (Some 0%nat) [] 10 100)
                      + mod_ (fresh 1%nat (Some 0%nat) [] 10 100)
                      + mod_ (fresh 3%nat (Some 0%nat) [5%nat] 10 10)
                      + prelim (fresh 3%nat (Some 0%nat) [5%nat] 10 10)
                      + w (fresh 3%nat (Some 0%nat) [5%nat] 10 10))
                     / 2 - w (fresh 0%nat None [1; 2; 3]%nat 10 10) / 2)%Q
                    (fresh 0%nat None [1; 2; 3]%nat 10 10)]>
                   (heap (init tilted))) tr').
Proof.
  exact (position_root_store 0%nat 1%nat 3%nat
           (fresh 0%nat None [1; 2; 3]%nat 10 10)
           (fresh 1%nat (Some 0%nat) [] 10 100)
           (fresh 3%nat (Some 0%nat) [5%nat] 10 10) (init tilted)
           ltac:(vm_compute; reflexivity) ltac:(reflexivity)
           ltac:(reflexivity) ltac:(vm_compute; reflexivity)
           ltac:(vm_compute; reflexivity)).
Defined.

(** ** Extremes *)

Lemma run_loadp f p s n :
  heap s !! p = Some n →
  loadp f p s = Ok (getp f n, mkState (heap s) (RdP p f :: trace s)).
Proof. unfold loadp. by intros ->. Qed.

Lemma run_storep f p v s n :
  heap s !! p = Some n →
  storep f p v s
  = Ok (tt, mkState (<[p := setp f v n]> (heap s)) (WrP p f :: trace s)).
Proof. unfold storep. by intros ->. Qed.

Ltac kids_simpl :=
  repeat first [ rewrite children_setq | rewrite children_setp ].

Ltac run_stepp :=
  kids_simpl;
  first
    [ erewrite run_bind;
        [| first [ eapply run_child;
                     [lookup
                     |lia
                     |kids_simpl; eassumption]
                 | eapply run_loadq; lookup
                 | eapply run_storeq; lookup
                 | eapply run_nchildren; lookup
                 | eapply run_loadp; lookup
                 | eapply run_storep; lookup ] ]
    | erewrite run_storeq; [|lookup]
    | erewrite run_storep; [|lookup] ];
  cbv beta; cbn [heap trace].

(** On a node without children [set_extremes] makes the node its own
    left and right extreme, with both sums of modifiers at 0; it writes
    nothing else. *)
Theorem set_extremes_leaf (t : ptr) (nt : Node) (s : state) :
  heap s !! t = Some nt → children nt = [] →
  ∃ tr',
    set_extremes t s
    = Ok (tt, mkState
                (<[t := setq Fmsel 0 (setq Fmser 0
                          (setp Fer (Some t) (setp Fel (Some t) nt)))]>
                   (heap s)) tr').
Proof.
  intros Ht Hch. unfold set_extremes. run_stepp. rewrite Hch. simpl.
  repeat run_stepp. rewrite !insert_insert_eq. eexists. reflexivity.
Qed.

Lemma set_extremes_leaf_witness :
  ∃ tr',
    set_extremes 4%nat (init tilted)
    = Ok (tt, mkState
                (<[4%nat := setq Fmsel 0 (setq Fmser 0
                          (setp Fer (Some 4%nat) (setp Fel (Some 4%nat)
                             (fresh 4%nat (Some 2%nat) [] 100 10))))]>
                   (heap (init tilted))) tr').
Proof.
  exact (set_extremes_leaf 4%nat (fresh 4%nat (Some 2%nat) [] 100 10)
           (init tilted) ltac:(vm_compute; reflexivity) eq_refl).
Defined.

(** On a node with children [set_extremes] copies the left extreme and
    its sum of modifiers from the first child and the right extreme and
    its sum from the last child; it writes nothing else. *)
Theorem set_extremes_inner (t c0 cl : ptr) (nt n0 nl : Node) (s : state) :
  heap s !! t = Some nt →
  children nt !! 0%nat = Some c0 → last (children nt) = Some cl →
  t ≠ c0 → t ≠ cl →
  heap s !! c0 = Some n0 → heap s !! cl = Some nl →
  ∃ tr',
    set_extremes t s
    = Ok (tt, mkState
                (<[t := setq Fmser (mser nl) (setp Fer (er nl)
                          (setq Fmsel (msel n0) (setp Fel (el n0) nt)))]>
                   (heap s)) tr').
Proof.
  intros Ht Hc0 Hcl Htc0 Htcl Hn0 Hnl. apply last_lookup_Z in Hcl.
  pose proof (lookup_lt_Some _ _ _ Hc0) as Hlen.
  unfold set_extremes. run_stepp.
  rewrite decide_False by lia.
  repeat run_stepp. rewrite !insert_insert_eq. eexists. reflexivity.
Qed.

Lemma set_extremes_inner_witness :
  ∃ tr',
    set_extremes 0%nat (init tilted)
    = Ok (tt, mkState
                (<[0%nat :=
                     setq Fmser (mser (fresh 3%nat (Some 0%nat) [5%nat] 10 10))
                       (setp Fer (er (fresh 3%nat (Some 0%nat) [5%nat] 10 10))
                          (setq Fmsel (msel (fresh 1%nat (Some 0%nat) [] 10 100))
                             (setp Fel (el (fresh 1%nat (Some 0%nat) [] 10 100))
                                (fresh 0%nat None [1; 2; 3]%nat 10 10))))]>
                   (heap (init tilted))) tr').
Proof.
  exact (set_extremes_inner 0%nat 1%nat 3%nat
           (fresh 0%nat None [1; 2; 3]%nat 10 10)
           (fresh 1%nat (Some 0%nat) [] 10 100)
           (fresh 3%nat (Some 0%nat) [5%nat] 10 10) (init tilted)
           ltac:(vm_compute; reflexivity) ltac:(reflexivity)
           ltac:(reflexivity) ltac:(done) ltac:(done)
           ltac:(vm_compute; reflexivity) ltac:(vm_compute; reflexivity)).
Defined.

(** ** Field by field *)

Lemma fq_storeq σ p f v n q f' :
  σ !! p = Some n →
  fq (<[p := setq f v n]> σ) q f'
  = if decide (p = q ∧ f = f') then Some v else fq σ q f'.
Proof.
  intros Hp. unfold fq. destruct (decide (p = q)) as [<-|Hne].
  - rewrite lookup_insert_eq, Hp. simpl. rewrite getq_setq.
    destruct (decide (f = f')) as [->|Hf].
    + by rewrite decide_True.
    + rewrite decide_False; [done|]. by intros [_ ?].
  - rewrite lookup_insert_ne by done.
    rewrite decide_False; [done|]. by intros [? _].
Qed.

Lemma fq_storep σ p g v n q f :
  σ !! p = Some n → fq (<[p := setp g v n]> σ) q f = fq σ q f.
Proof.
  intros Hp. unfold fq. destruct (decide (p = q)) as [<-|Hne].
  - rewrite lookup_insert_eq, Hp. simpl. by rewrite getq_setp.
  - by rewrite lookup_insert_ne.
Qed.

Lemma fp_storep σ p g v n q g' :
  σ !! p = Some n →
  fp (<[p := setp g v n]> σ) q g'
  = if decide (p = q ∧ g = g') then Some v else fp σ q g'.
Proof.
  intros Hp. unfold fp. destruct (decide (p = q)) as [<-|Hne].
  - rewrite lookup_insert_eq, Hp. simpl. rewrite getp_setp.
    destruct (decide (g = g')) as [->|Hf].
    + by rewrite decide_True.
    + rewrite decide_False; [done|]. by intros [_ ?].
  - rewrite lookup_insert_ne by done.
    rewrite decide_False; [done|]. by intros [? _].
Qed.

Lemma fp_storeq σ p f v n q g :
  σ !! p = Some n → fp (<[p := setq f v n]> σ) q g = fp σ q g.
Proof.
  intros Hp. unfold fp. destruct (decide (p = q)) as [<-|Hne].
  - rewrite lookup_insert_eq, Hp. simpl. by rewrite getp_setq.
  - by rewrite lookup_insert_ne.
Qed.

Lemma fk_storeq σ p f v n q :
  σ !! p = Some n → fk (<[p := setq f v n]> σ) q = fk σ q.
Proof.
  intros Hp. unfold fk. destruct (decide (p = q)) as [<-|Hne].
  - rewrite lookup_insert_eq, Hp. done.
  - by rewrite lookup_insert_ne.
Qed.

Lemma fk_storep σ p g v n q :
  σ !! p = Some n → fk (<[p := setp g v n]> σ) q = fk σ q.
Proof.
  intros Hp. unfold fk. destruct (decide (p = q)) as [<-|Hne].
  - rewrite lookup_insert_eq, Hp. done.
  - by rewrite lookup_insert_ne.
Qed.

(** A run of a field access, field by field. *)
Lemma loadq_fq f p s v s' :
  loadq f p s = Ok (v, s') → fq (heap s) p f = Some v ∧ heap s' = heap s.
Proof.
  intros (n & Hn & -> & ->)%loadq_Ok. unfold fq. by rewrite Hn.
Qed.

Lemma loadp_fp g p s v s' :
  loadp g p s = Ok (v, s') → fp (heap s) p g = Some v ∧ heap s' = heap s.
Proof.
  intros (n & Hn & -> & ->)%loadp_Ok. unfold fp. by rewrite Hn.
Qed.

Lemma child_fk p i s c s' :
  child p i s = Ok (c, s') →
  ∃ cs, fk (heap s) p = Some cs ∧ cs !! Z.to_nat i = Some c ∧ 0 ≤ i ∧
        heap s' = heap s.
Proof.
  intros (n & Hn & Hi & Hc & ->)%child_Ok. exists (children n).
  unfold fk. by rewrite Hn.
Qed.

Lemma storeq_fields f p v s u s' :
  storeq f p v s = Ok (u, s') →
  (∀ q f', fq (heap s') q f'
           = if decide (p = q ∧ f = f') then Some v else fq (heap s) q f') ∧
  (∀ q g, fp (heap s') q g = fp (heap s) q g) ∧
  (∀ q, fk (heap s') q = fk (heap s) q).
Proof.
  intros (n & Hn & ->)%storeq_Ok. simpl. split; [|split]; intros.
  - by apply fq_storeq.
  - by apply fp_storeq.
  - by apply fk_storeq.
Qed.

Lemma storep_fields g p v s u s' :
  storep g p v s = Ok (u, s') →
  (∀ q f, fq (heap s') q f = fq (heap s) q f) ∧
  (∀ q g', fp (heap s') q g'
           = if decide (p = q ∧ g = g') then Some v else fp (heap s) q g') ∧
  (∀ q, fk (heap s') q = fk (heap s) q).
Proof.
  intros (n & Hn & ->)%storep_Ok. simpl. split; [|split]; intros.
  - by apply fq_storep.
  - by apply fp_storep.
  - by apply fk_storep.
Qed.

(** ** Threads *)

Ltac inv_child H c Hk Hc :=
  let s1 := fresh "s" in let Hx := fresh "Hx" in let cs := fresh "cs" in
  let Hh := fresh "Hh" in
  apply bind_Ok in H as (c & s1 & Hx & H);
  apply child_fk in Hx as (cs & Hk & Hc & _ & Hh).

Ltac inv_loadq H v Hv :=
  let s1 := fresh "s" in let Hx := fresh "Hx" in let Hh := fresh "Hh" in
  apply bind_Ok in H as (v & s1 & Hx & H);
  apply loadq_fq in Hx as [Hv Hh].

Ltac inv_loadp H v Hv :=
  let s1 := fresh "s" in let Hx := fresh "Hx" in let Hh := fresh "Hh" in
  apply bind_Ok in H as (v & s1 & Hx & H);
  apply loadp_fp in Hx as [Hv Hh].

Ltac heaps :=
  repeat match goal with
         | H : heap ?a = heap ?b |- _ => rewrite H in *; clear H
         end.

Ltac inv_storeq H Q P K :=
  let s1 := fresh "s" in let Hx := fresh "Hx" in let u := fresh "u" in
  apply bind_Ok in H as (u & s1 & Hx & H);
  apply storeq_fields in Hx as (Q & P & K).

Ltac inv_storep H Q P K :=
  let s1 := fresh "s" in let Hx := fresh "Hx" in let u := fresh "u" in
  apply bind_Ok in H as (u & s1 & Hx & H);
  apply storep_fields in Hx as (Q & P & K).

Ltac fields :=
  repeat first
    [ rewrite decide_True by (split; reflexivity)
    | rewrite decide_False by (intros [_ ?]; discriminate) ].

Ltac fields_in H :=
  repeat first
    [ rewrite decide_True in H by (split; reflexivity)
    | rewrite decide_False in H by (intros [_ ?]; discriminate) ].

Lemma fk_same σ p cs cs' (c c' : ptr) k :
  fk σ p = Some cs → fk σ p = Some cs' →
  cs !! k = Some c → cs' !! k = Some c' → cs' = cs ∧ c' = c.
Proof. intros H1 H2 H3 H4. split; congruence. Qed.

(** [set_left_thread] sets the thread of the left extreme [li] of the
    first child to [cl], adds [diff = (modsumcl - cl->mod) - msel] of the
    first child to the [mod] of [li] and takes the same [diff] from the
    [prelim] of [li]; at the end the first child has the left extreme and
    the sum of child [i].  This holds whichever of the nodes involved are
    one and the same. *)
Theorem set_left_thread_shifts (t : ptr) (i : Z) (cl : ptr)
    (modsumcl : Q) (s s' : state) :
  set_left_thread t i cl modsumcl s = Ok (tt, s') →
  ∃ cs c0 ci li p m ms mc,
    fk (heap s) t = Some cs ∧ cs !! 0%nat = Some c0 ∧
    cs !! Z.to_nat i = Some ci ∧
    fp (heap s) c0 Fel = Some (Some li) ∧
    fq (heap s) li Fprelim = Some p ∧ fq (heap s) li Fmod = Some m ∧
    fq (heap s) c0 Fmsel = Some ms ∧ fq (heap s) cl Fmod = Some mc ∧
    fp (heap s') li Ftl = Some (Some cl) ∧
    fq (heap s') li Fmod = Some (m + (modsumcl - mc - ms))%Q ∧
    fq (heap s') li Fprelim = Some (p - (modsumcl - mc - ms))%Q ∧
    fp (heap s') c0 Fel = fp (heap s) ci Fel ∧
    fq (heap s') c0 Fmsel = fq (heap s) ci Fmsel.
Proof.
  intros H. unfold set_left_thread in H.
  inv_child H c0 Hk0 Hc0.
  inv_loadp H e He.
  apply bind_Ok in H as (li & s3 & Hli & H). apply deref_Ok in Hli as [-> ->].
  inv_storep H Q1 P1 K1.
  inv_loadq H cm Hcm.
  inv_child H c0a Hk0a Hc0a.
  inv_loadq H m0 Hm0.
  inv_loadq H v1 Hv1.
  inv_storeq H Q2 P2 K2.
  inv_loadq H v2 Hv2.
  inv_storeq H Q3 P3 K3.
  inv_child H c0b Hk0b Hc0b.
  inv_child H ci Hki Hci.
  inv_loadp H e' He'.
  inv_storep H Q4 P4 K4.
  inv_child H c0c Hk0c Hc0c.
  inv_child H cia Hkia Hcia.
  inv_loadq H m Hm.
  apply storeq_fields in H as (Q5 & P5 & K5).
  heaps.
  rewrite K1 in Hk0a. rewrite K3, K2, K1 in Hk0b, Hki.
  rewrite K4, K3, K2, K1 in Hk0c, Hkia.
  destruct (fk_same _ _ _ _ _ _ _ Hk0 Hk0a Hc0 Hc0a) as [-> ->].
  destruct (fk_same _ _ _ _ _ _ _ Hk0 Hk0b Hc0 Hc0b) as [-> ->].
  destruct (fk_same _ _ _ _ _ _ _ Hk0 Hk0c Hc0 Hc0c) as [-> ->].
  assert (cs2 = cs) as -> by congruence.
  destruct (fk_same _ _ _ _ _ _ _ Hki Hkia Hci Hcia) as [-> ->].
  rewrite Q1 in Hcm, Hm0, Hv1.
  rewrite Q2, Q1 in Hv2.
  rewrite Q4, Q3, Q2, Q1 in Hm.
  rewrite P3, P2, P1 in He'.
  fields_in Hv2. fields_in Hm. fields_in He'.
  exists cs, c0, ci, li, v2, v1, m0, cm.
  split; [done|]. split; [done|]. split; [done|]. split; [done|].
  split; [done|]. split; [done|]. split; [done|]. split; [done|].
  split.
  { rewrite P5, P4, P3, P2, P1. fields. done. }
  split.
  { rewrite Q5, Q4, Q3, Q2. fields. reflexivity. }
  split.
  { rewrite Q5, Q4, Q3. fields. reflexivity. }
  split.
  - rewrite P5, P4. fields. congruence.
  - rewrite Q5. fields. congruence.
Qed.

Lemma set_left_thread_shifts_witness :
  ∃ s',
    set_left_thread 0%nat 1 2%nat 7 (init tilted) = Ok (tt, s') ∧
    ∃ cs c0 ci li p m ms mc,
      fk (heap (init tilted)) 0%nat = Some cs ∧ cs !! 0%nat = Some c0 ∧
      cs !! Z.to_nat 1 = Some ci ∧
      fp (heap (init tilted)) c0 Fel = Some (Some li) ∧
      fq (heap (init tilted)) li Fprelim = Some p ∧
      fq (heap (init tilted)) li Fmod = Some m ∧
      fq (heap (init tilted)) c0 Fmsel = Some ms ∧
      fq (heap (init tilted)) 2%nat Fmod = Some mc ∧
      fp (heap s') li Ftl = Some (Some 2%nat) ∧
      fq (heap s') li Fmod = Some (m + (7 - mc - ms))%Q ∧
      fq (heap s') li Fprelim = Some (p - (7 - mc - ms))%Q ∧
      fp (heap s') c0 Fel = fp (heap (init tilted)) ci Fel ∧
      fq (heap s') c0 Fmsel = fq (heap (init tilted)) ci Fmsel.
Proof.
  destruct (set_left_thread 0%nat 1 2%nat 7 (init tilted))
    as [[[] s']|e] eqn:E.
  - exists s'. split; [reflexivity|].
    exact (set_left_thread_shifts 0%nat 1 2%nat 7 (init tilted) s' E).
  - vm_compute in E. discriminate E.
Defined.

(** [set_right_thread], the mirror image: the thread of the right extreme
    [ri] of child [i] is set to [sr], [diff = (modsumsr - sr->mod) - mser]
    of child [i] is added to the [mod] of [ri] and taken from its
    [prelim], and child [i] gets the right extreme and the sum of child
    [i - 1]; again whichever of the nodes involved are one and the same. *)
Theorem set_right_thread_shifts (t : ptr) (i : Z) (sr : ptr)
    (modsumsr : Q) (s s' : state) :
  set_right_thread t i sr modsumsr s = Ok (tt, s') →
  ∃ cs ci cp ri p m ms mr,
    fk (heap s) t = Some cs ∧ cs !! Z.to_nat i = Some ci ∧
    cs !! Z.to_nat (i - 1) = Some cp ∧
    fp (heap s) ci Fer = Some (Some ri) ∧
    fq (heap s) ri Fprelim = Some p ∧ fq (heap s) ri Fmod = Some m ∧
    fq (heap s) ci Fmser = Some ms ∧ fq (heap s) sr Fmod = Some mr ∧
    fp (heap s') ri Ftr = Some (Some sr) ∧
    fq (heap s') ri Fmod = Some (m + (modsumsr - mr - ms))%Q ∧
    fq (heap s') ri Fprelim = Some (p - (modsumsr - mr - ms))%Q ∧
    fp (heap s') ci Fer = fp (heap s) cp Fer ∧
    fq (heap s') ci Fmser = fq (heap s) cp Fmser.
Proof.
  intros H. unfold set_right_thread in H.
  inv_child H ci Hki Hci.
  inv_loadp H e He.
  apply bind_Ok in H as (ri & s3 & Hri & H). apply deref_Ok in Hri as [-> ->].
  inv_storep H Q1 P1 K1.
  inv_loadq H sm Hsm.
  inv_child H cia Hkia Hcia.
  inv_loadq H mi Hmi.
  inv_loadq H v1 Hv1.
  inv_storeq H Q2 P2 K2.
  inv_loadq H v2 Hv2.
  inv_storeq H Q3 P3 K3.
  inv_child H cib Hkib Hcib.
  inv_child H cp Hkp Hcp.
  inv_loadp H e' He'.
  inv_storep H Q4 P4 K4.
  inv_child H cic Hkic Hcic.
  inv_child H cpa Hkpa Hcpa.
  inv_loadq H m Hm.
  apply storeq_fields in H as (Q5 & P5 & K5).
  heaps.
  rewrite K1 in Hkia. rewrite K3, K2, K1 in Hkib, Hkp.
  rewrite K4, K3, K2, K1 in Hkic, Hkpa.
  destruct (fk_same _ _ _ _ _ _ _ Hki Hkia Hci Hcia) as [-> ->].
  destruct (fk_same _ _ _ _ _ _ _ Hki Hkib Hci Hcib) as [-> ->].
  destruct (fk_same _ _ _ _ _ _ _ Hki Hkic Hci Hcic) as [-> ->].
  assert (cs2 = cs) as -> by congruence.
  destruct (fk_same _ _ _ _ _ _ _ Hkp Hkpa Hcp Hcpa) as [-> ->].
  rewrite Q1 in Hsm, Hmi, Hv1.
  rewrite Q2, Q1 in Hv2.
  rewrite Q4, Q3, Q2, Q1 in Hm.
  rewrite P3, P2, P1 in He'.
  fields_in Hv2. fields_in Hm. fields_in He'.
  exists cs, ci, cp, ri, v2, v1, mi, sm.
  split; [done|]. split; [done|]. split; [done|]. split; [done|].
  split; [done|]. split; [done|]. split; [done|]. split; [done|].
  split.
  { rewrite P5, P4, P3, P2, P1. fields. done. }
  split.
  { rewrite Q5, Q4, Q3, Q2. fields. reflexivity. }
  split.
  { rewrite Q5, Q4, Q3. fields. reflexivity. }
  split.
  - rewrite P5, P4. fields. congruence.
  - rewrite Q5. fields. congruence.
Qed.

Lemma set_right_thread_shifts_witness :
  ∃ s',
    set_right_thread 0%nat 1 1%nat 7 (init tilted) = Ok (tt, s') ∧
    ∃ cs ci cp ri p m ms mr,
      fk (heap (init tilted)) 0%nat = Some cs ∧
      cs !! Z.to_nat 1 = Some ci ∧ cs !! Z.to_nat (1 - 1) = Some cp ∧
      fp (heap (init tilted)) ci Fer = Some (Some ri) ∧
      fq (heap (init tilted)) ri Fprelim = Some p ∧
      fq (heap (init tilted)) ri Fmod = Some m ∧
      fq (heap (init tilted)) ci Fmser = Some ms ∧
      fq (heap (init tilted)) 1%nat Fmod = Some mr ∧
      fp (heap s') ri Ftr = Some (Some 1%nat) ∧
      fq (heap s') ri Fmod = Some (m + (7 - mr - ms))%Q ∧
      fq (heap s') ri Fprelim = Some (p - (7 - mr - ms))%Q ∧
      fp (heap s') ci Fer = fp (heap (init tilted)) cp Fer ∧
      fq (heap s') ci Fmser = fq (heap (init tilted)) cp Fmser.
Proof.
  destruct (set_right_thread 0%nat 1 1%nat 7 (init tilted))
    as [[[] s']|e] eqn:E.
  - exists s'. split; [reflexivity|].
    exact (set_right_thread_shifts 0%nat 1 1%nat 7 (init tilted) s' E).
  - vm_compute in E. discriminate E.
Defined.

(** ** What the walks leave alone, on any store *)

Lemma same_fields_refl qs ps σ : same_fields qs ps σ σ.
Proof. intros p. by destruct (σ !! p). Qed.

Lemma same_fields_trans qs ps σ1 σ2 σ3 :
  same_fields qs ps σ1 σ2 → same_fields qs ps σ2 σ3 →
  same_fields qs ps σ1 σ3.
Proof.
  intros H1 H2 p. specialize (H1 p). specialize (H2 p).
  destruct (σ1 !! p), (σ2 !! p), (σ3 !! p); try done.
  destruct H1 as (?&Hp1&Hq1), H2 as (?&Hp2&Hq2).
  split; [congruence|]. split.
  - intros g Hg. by rewrite Hp2, Hp1.
  - intros f Hf. by rewrite Hq2, Hq1.
Qed.

Lemma same_fields_setq qs ps σ f p v n :
  σ !! p = Some n → f ∉ qs → same_fields qs ps σ (<[p := setq f v n]> σ).
Proof.
  intros Hp Hf q. destruct (decide (p = q)) as [<-|Hne].
  - rewrite lookup_insert_eq, Hp. split; [done|]. split.
    + intros g _. apply getp_setq.
    + intros f' Hf'. rewrite getq_setq. rewrite decide_False; [done|].
      by intros ->.
  - rewrite lookup_insert_ne by done. by destruct (σ !! q).
Qed.

Lemma same_fields_setp qs ps σ g p v n :
  σ !! p = Some n → g ∉ ps → same_fields qs ps σ (<[p := setp g v n]> σ).
Proof.
  intros Hp Hg q. destruct (decide (p = q)) as [<-|Hne].
  - rewrite lookup_insert_eq, Hp. split; [done|]. split.
    + intros g' Hg'. rewrite getp_setp. rewrite decide_False; [done|].
      by intros ->.
    + intros f' _. apply getq_setp.
  - rewrite lookup_insert_ne by done. by destruct (σ !! q).
Qed.

Lemma same_fields_lookup qs ps σ σ' p n :
  same_fields qs ps σ σ' → σ !! p = Some n →
  ∃ n', σ' !! p = Some n' ∧ children n' = children n ∧
        (∀ g, g ∈ ps → getp g n' = getp g n) ∧
        (∀ f, f ∈ qs → getq f n' = getq f n).
Proof.
  intros H Hp. specialize (H p). rewrite Hp in H.
  destruct (σ' !! p) as [n'|]; [|done]. eauto.
Qed.

Lemma same_fields_mono qs qs' ps ps' σ σ' :
  qs' ⊆ qs → ps' ⊆ ps → same_fields qs ps σ σ' → same_fields qs' ps' σ σ'.
Proof.
  intros Hq Hp H p. specialize (H p).
  destruct (σ !! p), (σ' !! p); try done.
  destruct H as (Hc & Hg & Hf). split; [done|]. split.
  - intros g Hin. apply Hg. by apply Hp.
  - intros f Hin. apply Hf. by apply Hq.
Qed.

Lemma leaves_ret {A} qs ps (a : A) : keeps (same_fields qs ps) (ret a).
Proof. intros s a' s' [= -> ->]%ret_Ok. apply same_fields_refl. Qed.

Lemma leaves_fail {A} qs ps e : keeps (same_fields qs ps) (@fail A e).
Proof. intros s a' s' H. done. Qed.

Lemma leaves_bind {A B} qs ps (m : M A) (k : A → M B) :
  keeps (same_fields qs ps) m → (∀ a, keeps (same_fields qs ps) (k a)) →
  keeps (same_fields qs ps) (bind m k).
Proof.
  intros Hm Hk s b s' (a & s1 & H1 & H2)%bind_Ok.
  eapply same_fields_trans; [by eapply Hm|by eapply Hk].
Qed.

Lemma leaves_loadq qs ps f p : keeps (same_fields qs ps) (loadq f p).
Proof.
  intros s v s' (n & _ & _ & ->)%loadq_Ok. apply same_fields_refl.
Qed.

Lemma leaves_loadp qs ps f p : keeps (same_fields qs ps) (loadp f p).
Proof.
  intros s v s' (n & _ & _ & ->)%loadp_Ok. apply same_fields_refl.
Qed.

Lemma leaves_kids qs ps p : keeps (same_fields qs ps) (kids p).
Proof.
  intros s v s' (n & _ & _ & ->)%kids_Ok. apply same_fields_refl.
Qed.

Lemma leaves_storeq qs ps f p v :
  f ∉ qs → keeps (same_fields qs ps) (storeq f p v).
Proof.
  intros Hf s u s' (n & Hn & ->)%storeq_Ok. by apply same_fields_setq.
Qed.

Lemma leaves_storep qs ps g p v :
  g ∉ ps → keeps (same_fields qs ps) (storep g p v).
Proof.
  intros Hg s u s' (n & Hn & ->)%storep_Ok. by apply same_fields_setp.
Qed.

Create HintDb leaves discriminated.
#[local] Hint Resolve leaves_ret leaves_fail leaves_loadq leaves_loadp
  leaves_kids : leaves.

Ltac leaves_tac :=
  repeat first
    [ assumption
    | solve [ auto 1 with leaves nocore ]
    | apply leaves_storeq; not_in_list
    | apply leaves_storep; not_in_list
    | apply leaves_bind; [|intros ?]
    | match goal with
      | |- keeps _ (if ?c then _ else _) => destruct c
      | |- keeps _ (match ?x with _ => _ end) => destruct x
      | |- keeps _ (let '(_, _) := ?x in _) => destruct x
      end ].

Lemma leaves_nchildren qs ps p : keeps (same_fields qs ps) (nchildren p).
Proof. unfold nchildren. leaves_tac. Qed.

Lemma leaves_child qs ps p i : keeps (same_fields qs ps) (child p i).
Proof. unfold child. leaves_tac. Qed.

Lemma leaves_deref qs ps p : keeps (same_fields qs ps) (deref p).
Proof. unfold deref. leaves_tac. Qed.

#[local] Hint Resolve leaves_nchildren leaves_child leaves_deref : leaves.

Lemma leaves_bottom qs ps p : keeps (same_fields qs ps) (bottom p).
Proof. unfold bottom. leaves_tac. Qed.

Lemma leaves_next_left_contour qs ps p :
  keeps (same_fields qs ps) (next_left_contour p).
Proof. unfold next_left_contour. leaves_tac. Qed.

Lemma leaves_next_right_contour qs ps p :
  keeps (same_fields qs ps) (next_right_contour p).
Proof. unfold next_right_contour. leaves_tac. Qed.

#[local] Hint Resolve leaves_bottom leaves_next_left_contour
  leaves_next_right_contour : leaves.

Lemma leaves_advance_cursor qs ps sr cursor :
  keeps (same_fields qs ps) (advance_cursor sr cursor).
Proof. induction cursor as [|e nxt IH]; simpl; leaves_tac. Qed.

#[local] Hint Resolve leaves_advance_cursor : leaves.

(** The functions under [firstwalk] write no [x], [y], [w], [h] and no
    parent link. *)
Lemma leaves_set_extremes t :
  keeps (same_fields [Fx; Fy; Fw; Fh] [Fparent]) (set_extremes t).
Proof. unfold set_extremes. leaves_tac. Qed.

Lemma leaves_position_root t :
  keeps (same_fields [Fx; Fy; Fw; Fh] [Fparent]) (position_root t).
Proof. unfold position_root. leaves_tac. Qed.

Lemma leaves_distribute_extra t i si dist :
  keeps (same_fields [Fx; Fy; Fw; Fh] [Fparent])
    (distribute_extra t i si dist).
Proof. unfold distribute_extra. leaves_tac. Qed.

#[local] Hint Resolve leaves_set_extremes leaves_position_root
  leaves_distribute_extra : leaves.

Lemma leaves_move_subtree t i si dist :
  keeps (same_fields [Fx; Fy; Fw; Fh] [Fparent]) (move_subtree t i si dist).
Proof. unfold move_subtree. leaves_tac. Qed.

Lemma leaves_set_left_thread t i cl m :
  keeps (same_fields [Fx; Fy; Fw; Fh] [Fparent]) (set_left_thread t i cl m).
Proof. unfold set_left_thread. leaves_tac. Qed.

Lemma leaves_set_right_thread t i sr m :
  keeps (same_fields [Fx; Fy; Fw; Fh] [Fparent]) (set_right_thread t i sr m).
Proof. unfold set_right_thread. leaves_tac. Qed.

#[local] Hint Resolve leaves_move_subtree leaves_set_left_thread
  leaves_set_right_thread : leaves.

Lemma leaves_separate_body t i sr cl mssr mscl cursor :
  keeps (same_fields [Fx; Fy; Fw; Fh] [Fparent])
    (separate_body t i sr cl mssr mscl cursor).
Proof. unfold separate_body. leaves_tac. Qed.

#[local] Hint Resolve leaves_separate_body : leaves.

Lemma leaves_separate_loop fuel : ∀ t i v,
  keeps (same_fields [Fx; Fy; Fw; Fh] [Fparent]) (separate_loop fuel t i v).
Proof.
  induction fuel as [|fuel IH]; intros t i v; simpl;
    destruct (sv_sr v), (sv_cl v); leaves_tac.
Qed.

#[local] Hint Resolve leaves_separate_loop : leaves.

Lemma leaves_separate fuel t i ih :
  keeps (same_fields [Fx; Fy; Fw; Fh] [Fparent]) (separate fuel t i ih).
Proof. unfold separate. leaves_tac. Qed.

Lemma leaves_weaken {A} qs qs' ps (m : M A) :
  qs' ⊆ qs → keeps (same_fields qs ps) m → keeps (same_fields qs' ps) m.
Proof.
  intros Hq H s a s' Hrun.
  eapply same_fields_mono; [exact Hq|done|]. by eapply H.
Qed.

Ltac sub_list :=
  let f := fresh "f" in let Hf := fresh "Hf" in
  intros f Hf;
  repeat (apply elem_of_cons in Hf as [->|Hf]; [in_list|]);
  by apply elem_of_nil in Hf.

Lemma leaves_separate_w fuel t i ih :
  keeps (same_fields [Fx; Fw; Fh] [Fparent]) (separate fuel t i ih).
Proof.
  eapply (leaves_weaken [Fx; Fy; Fw; Fh]); [sub_list|apply leaves_separate].
Qed.

Lemma leaves_set_extremes_w t :
  keeps (same_fields [Fx; Fw; Fh] [Fparent]) (set_extremes t).
Proof.
  eapply (leaves_weaken [Fx; Fy; Fw; Fh]); [sub_list|apply leaves_set_extremes].
Qed.

Lemma leaves_position_root_w t :
  keeps (same_fields [Fx; Fw; Fh] [Fparent]) (position_root t).
Proof.
  eapply (leaves_weaken [Fx; Fy; Fw; Fh]);
    [sub_list|apply leaves_position_root].
Qed.

#[local] Hint Resolve leaves_separate_w leaves_set_extremes_w
  leaves_position_root_w : leaves.

Lemma leaves_firstwalk_rest walk fuel t :
  (∀ c, keeps (same_fields [Fx; Fw; Fh] [Fparent]) (walk c)) →
  ∀ idx ih,
    keeps (same_fields [Fx; Fw; Fh] [Fparent])
      (firstwalk_rest walk fuel t idx ih).
Proof.
  intros Hw. induction idx as [|i idx IH]; intros ih; simpl; leaves_tac;
    try apply Hw; try apply IH.
Qed.

Lemma leaves_firstwalk fuel : ∀ t,
  keeps (same_fields [Fx; Fw; Fh] [Fparent]) (firstwalk fuel t).
Proof.
  induction fuel as [|fuel IH]; intros t; simpl; leaves_tac;
    try apply IH; try (apply leaves_firstwalk_rest; apply IH).
Qed.

Lemma keeps_for_each fs walk cs :
  (∀ c, keeps (same_but fs) (walk c)) → keeps (same_but fs) (for_each walk cs).
Proof.
  intros Hw. induction cs as [|c cs IH]; simpl; keeps_tac; [apply Hw|apply IH].
Qed.

Lemma keeps_add_child_spacing_loop_x t idx : ∀ d msd,
  keeps (same_but [Fx; Fmod]) (add_child_spacing_loop t idx d msd).
Proof.
  induction idx as [|i idx IH]; intros d msd; simpl; keeps_tac. apply IH.
Qed.

Lemma keeps_secondwalk fuel : ∀ t modsum,
  keeps (same_but [Fx; Fmod]) (secondwalk fuel t modsum).
Proof.
  induction fuel as [|fuel IH]; intros t modsum; simpl.
  - intros s u s' H. done.
  - keeps_tac.
    + apply keeps_add_child_spacing_loop_x.
    + apply keeps_for_each. intros c. apply IH.
Qed.

(** [separate] moves subtrees and sets threads through the working
    fields only: on any store, whenever it returns, every node is still
    there with its child vector and its parent link, and its [x], [y], [w]
    and [h] are as before. *)
Theorem separate_leaves_boxes (fuel : nat) (t : ptr) (i : Z) (ih : list IYL)
    (s s' : state) :
  separate fuel t i ih s = Ok (tt, s') →
  same_fields [Fx; Fy; Fw; Fh] [Fparent] (heap s) (heap s').
Proof. intros Hrun. exact (leaves_separate fuel t i ih s tt s' Hrun). Qed.

Lemma separate_leaves_boxes_witness :
  ∃ s',
    separate 5 0%nat 1 [mkIYL 130 0] (init tilted) = Ok (tt, s') ∧
    same_fields [Fx; Fy; Fw; Fh] [Fparent] (heap (init tilted)) (heap s').
Proof.
  destruct (separate 5 0%nat 1 [mkIYL 130 0] (init tilted))
    as [[[] s']|e] eqn:E.
  - exists s'. split; [reflexivity|].
    exact (separate_leaves_boxes 5 0%nat 1 [mkIYL 130 0] (init tilted) s' E).
  - vm_compute in E. discriminate E.
Defined.

(** On any store, well-formed or not, whenever [firstwalk] returns it has
    written no [x], no [w], no [h], no parent link and no child vector,
    and no node has appeared or disappeared. *)
Theorem firstwalk_leaves_inputs (fuel : nat) (t : ptr) (s s' : state) :
  firstwalk fuel t s = Ok (tt, s') →
  same_fields [Fx; Fw; Fh] [Fparent] (heap s) (heap s').
Proof. intros Hrun. exact (leaves_firstwalk fuel t s tt s' Hrun). Qed.

Lemma firstwalk_leaves_inputs_witness :
  ∃ s',
    firstwalk 13 0%nat (init tilted) = Ok (tt, s') ∧
    same_fields [Fx; Fw; Fh] [Fparent] (heap (init tilted)) (heap s').
Proof.
  destruct (firstwalk 13 0%nat (init tilted)) as [[[] s']|e] eqn:E.
  - exists s'. split; [reflexivity|].
    exact (firstwalk_leaves_inputs 13 0%nat (init tilted) s' E).
  - vm_compute in E. discriminate E.
Defined.

(** On any store, whenever [secondwalk] returns it has written only [x]
    and [mod]: every node is still there with its child vector, all its
    pointer fields and every numeric field but [x] and [mod] as before. *)
Theorem secondwalk_writes_x_mod (fuel : nat) (t : ptr) (modsum : Q)
    (s s' : state) :
  secondwalk fuel t modsum s = Ok (tt, s') →
  same_but [Fx; Fmod] (heap s) (heap s').
Proof. intros Hrun. exact (keeps_secondwalk fuel t modsum s tt s' Hrun). Qed.

Lemma secondwalk_writes_x_mod_witness :
  ∃ s',
    secondwalk 13 0%nat 0 (init tilted) = Ok (tt, s') ∧
    same_but [Fx; Fmod] (heap (init tilted)) (heap s').
Proof.
  destruct (secondwalk 13 0%nat 0 (init tilted)) as [[[] s']|e] eqn:E.
  - exists s'. split; [reflexivity|].
    exact (secondwalk_writes_x_mod 13 0%nat 0 (init tilted) s' E).
  - vm_compute in E. discriminate E.
Defined.

(** ** A tree of one node *)

Lemma run_kids p s n :
  heap s !! p = Some n →
  kids p s = Ok (children n, mkState (heap s) (RdC p :: trace s)).
Proof. unfold kids. by intros ->. Qed.

Lemma add_child_spacing_leaf t n s :
  heap s !! t = Some n → children n = [] →
  add_child_spacing t s = Ok (tt, mkState (heap s) (RdC t :: trace s)).
Proof.
  intros Ht Hch. unfold add_child_spacing. run_stepp. by rewrite Hch.
Qed.

(** On a root without children and without parent, with neutral working
    fields, [layout] returns for every fuel but 0, puts the node at
    [x = 0], [y = 0], and changes no other node. *)
Theorem layout_single_node (fuel : nat) (t : ptr) (nt : Node) (s : state) :
  heap s !! t = Some nt → children nt = [] → parent nt = None →
  neutral t nt = true →
  ∃ nt' tr',
    layout (S fuel) t s = Ok (tt, mkState (<[t := nt']> (heap s)) tr') ∧
    (x nt' == 0)%Q ∧ (y nt' == 0)%Q ∧ w nt' = w nt ∧ h nt' = h nt ∧
    children nt' = [] ∧ parent nt' = None ∧ neutral t nt' = true.
Proof.
  intros Ht Hch Hpar Hneu.
  assert (∃ tr1,
            firstwalk (S fuel) t s
            = Ok (tt, mkState
                        (<[t := setq Fmsel 0 (setq Fmser 0
                                  (setp Fer (Some t) (setp Fel (Some t)
                                     (setq Fy 0 nt))))]> (heap s)) tr1))
    as [tr1 Hfirst].
  { simpl firstwalk.
    run_stepp. change (getp Fparent nt) with (parent nt). rewrite Hpar.
    repeat run_stepp. kids_simpl. rewrite Hch. simpl length.
    rewrite decide_True by done.
    unfold set_extremes. repeat run_stepp. kids_simpl. rewrite Hch. simpl length.
    rewrite decide_True by done. repeat run_stepp.
    rewrite !insert_insert_eq. eexists. reflexivity. }
  unfold layout. erewrite run_bind by exact Hfirst. cbv beta.
  simpl secondwalk. repeat run_stepp.
  erewrite run_bind
    by (eapply add_child_spacing_leaf; [lookup|kids_simpl; exact Hch]).
  cbv beta. cbn [heap trace].
  erewrite run_bind by (eapply run_kids; lookup). cbv beta.
  kids_simpl. rewrite Hch. simpl. unfold ret.
  rewrite !insert_insert_eq.
  eexists _, _. split; [reflexivity|].
  revert Hneu. unfold neutral.
  rewrite !andb_true_iff, !bool_decide_eq_true.
  intros (((((((((E1 & E2) & E3) & E4) & E5) & E6) & E7) & E8) & E9) & E10).
  simpl. rewrite E1, E2.
  split; [reflexivity|]. split; [reflexivity|].
  split; [done|]. split; [done|]. split; [done|]. split; [done|].
  rewrite E3, E4, E9, E10. done.
Qed.

Lemma layout_single_node_witness :
  ∃ nt' tr',
    layout 1 7%nat (init {[7%nat := fresh 7%nat None [] 30 12]})
    = Ok (tt, mkState (<[7%nat := nt']> {[7%nat := fresh 7%nat None [] 30 12]})
                tr') ∧
    (x nt' == 0)%Q ∧ (y nt' == 0)%Q ∧
    w nt' = w (fresh 7%nat None [] 30 12) ∧
    h nt' = h (fresh 7%nat None [] 30 12) ∧
    children nt' = [] ∧ parent nt' = None ∧ neutral 7%nat nt' = true.
Proof.
  exact (layout_single_node 0 7%nat (fresh 7%nat None [] 30 12)
           (init {[7%nat := fresh 7%nat None [] 30 12]})
           ltac:(apply lookup_singleton_eq) eq_refl eq_refl
           ltac:(vm_compute; reflexivity)).
Defined.

(** ** The old outputs do not matter *)

Lemma alike_refl s : alike s s.
Proof. split; [done|]. intros p. by destruct (heap s !! p). Qed.

(** On a well-formed tree the result of [layout] does not depend on the
    [x] and [y] the nodes hold beforehand: from a store [σ'] that differs
    from [σ] at most in the [x] and [y] of its nodes, [layout] returns as
    well, and every node of the tree ends with the same fields, [x] and
    [y] included. *)
Theorem layout_ignores_old_outputs (σ σ' : gmap ptr Node) (T : tree) :
  tree_ok σ T = true → alike (init σ) (init σ') →
  ∃ fuel s1 s2,
    layout fuel (root_of T) (init σ) = Ok (tt, s1) ∧
    layout fuel (root_of T) (init σ') = Ok (tt, s2) ∧
    ∀ n, n ∈ nodes T → ∃ a b,
      heap s1 !! n = Some a ∧ heap s2 !! n = Some b ∧
      children b = children a ∧ (∀ g, getp g b = getp g a) ∧
      (∀ f, getq f b = getq f a).
Proof.
  intros Hok Hal.
  destruct (layout_total σ T Hok)
    as (s0 & s1 & _ & _ & Hrun & _ & Hfr & _
        & (Wy & HWy & Hexty) & (Wx & HWx & Hextx)).
  pose proof (tree_ok_skel σ T Hok) as (_ & _ & Hnd).
  assert (rsafe (trace s1)) as Hsafe.
  { eapply ext_rsafe; [exact Hextx|auto|done|].
    eapply ext_rsafe; [exact Hexty|auto|done|done]. }
  destruct (oblivious_layout (S (2 * length (nodes T))) (root_of T))
    as [_ Hob].
  destruct (Hob _ _ _ _ Hal Hrun Hsafe) as (s2 & Hrun2 & [_ Hal2]).
  exists (S (2 * length (nodes T))), s1, s2.
  split; [done|]. split; [done|]. intros n Hn. specialize (Hal2 n).
  unfold tree_ok in Hok. apply andb_true_iff in Hok as [Hs _].
  destruct (shaped_neutral _ _ _ _ Hs Hn) as (m & Hm & _).
  specialize (Hfr n). rewrite Hm in Hfr.
  destruct (heap s1 !! n) as [a|] eqn:Ha; [|done].
  destruct (heap s2 !! n) as [b|] eqn:Hb; [|done].
  destruct Hal2 as (Hc & Hg & Hq). exists a, b.
  split; [done|]. split; [done|]. split; [done|]. split; [done|].
  intros f. symmetry. apply Hq. destruct f; try exact I; simpl.
  - rewrite (ext_nwr _ _ _ _ _ n Hextx) by auto.
    rewrite (count_in_perm _ _ _ HWx Hnd), decide_True by done. lia.
  - rewrite (ext_nwr_same Fx Fy _ _ _ _ n Hextx) by auto.
    rewrite (ext_nwr _ _ _ _ _ n Hexty) by auto.
    rewrite (count_in_perm _ _ _ HWy Hnd), decide_True by done. lia.
Qed.

Lemma layout_ignores_old_outputs_witness :
  tree_ok tilted tilted_tree = true ∧
  alike (init tilted)
    (init (<[5%nat := setq Fy 9 (setq Fx 77 (fresh 5%nat (Some 3%nat) [] 10 10))]>
             tilted)) ∧
  ∃ fuel s1 s2,
    layout fuel (root_of tilted_tree) (init tilted) = Ok (tt, s1) ∧
    layout fuel (root_of tilted_tree)
      (init (<[5%nat := setq Fy 9 (setq Fx 77
                                     (fresh 5%nat (Some 3%nat) [] 10 10))]>
               tilted)) = Ok (tt, s2) ∧
    ∀ n, n ∈ nodes tilted_tree → ∃ a b,
      heap s1 !! n = Some a ∧ heap s2 !! n = Some b ∧
      children b = children a ∧ (∀ g, getp g b = getp g a) ∧
      (∀ f, getq f b = getq f a).
Proof.
  assert (tree_ok tilted tilted_tree = true) as Hok by (by vm_compute).
  assert (alike (init tilted)
            (init (<[5%nat := setq Fy 9 (setq Fx 77
                                 (fresh 5%nat (Some 3%nat) [] 10 10))]>
                     tilted))) as Hal.
  { split; [done|]. intros p. simpl.
    destruct (decide (p = 5%nat)) as [->|Hne].
    - rewrite lookup_insert_eq.
      replace (tilted !! 5%nat) with (Some (fresh 5%nat (Some 3%nat) [] 10 10))
        by (vm_compute; reflexivity).
      split; [done|]. split; [done|]. intros f Hk.
      destruct f; simpl in Hk; try done; lia.
    - rewrite lookup_insert_ne by done. by destruct (tilted !! p). }
  split; [exact Hok|]. split; [exact Hal|].
  exact (layout_ignores_old_outputs tilted _ tilted_tree Hok Hal).
Defined.

(** ** The second walk on a tree *)

Lemma tree_at_unskel σ par T : tree_at (skel σ) par T → tree_at σ par T.
Proof.
  revert par. induction T as [r sub IH] using tree_ind. intros par Ht.
  inversion Ht as [par' r' sub' n Hn Hch Hpar Hh Hsub]; subst.
  apply skel_lookup_Some in Hn as (n0 & Hn0 & ->).
  apply (tree_at_node _ _ _ _ n0); try done.
  rewrite Forall_forall in IH, Hsub. apply Forall_forall. intros T HT.
  apply IH; [done|]. by apply Hsub.
Qed.

Lemma same_but_frame fs σ σ' :
  Fw ∉ fs → Fh ∉ fs → same_but fs σ σ' → same_frame σ σ'.
Proof.
  intros Hw Hh H p. specialize (H p).
  destruct (σ !! p) as [n|], (σ' !! p) as [n'|]; try done.
  destruct H as (Hc & Hg & Hf). split; [done|].
  split; [exact (Hg Fparent)|]. split; [exact (Hf Fw Hw)|exact (Hf Fh Hh)].
Qed.

Lemma placed_agree σ σ' T : ∀ modsum,
  (∀ p, p ∈ nodes T → σ' !! p = σ !! p) →
  placed σ modsum T → placed σ' modsum T.
Proof.
  induction T as [r sub IH] using tree_ind. intros modsum Hag Hp.
  inversion Hp as [ms r' sub' n Hn Hx Hsub]; subst.
  apply (placed_node _ _ _ _ n); [|done|].
  - rewrite Hag; [done|]. apply (root_in_nodes (Tr r sub)).
  - rewrite Forall_forall in IH, Hsub. apply Forall_forall. intros T HT.
    apply IH; [done| |by apply Hsub].
    intros p Hin. apply Hag. simpl. apply list_elem_of_further.
    by eapply nodes_sub_in.
Qed.

(** The loop of [add_child_spacing] changes only children of [t]. *)
Lemma add_child_spacing_loop_frame t cs idx : ∀ d msd s s',
  fk (heap s) t = Some cs →
  add_child_spacing_loop t idx d msd s = Ok (tt, s') →
  ∀ p, p ∉ cs → heap s' !! p = heap s !! p.
Proof.
  induction idx as [|i idx IH]; intros d msd s s' Hk H p Hp; simpl in H.
  - apply ret_Ok in H. by injection H as <-.
  - inv_child H c1 Hk1 Hc1. inv_loadq H sh Hsh.
    inv_child H c2 Hk2 Hc2. inv_loadq H ch Hch.
    inv_child H c3 Hk3 Hc3. inv_loadq H m Hm.
    apply bind_Ok in H as ([] & sz & Hst & H).
    pose proof (storeq_fields _ _ _ _ _ _ Hst) as (_ & _ & K).
    apply storeq_Ok in Hst as (n & Hn & ->).
    heaps.
    assert (cs2 = cs) as -> by congruence.
    rewrite (IH _ _ _ _ ltac:(by rewrite K) H p Hp). simpl.
    rewrite lookup_insert_ne; [done|].
    intros ->. apply Hp. by eapply list_elem_of_lookup_2.
Qed.

Lemma for_each_places (walk : ptr → Q → M unit) r ms :
  (∀ c m, keeps (same_but [Fx; Fmod]) (walk c m)) →
  ∀ sub s s',
    Forall (places walk) sub →
    NoDup (concat (map nodes sub)) →
    Forall (tree_at (heap s) (Some r)) sub →
    for_each (λ c, walk c ms) (map root_of sub) s = Ok (tt, s') →
    (∀ p, p ∉ concat (map nodes sub) → heap s' !! p = heap s !! p) ∧
    Forall (placed (heap s') ms) sub.
Proof.
  intros Hkeep. induction sub as [|T sub IH]; intros s s' Hw Hnd Ht H.
  - simpl in H. apply ret_Ok in H. injection H as <-. done.
  - simpl in H. apply bind_Ok in H as ([] & s1 & H1 & H2).
    apply Forall_cons in Hw as [HwT Hw]. apply Forall_cons in Ht as [HtT Ht].
    simpl in Hnd. apply NoDup_app in Hnd as (HndT & Hdisj & Hnd).
    destruct (tree_at_root _ _ _ HtT) as [n Hn].
    destruct (HwT _ _ _ _ _ HtT Hn H1) as (Hout1 & _ & Hpl1).
    assert (same_frame (heap s) (heap s1)) as Hfr.
    { eapply (same_but_frame [Fx; Fmod]); [not_in_list|not_in_list|].
      by eapply Hkeep. }
    assert (Forall (tree_at (heap s1) (Some r)) sub) as Ht1.
    { eapply Forall_impl; [exact Ht|]. intros T'. by apply tree_at_frame. }
    destruct (IH s1 s' Hw Hnd Ht1 H2) as (Hout2 & Hpl2).
    split.
    + intros p Hp. simpl in Hp. apply not_elem_of_app in Hp as [HpT Hp].
      rewrite Hout2 by done. by apply Hout1.
    + constructor; [|done].
      eapply placed_agree; [|exact Hpl1].
      intros p Hp. apply Hout2. by apply Hdisj.
Qed.

Lemma secondwalk_places T :
  ∀ fuel, NoDup (nodes T) → places (secondwalk fuel) T.
Proof.
  induction T as [r sub IH] using tree_ind.
  intros [|fuel] Hnd par modsum s s' n Ht Hn H; [done|].
  simpl in Hn. simpl root_of in H. simpl secondwalk in H.
  inversion Ht as [par' r' sub' n0 Hn0 Hch Hpar Hh Hsub]; subst.
  assert (n0 = n) as -> by congruence.
  apply bind_Ok in H as (m & sa & Hm & H).
  apply loadq_Ok in Hm as (n1 & Hn1 & -> & ->).
  assert (n1 = n) as -> by congruence.
  apply bind_Ok in H as (p & sb & Hp & H).
  apply loadq_Ok in Hp as (n1 & Hn1' & -> & ->). simpl in Hn1'.
  assert (n1 = n) as -> by congruence.
  apply bind_Ok in H as ([] & sc & Hst & H).
  apply storeq_Ok in Hst as (n1 & Hn1'' & ->). simpl in Hn1''.
  assert (n1 = n) as -> by congruence. simpl in H.
  apply bind_Ok in H as ([] & sd & Hacs & H).
  pose proof (keeps_add_child_spacing _ _ _ _ Hacs) as Hkeep. simpl in Hkeep.
  unfold add_child_spacing in Hacs.
  apply bind_Ok in Hacs as (k & se & Hk & Hacs).
  apply nchildren_Ok in Hk as (n1 & Hn1''' & -> & ->). simpl in Hn1'''.
  rewrite lookup_insert_eq in Hn1'''. injection Hn1''' as <-.
  cbn [heap trace] in Hacs.
  set (v := (prelim n + (modsum + mod_ n))%Q) in *.
  set (σa := <[r := setq Fx v n]> (heap s)) in *.
  assert (r ∉ concat (map nodes sub)) as Hr.
  { simpl in Hnd. by apply NoDup_cons in Hnd as [? _]. }
  assert (NoDup (concat (map nodes sub))) as Hnds.
  { simpl in Hnd. by apply NoDup_cons in Hnd as [_ ?]. }
  assert (Hroots : ∀ c, c ∈ map root_of sub → c ∈ concat (map nodes sub)).
  { intros c (T & -> & HT)%list_elem_of_fmap.
    eapply nodes_sub_in; [done|]. apply root_in_nodes. }
  assert (Hframe : ∀ q, q ∉ map root_of sub → heap sd !! q = σa !! q).
  { intros q Hq.
    refine (add_child_spacing_loop_frame r (map root_of sub) _ _ _ _ _
              _ Hacs q Hq).
    unfold fk. simpl. unfold σa. rewrite lookup_insert_eq. simpl.
    by rewrite Hch. }
  assert (heap sd !! r = Some (setq Fx v n)) as Hrd.
  { rewrite Hframe; [apply lookup_insert_eq|]. intros Hin. by apply Hr, Hroots. }
  apply bind_Ok in H as (cs & sf & Hcs & H).
  apply kids_Ok in Hcs as (n1 & Hk1 & -> & ->). rewrite Hrd in Hk1.
  injection Hk1 as <-. rewrite children_setq, Hch in H.
  assert (same_frame (heap s) (heap sd)) as Hfr.
  { eapply same_frame_trans.
    - eapply (same_but_frame [Fx]); [not_in_list|not_in_list|].
      apply (same_but_setq [Fx] (heap s) Fx r v n); [done|in_list].
    - eapply (same_but_frame [Fmod]); [not_in_list|not_in_list|done]. }
  assert (Forall (places (secondwalk fuel)) sub) as Hw.
  { rewrite Forall_forall in IH. apply Forall_forall. intros T HT.
    apply IH; [done|]. by eapply NoDup_nodes_sub. }
  assert (Forall (tree_at (heap sd) (Some r)) sub) as Htd.
  { eapply Forall_impl; [exact Hsub|]. intros T'. by apply tree_at_frame. }
  destruct (for_each_places (secondwalk fuel) r (modsum + mod_ n)%Q
              (keeps_secondwalk fuel) sub
              (mkState (heap sd) (RdC r :: trace sd)) s' Hw Hnds Htd H)
    as (Hout & Hpl).
  simpl in Hout. split; [|split].
  - intros q Hq. simpl in Hq. apply not_elem_of_cons in Hq as [Hqr Hq].
    rewrite Hout by done. rewrite Hframe.
    + unfold σa. by rewrite lookup_insert_ne.
    + intros Hin. by apply Hq, Hroots.
  - simpl. rewrite Hout by done. exact Hrd.
  - apply (placed_node _ _ _ _ (setq Fx v n)).
    + rewrite Hout by done. exact Hrd.
    + simpl. reflexivity.
    + exact Hpl.
Qed.

(** On a well-formed tree [layout] returns with every node at
    [x = prelim + modsum], where [modsum] is the sum of the [mod] of the
    node and of all its ancestors, in the values the fields have when
    [layout] returns. *)
Theorem layout_x_sums_mods (σ : gmap ptr Node) (T : tree) :
  tree_ok σ T = true →
  ∃ fuel s',
    layout fuel (root_of T) (init σ) = Ok (tt, s') ∧
    placed (heap s') 0 T.
Proof.
  intros Hok.
  destruct (layout_total σ T Hok)
    as (s1 & s2 & _ & Hrun2 & Hrun & Hfr1 & _).
  pose proof (tree_ok_skel σ T Hok) as (Htree & _ & Hnd).
  apply tree_at_unskel in Htree.
  apply (tree_at_frame _ _ _ _ Hfr1) in Htree.
  destruct (tree_at_root _ _ _ Htree) as [n Hn].
  destruct (secondwalk_places T _ Hnd _ _ _ _ _ Htree Hn Hrun2)
    as (_ & _ & Hpl).
  eauto.
Qed.

Lemma layout_x_sums_mods_witness :
  tree_ok tilted tilted_tree = true ∧
  ∃ fuel s',
    layout fuel (root_of tilted_tree) (init tilted) = Ok (tt, s') ∧
    placed (heap s') 0 tilted_tree.
Proof.
  assert (tree_ok tilted tilted_tree = true) as Hok by (by vm_compute).
  split; [exact Hok|]. exact (layout_x_sums_mods tilted tilted_tree Hok).
Defined.

(** ** A store that is no tree *)

Lemma firstwalk_self_loop t : ∀ fuel s n,
  heap s !! t = Some n → children n !! 0%nat = Some t → parent n = None →
  firstwalk fuel t s = Err OutOfFuel.
Proof.
  induction fuel as [|fuel IH]; intros s n Hn Hc Hp; [done|].
  simpl firstwalk.
  pose proof (lookup_lt_Some _ _ _ Hc) as Hlen.
  run_stepp. change (getp Fparent n) with (parent n). rewrite Hp.
  run_stepp. run_stepp. kids_simpl.
  rewrite decide_False by lia.
  run_stepp.
  unfold bind at 1.
  erewrite (IH _ (setq Fy 0 n)); [done|lookup|by kids_simpl|done].
Qed.

(** On a root that is its own first child the recursion of the first
    walk never comes to an end: [layout] does not return, whatever the
    fuel. *)
Theorem layout_self_loop (fuel : nat) (t : ptr) (n : Node) (s : state) :
  heap s !! t = Some n → children n !! 0%nat = Some t → parent n = None →
  layout fuel t s = Err OutOfFuel.
Proof.
  intros Hn Hc Hp. unfold layout, bind.
  by rewrite (firstwalk_self_loop t fuel s n Hn Hc Hp).
Qed.

Lemma layout_self_loop_witness :
  layout 50 0%nat (init {[0%nat := fresh 0%nat None [0%nat] 10 10]})
  = Err OutOfFuel.
Proof.
  exact (layout_self_loop 50 0%nat (fresh 0%nat None [0%nat] 10 10)
           (init {[0%nat := fresh 0%nat None [0%nat] 10 10]})
           ltac:(apply lookup_singleton_eq) eq_refl eq_refl).
Defined.

(** ** The second walk and the scratch fields *)

(** C4 (amended): when [secondwalk] visits [t], [add_child_spacing] has
    folded the [shift] and [change] of the children of [t] into their
    [mod], from left to right, by the time the walk goes down into them:
    the recursion over the children starts from a store [sd] in which
    every child has its [mod] raised by the running sum and everything
    else as before.  Neither there nor when the walk returns is any
    [shift] or [change] set back to 0: every node has the [shift] and the
    [change] it had. *)
Theorem secondwalk_folds (fuel : nat) (t : ptr) (modsum : Q) (s s' : state)
    (nt : Node) (ns : list Node) :
  heap s !! t = Some nt → t ∉ children nt → NoDup (children nt) →
  Forall2 (λ c n, heap s !! c = Some n) (children nt) ns →
  secondwalk (S fuel) t modsum s = Ok (tt, s') →
  ∃ sd,
    for_each (λ c, secondwalk fuel c (modsum + mod_ nt)%Q) (children nt) sd
    = Ok (tt, s') ∧
    (∀ k c n δ,
       children nt !! k = Some c → ns !! k = Some n →
       spacing 0 0 ns !! k = Some δ →
       heap sd !! c = Some (setq Fmod (mod_ n + δ)%Q n)) ∧
    (∀ p n, heap s !! p = Some n →
       ∃ n', heap sd !! p = Some n' ∧
             shift n' = shift n ∧ change n' = change n) ∧
    (∀ p n, heap s !! p = Some n →
       ∃ n', heap s' !! p = Some n' ∧
             shift n' = shift n ∧ change n' = change n).
Proof.
  intros Ht Htn Hnd Hall Hrun.
  pose proof (keeps_secondwalk (S fuel) t modsum s tt s' Hrun) as Hkeep.
  simpl secondwalk in Hrun.
  apply bind_Ok in Hrun as (m & sa & Hm & H).
  apply loadq_Ok in Hm as (n1 & Hn1 & -> & ->).
  assert (n1 = nt) as -> by congruence.
  apply bind_Ok in H as (p & sb & Hp & H).
  apply loadq_Ok in Hp as (n1 & Hn1' & -> & ->). simpl in Hn1'.
  assert (n1 = nt) as -> by congruence.
  apply bind_Ok in H as ([] & sc & Hst & H).
  apply storeq_Ok in Hst as (n1 & Hn1'' & ->). simpl in Hn1''.
  assert (n1 = nt) as -> by congruence. simpl in H.
  apply bind_Ok in H as ([] & sd & Hacs & H).
  set (v := (prelim nt + (modsum + mod_ nt))%Q) in *.
  set (sx := mkState (<[t := setq Fx v nt]> (heap s)) _) in Hacs.
  destruct (add_child_spacing_run sx t (setq Fx v nt) ns)
    as (sd' & Hrun' & Hmods & Hout & Hsame).
  { apply lookup_insert_eq. }
  { by rewrite children_setq. }
  { by rewrite children_setq. }
  { rewrite children_setq. apply Forall2_same_length_lookup.
    apply Forall2_same_length_lookup in Hall as [Hl Hall].
    split; [done|]. intros k c n Hc Hn. simpl.
    rewrite lookup_insert_ne; [by eapply Hall|].
    intros <-. apply Htn. by eapply list_elem_of_lookup_2. }
  rewrite Hacs in Hrun'. injection Hrun' as <-.
  rewrite children_setq in Hmods, Hout.
  apply bind_Ok in H as (cs & sf & Hcs & H).
  apply kids_Ok in Hcs as (n1 & Hk1 & -> & ->).
  rewrite Hout in Hk1 by done. simpl in Hk1.
  rewrite lookup_insert_eq in Hk1. injection Hk1 as <-.
  rewrite children_setq in H.
  exists (mkState (heap sd) (RdC t :: trace sd)).
  split; [exact H|]. split; [exact Hmods|]. split.
  - intros q n Hq. cbn [heap].
    destruct (decide (q = t)) as [->|Hne].
    + assert (n = nt) as -> by congruence.
      destruct (Hsame t (setq Fx v nt)) as (n' & Hn' & Es & Ec);
        [apply lookup_insert_eq|]. exists n'. done.
    + destruct (Hsame q n) as (n' & Hn' & Es & Ec);
        [simpl; by rewrite lookup_insert_ne|]. exists n'. done.
  - intros q n Hq.
    destruct (same_but_lookup _ _ _ _ _ Hkeep Hq) as (n' & Hn' & _ & _ & Hf).
    exists n'. split; [done|]. split.
    + apply (Hf Fshift). not_in_list.
    + apply (Hf Fchange). not_in_list.
Qed.

(** On [tilted] after the first walk, where child 2 of the root has
    [shift] 45/2 and child 3 has [shift] and [change] -45/2. *)
Lemma secondwalk_folds_witness :
  let s := after_firstwalk 13 0%nat tilted in
  ∃ nt ns s',
    (heap s !! 0%nat = Some nt ∧ (0%nat ∉ children nt) ∧
     NoDup (children nt) ∧
     Forall2 (λ c n, heap s !! c = Some n) (children nt) ns ∧
     secondwalk 13 0%nat 0 s = Ok (tt, s')) ∧
    (∃ a b, ns !! 1%nat = Some a ∧ ns !! 2%nat = Some b ∧
            (shift a == 45 # 2)%Q ∧ (change b == - (45 # 2))%Q) ∧
    ∃ sd,
      for_each (λ c, secondwalk 12 c (0 + mod_ nt)%Q) (children nt) sd
      = Ok (tt, s') ∧
      (∀ k c n δ,
         children nt !! k = Some c → ns !! k = Some n →
         spacing 0 0 ns !! k = Some δ →
         heap sd !! c = Some (setq Fmod (mod_ n + δ)%Q n)) ∧
      (∀ p n, heap s !! p = Some n →
         ∃ n', heap sd !! p = Some n' ∧
               shift n' = shift n ∧ change n' = change n) ∧
      (∀ p n, heap s !! p = Some n →
         ∃ n', heap s' !! p = Some n' ∧
               shift n' = shift n ∧ change n' = change n).
Proof.
  intros s.
  destruct (secondwalk 13 0%nat 0 s) as [[[] s']|e] eqn:E;
    [|vm_compute in E; discriminate E].
  let v := eval vm_compute in (heap s !! 0%nat) in
  match v with Some ?n => exists n end.
  let v := eval vm_compute in (omap (λ c, heap s !! c) [1; 2; 3]%nat) in
  exists v.
  exists s'.
  assert (H1 : heap s !! 0%nat = Some _) by (vm_compute; reflexivity).
  split; [|split].
  - split; [vm_compute; reflexivity|].
    split; [apply (bool_decide_unpack _); vm_compute; exact I|].
    split; [apply (bool_decide_unpack _); vm_compute; exact I|].
    split; [|reflexivity].
    cbn [children].
    repeat (apply List.Forall2_cons; [vm_compute; reflexivity|]).
    apply List.Forall2_nil.
  - eexists _, _. split; [reflexivity|]. split; [reflexivity|].
    split; vm_compute; reflexivity.
  - apply (secondwalk_folds 12 0%nat 0 s s' _ _ H1).
    + apply (bool_decide_unpack _); vm_compute; exact I.
    + apply (bool_decide_unpack _); vm_compute; exact I.
    + cbn [children].
      repeat (apply List.Forall2_cons; [vm_compute; reflexivity|]).
      apply List.Forall2_nil.
    + exact E.
Defined.

End Layout.
